(** * The rule-based answering pipeline of the portfolio chat (localRAG)

    A shallow embedding of the TypeScript module that answers a visitor's
    question from hand-written rules: [normalizeQuery], the response cache,
    [detectIntent], [updateContext], [matchQuestionPattern],
    [extractRelevantInfo], [getPatternResponse] and [generateRAGResponse].

    Conventions.
    - A JavaScript string is a sequence of UTF-16 code units.  Questions are
      taken over the ASCII range, one [ascii] per code unit; on that range
      [toLowerCase], [trim], [\s], [\w] and [\b] are as written below.  The
      canned answers contain characters outside that range; they are carried
      as UTF-8 bytes and are only ever stored and returned.
    - A JavaScript [Map] or [Set] iterates in insertion order: it is an
      association list (a list) whose order is the insertion order.
    - A JavaScript number is a binary64 float: [PrimFloat.float].  Intent
      scores are multiples of 0.5 and are counted in half points ([Z]).
    - [Date.now()], [Math.random()] and the fetch of the profile document
      are inputs of a call ([Env]). *)

From Stdlib Require Import String Ascii List ZArith Lia Bool Arith PeanoNat.
From Stdlib Require Import Permutation Sorted.
From Stdlib Require Import Floats.PrimFloat.
Import ListNotations.

Open Scope list_scope.
Open Scope string_scope.

Set Implicit Arguments.

(* ------------------------------------------------------------------ *)
(** ** JavaScript strings *)

Module JSString.

Definition code (c : ascii) : nat := nat_of_ascii c.

(** [A]..[Z] *)
Definition isUpper (c : ascii) : bool :=
((65 <=? code c) && (code c <=? 90))%nat.

Definition isLower (c : ascii) : bool :=
((97 <=? code c) && (code c <=? 122))%nat.

Definition isDigit (c : ascii) : bool :=
((48 <=? code c) && (code c <=? 57))%nat.

(** [\w]: letters, digits and the underscore. *)
Definition isWordChar (c : ascii) : bool :=
isUpper c || isLower c || isDigit c || (code c =? 95)%nat.

(** [\s], and what [trim] removes: TAB, LF, VT, FF, CR and the space. *)
Definition isSpace (c : ascii) : bool :=
((9 <=? code c)%nat && (code c <=? 13)%nat) || (code c =? 32)%nat.

(** Line terminators, which [.] does not match. *)
Definition isLineTerminator (c : ascii) : bool :=
(code c =? 10)%nat || (code c =? 13)%nat.

Definition lowerChar (c : ascii) : ascii :=
if isUpper c then ascii_of_nat (code c + 32) else c.

Definition upperChar (c : ascii) : ascii :=
if isLower c then ascii_of_nat (code c - 32) else c.

Fixpoint map (f : ascii -> ascii) (s : string) : string :=
match s with
| EmptyString => EmptyString
| String c s' => String (f c) (map f s')
end.

Definition toLowerCase (s : string) : string := map lowerChar s.
Definition toUpperCase (s : string) : string := map upperChar s.

Fixpoint trimStart (s : string) : string :=
match s with
| EmptyString => EmptyString
| String c s' => if isSpace c then trimStart s' else s
end.

(** [trimEnd] keeps a character when it is not a space or when something
  that is kept follows it. *)
Fixpoint trimEnd (s : string) : string :=
match s with
| EmptyString => EmptyString
| String c s' =>
    match trimEnd s' with
    | EmptyString => if isSpace c then EmptyString else String c EmptyString
    | t => String c t
    end
end.

Definition trim (s : string) : string := trimEnd (trimStart s).

Fixpoint startsWith (p s : string) : bool :=
match p, s with
| EmptyString, _ => true
| String _ _, EmptyString => false
| String a p', String b s' => Ascii.eqb a b && startsWith p' s'
end.

(** [s.includes(sub)] *)
Fixpoint includes (sub s : string) : bool :=
startsWith sub s ||
match s with
| EmptyString => false
| String _ s' => includes sub s'
end.

Fixpoint join (sep : string) (l : list string) : string :=
match l with
| [] => EmptyString
| [x] => x
| x :: rest => x ++ sep ++ join sep rest
end.

(** [s.split(/\s+/)]: the pieces between maximal runs of white space; a run
  at either end leaves an empty piece there, and the empty string splits
  into one empty piece. *)
Fixpoint splitSpaces_aux (inRun : bool) (cur : string) (s : string) : list string :=
match s with
| EmptyString => [cur]
| String c s' =>
    if isSpace c
    then if inRun then splitSpaces_aux true cur s'
         else cur :: splitSpaces_aux true EmptyString s'
    else splitSpaces_aux false (cur ++ String c EmptyString) s'
end.

Definition splitSpaces (s : string) : list string :=
splitSpaces_aux false EmptyString s.

(** JavaScript truthiness of a string: the empty string is falsy. *)
Definition truthy (s : string) : bool :=
match s with EmptyString => false | _ => true end.

End JSString.
Import JSString.

(* ------------------------------------------------------------------ *)
(** ** JavaScript [Map] and [Set] over string keys, in insertion order *)

Module JSMap.
Section WithValues.
Variable V : Type.

Definition t := list (string * V).

Fixpoint get (k : string) (m : t) : option V :=
match m with
| [] => None
| (k', v) :: m' => if String.eqb k k' then Some v else get k m'
end.

Definition has (k : string) (m : t) : bool :=
match get k m with Some _ => true | None => false end.

(** [m.set(k, v)]: an existing key keeps its place, a new one goes last. *)
Fixpoint set (k : string) (v : V) (m : t) : t :=
match m with
| [] => [(k, v)]
| (k', v') :: m' =>
    if String.eqb k k' then (k', v) :: m' else (k', v') :: set k v m'
end.

Fixpoint delete (k : string) (m : t) : t :=
match m with
| [] => []
| (k', v') :: m' =>
    if String.eqb k k' then delete k m' else (k', v') :: delete k m'
end.

Definition size (m : t) : nat := length m.

Definition keys (m : t) : list string := List.map fst m.

(** [m.keys().next().value] *)
Definition firstKey (m : t) : option string :=
match m with [] => None | (k, _) :: _ => Some k end.
End WithValues.
End JSMap.

Module JSSet.
Definition t := list string.

Fixpoint has (k : string) (s : t) : bool :=
  match s with
  | [] => false
  | k' :: s' => String.eqb k k' || has k s'
  end.

Definition add (k : string) (s : t) : t :=
  if has k s then s else (s ++ [k])%list.

Definition size (s : t) : nat := length s.
End JSSet.

(* ------------------------------------------------------------------ *)
(** ** The response cache *)

Record CacheEntry := { response : string; timestamp : Z }.

Definition Cache := JSMap.t CacheEntry.

(** [5 * 60 * 1000] milliseconds *)
Definition CACHE_TTL : Z := 5 * 60 * 1000.

Definition cacheKeyOf (query : string) : string := trim (toLowerCase query).

(** [getCachedResponse]: the answer, and the cache after the lazy eviction
    of an expired entry. *)
Definition getCachedResponse (now : Z) (query : string) (c : Cache)
  : option string * Cache :=
  let cacheKey := cacheKeyOf query in
  match JSMap.get cacheKey c with
  | Some cached =>
      if (now - timestamp cached <? CACHE_TTL)%Z
      then (Some (response cached), c)
      else (None, JSMap.delete cacheKey c)
  | None => (None, c)
  end.

(** [cacheResponse] *)
Definition cacheResponse (now : Z) (query resp : string) (c : Cache) : Cache :=
  let cacheKey := cacheKeyOf query in
  let c1 := JSMap.set cacheKey {| response := resp; timestamp := now |} c in
  if (50 <? JSMap.size c1)%nat
  then match JSMap.firstKey c1 with
       | Some firstKey => JSMap.delete firstKey c1
       | None => c1
       end
  else c1.

(* ------------------------------------------------------------------ *)
(** ** Regular expressions

    The fragment of JavaScript's regular expressions that the module writes:
    literals, classes, [.], sequence, alternation, the greedy [*], [+] and
    [?], and the assertions [^], [$] and [\b].  Matching is the backtracking
    matcher of the language definition: alternatives left to right, a
    quantifier taking as many iterations as it can first, and an iteration
    that consumes nothing being refused.  The flag [i] is rendered by
    writing the pattern in lower case and matching the lower-cased input,
    which on the ASCII range is what the canonicalisation of the language
    definition amounts to. *)

Module RegExp.

Inductive regex : Type :=
| Eps : regex
| Lit : ascii -> regex
| Class : (ascii -> bool) -> regex
| Seq : regex -> regex -> regex
| Alt : regex -> regex -> regex
| Star : regex -> regex
| Bol : regex
| Eol : regex
| WordB : regex.

(** [.] *)
Definition Dot : regex := Class (fun c => negb (isLineTerminator c)).
(** [\s], [\w] *)
Definition Space : regex := Class isSpace.
Definition WordChar : regex := Class isWordChar.
Definition Plus (r : regex) : regex := Seq r (Star r).
Definition Opt (r : regex) : regex := Alt r Eps.
(** [.*] *)
Definition Any : regex := Star Dot.

(** A literal string. *)
Fixpoint Str (s : string) : regex :=
match s with
| EmptyString => Eps
| String c EmptyString => Lit c
| String c s' => Seq (Lit c) (Str s')
end.

(** [[abc]] *)
Definition OneOf (s : string) : regex :=
Class (fun c => includes (String c EmptyString) s).

Fixpoint Seqs (l : list regex) : regex :=
match l with
| [] => Eps
| [r] => r
| r :: l' => Seq r (Seqs l')
end.

Fixpoint Alts (l : list regex) : regex :=
match l with
| [] => Class (fun _ => false)
| [r] => r
| r :: l' => Alt r (Alts l')
end.

Definition isWordOpt (o : option ascii) : bool :=
match o with Some c => isWordChar c | None => false end.

Definition headOf (s : string) : option ascii :=
match s with EmptyString => None | String c _ => Some c end.

(** [rmatch r prev s k]: match [r] at a position whose preceding character
  is [prev] ([None] at the start of the input) and whose remaining input
  is [s]; [k] is the continuation, called with the position after the
  match.  The first success in priority order is returned. *)
Fixpoint rmatch (A : Type) (r : regex) (prev : option ascii) (s : string)
       (k : option ascii -> string -> option A) {struct r} : option A :=
match r with
| Eps => k prev s
| Lit c =>
    match s with
    | String d s' => if Ascii.eqb c d then k (Some d) s' else None
    | EmptyString => None
    end
| Class f =>
    match s with
    | String d s' => if f d then k (Some d) s' else None
    | EmptyString => None
    end
| Seq r1 r2 => rmatch r1 prev s (fun p' s' => rmatch r2 p' s' k)
| Alt r1 r2 =>
    match rmatch r1 prev s k with
    | Some a => Some a
    | None => rmatch r2 prev s k
    end
| Star r' =>
    (fix loop (n : nat) (prev : option ascii) (s : string) {struct n} : option A :=
       match n with
       | O => k prev s
       | S n' =>
           match rmatch r' prev s
                   (fun p' s' =>
                      if (String.length s' <? String.length s)%nat
                      then loop n' p' s' else None) with
           | Some a => Some a
           | None => k prev s
           end
       end) (String.length s) prev s
| Bol => match prev with None => k prev s | Some _ => None end
| Eol => match s with EmptyString => k prev s | String _ _ => None end
| WordB =>
    if xorb (isWordOpt prev) (isWordOpt (headOf s)) then k prev s else None
end.

(** The length of the match of [r] at a position, if there is one. *)
Definition matchAt (r : regex) (prev : option ascii) (s : string) : option nat :=
rmatch r prev s (fun _ s' => Some (String.length s - String.length s')%nat).

Fixpoint search (r : regex) (prev : option ascii) (s : string) : bool :=
match matchAt r prev s with
| Some _ => true
| None =>
    match s with
    | EmptyString => false
    | String c s' => search r (Some c) s'
    end
end.

(** [/r/.test(s)] *)
Definition test (r : regex) (s : string) : bool := search r None s.

(** [/r/i.test(s)], for [r] written in lower case. *)
Definition test_i (r : regex) (s : string) : bool := test r (toLowerCase s).

(** The scan of a global regular expression: at a position outside the last
  match the pattern is tried; [skip] counts the characters still inside
  the last match.  An empty match advances by one character. *)
Fixpoint countFrom (r : regex) (skip : nat) (prev : option ascii) (s : string)
       {struct s} : nat :=
match skip with
| S k =>
    match s with
    | EmptyString => 0
    | String c s' => countFrom r k (Some c) s'
    end
| O =>
    match matchAt r prev s with
    | Some len =>
        S (match s with
           | EmptyString => 0
           | String c s' => countFrom r (Nat.pred len) (Some c) s'
           end)
    | None =>
        match s with
        | EmptyString => 0
        | String c s' => countFrom r 0 (Some c) s'
        end
    end
end.

(** [(s.match(/r/g) || []).length] *)
Definition matchCount (r : regex) (s : string) : nat := countFrom r 0 None s.

Fixpoint replaceFrom (r : regex) (rep : string) (skip : nat)
       (prev : option ascii) (s : string) {struct s} : string :=
match skip with
| S k =>
    match s with
    | EmptyString => EmptyString
    | String c s' => replaceFrom r rep k (Some c) s'
    end
| O =>
    match matchAt r prev s with
    | Some O =>
        rep ++ match s with
               | EmptyString => EmptyString
               | String c s' => String c (replaceFrom r rep 0 (Some c) s')
               end
    | Some (S k) =>
        rep ++ match s with
               | EmptyString => EmptyString
               | String c s' => replaceFrom r rep k (Some c) s'
               end
    | None =>
        match s with
        | EmptyString => EmptyString
        | String c s' => String c (replaceFrom r rep 0 (Some c) s')
        end
    end
end.

(** [s.replace(/r/g, rep)], for a replacement without [$]. *)
Definition replaceAll (r : regex) (rep : string) (s : string) : string :=
replaceFrom r rep 0 None s.

End RegExp.
Import RegExp.

(* ------------------------------------------------------------------ *)
(** ** Stable sorting, slices *)

Section Sorting.
Variable A : Type.
(** [before y x]: the comparator puts [y] strictly before [x]. *)
Variable before : A -> A -> bool.

Fixpoint insertSorted (x : A) (l : list A) : list A :=
  match l with
  | [] => [x]
  | y :: l' => if before y x then y :: insertSorted x l' else x :: l
  end.

(** [Array.prototype.sort] with a comparator: a stable sort. *)
Definition stableSort (l : list A) : list A := fold_right insertSorted [] l.

(** [l.slice(-n)] *)
Definition sliceLast (n : nat) (l : list A) : list A :=
  skipn (length l - n) l.
End Sorting.

(* ------------------------------------------------------------------ *)
(** ** The profile document and the conversation context *)

Record Experience := {
  exp_title : string;
  exp_company : string;
  exp_description : string;
  exp_location : option string;
  exp_duration : option string
}.

Record Project := {
  proj_name : string;
  proj_description : string;
  proj_technologies : option string;
  proj_link : option string
}.

Record Education := {
  edu_degree : string;
  edu_school : string;
  edu_location : option string;
  edu_duration : option string
}.

Record Contact := {
  email : option string;
  phone : option string;
  linkedin : option string;
  github : option string
}.

Record ResumeData := {
  name : string;
  location : string;
  bio : string;
  tagline : string;
  professional_summary : string;
  skills : list string;
  experience : option (list Experience);
  projects : option (list Project);
  education : option (list Education);
  certifications : option (list string);
  contact : option Contact;
  leadership : option (list string);
  honors : option (list string)
}.

Inductive Sentiment := curious | professional | casual.
Inductive Depth := overview | detailed | deep_dive.

Definition sentiment_eqb (a b : Sentiment) : bool :=
  match a, b with
  | curious, curious | professional, professional | casual, casual => true
  | _, _ => false
  end.

Definition depth_eqb (a b : Depth) : bool :=
  match a, b with
  | overview, overview | detailed, detailed | deep_dive, deep_dive => true
  | _, _ => false
  end.

Record ConversationContext := {
  topics : list string;
  askedAbout : JSSet.t;
  sentiment : Sentiment;
  depth : Depth
}.

Definition initialContext : ConversationContext :=
  {| topics := []; askedAbout := []; sentiment := curious; depth := overview |}.

Definition askedAbout_add (k : string) (ctx : ConversationContext) : ConversationContext :=
  {| topics := topics ctx; askedAbout := JSSet.add k (askedAbout ctx);
     sentiment := sentiment ctx; depth := depth ctx |}.

(** [l.includes(x)] on an array of strings *)
Definition arrIncludes (x : string) (l : list string) : bool := JSSet.has x l.

(* ------------------------------------------------------------------ *)
(** ** The fixed tables *)

Definition TYPO_CORRECTIONS : list (string * string) :=
  [ ("experiance", "experience");
    ("expirience", "experience");
    ("experince", "experience");
    ("projct", "project");
    ("proyect", "project");
    ("skilz", "skills");
    ("skils", "skills");
    ("contct", "contact");
    ("contat", "contact");
    ("edcuation", "education");
    ("educaton", "education");
    ("resumee", "resume");
    ("resum", "resume") ].

Definition SYNONYMS : list (string * list string) :=
  [ ("job", ["work"; "employment"; "position"; "role"; "career"]);
    ("project", ["app"; "application"; "build"; "creation"; "work"]);
    ("skill", ["ability"; "expertise"; "knowledge"; "capability"; "proficiency"]);
    ("contact", ["reach"; "connect"; "get in touch"; "email"; "call"]);
    ("education", ["degree"; "school"; "university"; "study"; "learning"]);
    ("achievement", ["accomplishment"; "success"; "award"; "honor"; "recognition"]) ].

Definition SEMANTIC_KEYWORDS : list (string * list string) :=
  [ ("experience", ["work"; "job"; "career"; "role"; "position"; "internship"; "employed"; "worked at"]);
    ("projects", ["built"; "created"; "developed"; "project"; "portfolio"; "made"; "app"; "application"]);
    ("skills", ["skill"; "technology"; "tech"; "expertise"; "proficient"; "good at"; "know"; "can you"]);
    ("education", ["study"; "studied"; "degree"; "university"; "college"; "school"; "education"; "graduated"]);
    ("ai", ["ai"; "artificial intelligence"; "machine learning"; "ml"; "llm"; "rag"; "chatbot"; "neural"]);
    ("contact", ["contact"; "reach"; "email"; "phone"; "linkedin"; "github"; "connect"; "get in touch"]);
    ("achievements", ["achievement"; "accomplish"; "proud"; "award"; "honor"; "recognition"; "success"]);
    ("personal", ["hobby"; "interest"; "personal"; "passion"; "love"; "enjoy"; "background"; "story"]);
    ("leadership", ["leadership"; "leader"; "manage"; "team"; "coordinate"; "organize"; "motivate"]);
    ("motivation", ["why"; "motivated"; "inspire"; "passion"; "drive"; "what sparked"]);
    ("challenges", ["challenge"; "difficult"; "problem"; "obstacle"; "struggle"; "overcome"]);
    ("future", ["future"; "vision"; "goal"; "plan"; "career path"; "long-term"; "aspiration"]);
    ("resume", ["resume"; "cv"; "walk me through"; "background"; "tell me about yourself"]);
    ("cloud", ["cloud"; "aws"; "azure"; "gcp"; "serverless"; "container"; "kubernetes"]);
    ("consulting", ["consult"; "business architect"; "strategy"; "enterprise"; "client"]);
    ("teaching", ["teach"; "graduate assistant"; "student"; "education"; "mentor"]);
    ("retail", ["retail"; "evm"; "assistant manager"; "store"; "customer"]);
    ("technical", ["technical"; "code"; "debug"; "implement"; "design"; "architecture"]) ].

(* ------------------------------------------------------------------ *)
(** ** [normalizeQuery] *)

(** [new RegExp(`\\b${typo}\\b`, 'gi')]; the text it is applied to is in
    lower case already. *)
Definition typoRegex (typo : string) : regex := Seqs [WordB; Str typo; WordB].

Definition fixTypos (s : string) : string :=
  fold_left (fun normalized tc => replaceAll (typoRegex (fst tc)) (snd tc) normalized)
            TYPO_CORRECTIONS s.

Definition expandSynonyms (s : string) : string :=
  fold_left (fun normalized ws =>
               if includes (fst ws) normalized
               then normalized ++ " " ++ join " " (snd ws)
               else normalized)
            SYNONYMS s.

(** [.replace(/[?!.]+/g, ' ').replace(/\s+/g, ' ').trim()] *)
Definition cleanPunctuation (s : string) : string :=
  trim (replaceAll (Plus Space) " " (replaceAll (Plus (OneOf "?!.")) " " s)).

Definition normalizeQuery (query : string) : string :=
  cleanPunctuation (expandSynonyms (fixTypos (trim (toLowerCase query)))).

(* ------------------------------------------------------------------ *)
(** ** [detectIntent]

    Scores are in half points: 2 is [4], 1 is [2], 1.5 is [3], 0.5 is [1]. *)

Definition keywordPoints (queryLower keyword : string) : Z :=
  if includes keyword queryLower
  then (if (4 <? String.length keyword)%nat then 4 else 2)
       + (Z.of_nat (matchCount (Str keyword) queryLower) - 1)
  else 0.

(** The inner loop: the score of one intent. *)
Definition intentScore (queryLower : string) (keywords : list string) : Z :=
  fold_left (fun score keyword => (score + keywordPoints queryLower keyword)%Z) keywords 0%Z.

(** The outer loop over [Object.entries(SEMANTIC_KEYWORDS)]. *)
Definition keywordScores (queryLower : string) : JSMap.t Z :=
  fold_left (fun intentScores ik =>
               let score := intentScore queryLower (snd ik) in
               if (0 <? score)%Z then JSMap.set (fst ik) score intentScores
               else intentScores)
            SEMANTIC_KEYWORDS [].

(** The battery of patterns, each a [set] of a fixed score. *)
Definition PATTERN_INTENTS : list (regex * (string * Z)) :=
  [ (Seqs [Str "what "; Alts [Str "do"; Str "can"; Str "are"]; Str " you"], ("capabilities", 4%Z));
    (Seqs [Str "tell me "; Alts [Str "about"; Str "more"]], ("detailed", 3%Z));
    (Seqs [Str "how "; Alts [Str "did"; Str "do"; Str "can"]], ("process", 3%Z));
    (Str "why", ("motivation", 4%Z));
    (Str "when", ("timeline", 2%Z));
    (Str "where", ("location", 2%Z)) ].

Definition patternScores (query : string) (scores : JSMap.t Z) : JSMap.t Z :=
  fold_left (fun intentScores p =>
               if test_i (fst p) query
               then JSMap.set (fst (snd p)) (snd (snd p)) intentScores
               else intentScores)
            PATTERN_INTENTS scores.

Definition intentScores (query : string) : JSMap.t Z :=
  patternScores query (keywordScores (toLowerCase query)).

(** [.sort((a, b) => b[1] - a[1])]: [y] goes before [x] when its score is
    strictly higher. *)
Definition higherScore (y x : string * Z) : bool := (snd x <? snd y)%Z.

Definition detectIntent (query : string) : list string :=
  List.map fst (stableSort higherScore (intentScores query)).

(* ------------------------------------------------------------------ *)
(** ** [updateContext] *)

Definition wholeWord (words : list string) : regex :=
  Seqs [WordB; Alts (List.map Str words); WordB].

Definition updateContext (query : string) (intents : list string)
           (ctx : ConversationContext) : ConversationContext :=
  {| topics := sliceLast 10 (topics ctx ++ intents)%list;
     askedAbout := askedAbout ctx;
     sentiment :=
       if test_i (wholeWord ["cool"; "awesome"; "interesting"; "great"; "amazing"]) query
       then casual
       else if test_i (wholeWord ["experience"; "professional"; "qualification"; "expertise"]) query
       then professional
       else sentiment ctx;
     depth :=
       if test_i (wholeWord ["more"; "detail"; "specific"; "elaborate"; "deep"]) query
       then detailed
       else if test_i (wholeWord ["quickly"; "brief"; "summary"; "overview"]) query
       then overview
       else depth ctx |}.

(* ------------------------------------------------------------------ *)
(** ** [matchQuestionPattern] *)

(** [a.*b.*c] *)
Fixpoint chain (l : list string) : regex :=
  match l with
  | [] => Eps
  | [w] => Str w
  | w :: l' => Seq (Str w) (Seq Any (chain l'))
  end.

(** The rules in order; a rule is a list of patterns that must all match
    and the name it returns. *)
Definition QUESTION_PATTERNS : list (list regex * string) :=
  (* /walk (me )?through (your )?resume|tell me about yourself|your background/i *)
  [ ([Alts [Seqs [Str "walk "; Opt (Str "me "); Str "through "; Opt (Str "your "); Str "resume"];
            Str "tell me about yourself"; Str "your background"]], "resume_overview");
    (* /why.*pursue.*bachelor.*master|motivated.*degree/i *)
    ([Alts [chain ["why"; "pursue"; "bachelor"; "master"]; chain ["motivated"; "degree"]]], "education_motivation");
    (* /why.*university of oklahoma|why.*ou/i *)
    ([Alts [chain ["why"; "university of oklahoma"]; chain ["why"; "ou"]]], "why_ou");
    (* /why.*management information/i *)
    ([chain ["why"; "management information"]], "why_mis");
    (* /integrate.*business.*technical|combine.*business.*tech/i *)
    ([Alts [chain ["integrate"; "business"; "technical"]; chain ["combine"; "business"; "tech"]]], "business_tech_integration");
    (* /define.*digital transformation|what.*digital transformation/i *)
    ([Alts [chain ["define"; "digital transformation"]; chain ["what"; "digital transformation"]]], "digital_transformation");
    (* /what sparked.*passion|why.*passionate/i *)
    ([Alts [chain ["what sparked"; "passion"]; chain ["why"; "passionate"]]], "passion_origin");
    (* /long[- ]?term.*vision|career.*vision|future.*career/i *)
    ([Alts [Seqs [Str "long"; Opt (OneOf "- "); Str "term"; Any; Str "vision"];
            chain ["career"; "vision"]; chain ["future"; "career"]]], "career_vision");
    (* /which.*shaped.*most|most important.*experience/i *)
    ([Alts [chain ["which"; "shaped"; "most"]; chain ["most important"; "experience"]]], "most_impactful");
    (* /objectstream|pega.*intern/i && /what.*do|role|contribute/i *)
    ([Alts [Str "objectstream"; chain ["pega"; "intern"]];
      Alts [chain ["what"; "do"]; Str "role"; Str "contribute"]], "objectstream_role");
    (* /beats.*dre|consumer.*insight/i *)
    ([Alts [chain ["beats"; "dre"]; chain ["consumer"; "insight"]]], "beats_insights");
    (* /love'?s.*travel/i && /21%|latency|reporting/i *)
    ([Seqs [Str "love"; Opt (Lit "'"); Str "s"; Any; Str "travel"];
      Alts [Str "21%"; Str "latency"; Str "reporting"]], "loves_analytics");
    (* /graduate assistant|teaching.*sql/i *)
    ([Alts [Str "graduate assistant"; chain ["teaching"; "sql"]]], "teaching_role");
    (* /evm|retail.*management/i *)
    ([Alts [Str "evm"; chain ["retail"; "management"]]], "retail_experience");
    (* /(avatar.*portfolio|3d.*portfolio).*inspired|why.*3d/i *)
    ([Alts [Seqs [Alts [chain ["avatar"; "portfolio"]; chain ["3d"; "portfolio"]]; Any; Str "inspired"];
            chain ["why"; "3d"]]], "avatar_inspiration");
    (* /chibitomo.*problem|chibitomo.*solve/i *)
    ([Alts [chain ["chibitomo"; "problem"]; chain ["chibitomo"; "solve"]]], "chibitomo_purpose");
    (* /aesculapius.*privacy|why.*privacy/i *)
    ([Alts [chain ["aesculapius"; "privacy"]; chain ["why"; "privacy"]]], "aesculapius_privacy");
    (* /linkedin.*assistant.*inspired|why.*chrome/i *)
    ([Alts [chain ["linkedin"; "assistant"; "inspired"]; chain ["why"; "chrome"]]], "linkedin_motivation");
    (* /prefer.*cloud|which.*cloud.*platform/i *)
    ([Alts [chain ["prefer"; "cloud"]; chain ["which"; "cloud"; "platform"]]], "cloud_preference");
    (* /sql.*join|window function|cte/i *)
    ([Alts [chain ["sql"; "join"]; Str "window function"; Str "cte"]], "sql_proficiency");
    (* /debug.*python|debugging.*process/i *)
    ([Alts [chain ["debug"; "python"]; chain ["debugging"; "process"]]], "debugging_approach");
    (* /langchain.*hugging.*face|prefer.*ai.*library/i *)
    ([Alts [chain ["langchain"; "hugging"; "face"]; chain ["prefer"; "ai"; "library"]]], "ai_library_preference");
    (* /cousins.*presidential.*club|events.*chair/i *)
    ([Alts [chain ["cousins"; "presidential"; "club"]; chain ["events"; "chair"]]], "leadership_club");
    (* /balance.*academic.*project|manage.*time/i *)
    ([Alts [chain ["balance"; "academic"; "project"]; chain ["manage"; "time"]]], "time_management");
    (* /motivate.*team|team.*motivation/i *)
    ([Alts [chain ["motivate"; "team"]; chain ["team"; "motivation"]]], "team_motivation");
    (* /work.*culture|culture.*motivate/i *)
    ([Alts [chain ["work"; "culture"]; chain ["culture"; "motivate"]]], "work_culture");
    (* /handle.*failure|deal.*criticism/i *)
    ([Alts [chain ["handle"; "failure"]; chain ["deal"; "criticism"]]], "handling_failure");
    (* /why.*hire.*you|why.*should.*we/i *)
    ([Alts [chain ["why"; "hire"; "you"]; chain ["why"; "should"; "we"]]], "why_hire");
    (* /mistake.*grew|learned.*from/i *)
    ([Alts [chain ["mistake"; "grew"]; chain ["learned"; "from"]]], "learning_from_mistakes");
    (* /ethical.*use.*technology|ethics.*ai/i *)
    ([Alts [chain ["ethical"; "use"; "technology"]; chain ["ethics"; "ai"]]], "tech_ethics");
    (* /how.*contact|reach (out to )?you|get in touch|your (email|phone|linkedin|github)/i *)
    ([Alts [chain ["how"; "contact"];
            Seqs [Str "reach "; Opt (Str "out to "); Str "you"];
            Str "get in touch";
            Seqs [Str "your "; Alts [Str "email"; Str "phone"; Str "linkedin"; Str "github"]]]], "contact");
    (* /what.*do.*for fun|hobbies|interests|outside (of )?work|free time|enjoy doing|passion outside/i *)
    ([Alts [chain ["what"; "do"; "for fun"]; Str "hobbies"; Str "interests";
            Seqs [Str "outside "; Opt (Str "of "); Str "work"];
            Str "free time"; Str "enjoy doing"; Str "passion outside"]], "hobbies") ].

Fixpoint firstMatching (rules : list (list regex * string)) (question : string)
  : option string :=
  match rules with
  | [] => None
  | (conds, pattern) :: rest =>
      if forallb (fun r => test_i r question) conds
      then Some pattern
      else firstMatching rest question
  end.

Definition matchQuestionPattern (question : string) : option string :=
  firstMatching QUESTION_PATTERNS question.

(* ------------------------------------------------------------------ *)
(** ** The canned answers

    The texts of [getPatternResponse] and of [generateRAGResponse], as the
    source has them. *)

Module Text.

Definition dq : string := String (ascii_of_nat 34) EmptyString.
Definition nl : string := String (ascii_of_nat 10) EmptyString.

Definition resume_overview : string :=
  "Great question! Let me walk you through my journey. I'm **Marzook Mansoor** from Edmond, OK. I completed both my **Bachelor's in BBA-MIS** (2021-2025) and **Master's in Management Information Technology** (2023-2025) at the University of Oklahoma. Currently, I'm a **Business Architect Intern at Objectstream working with Pega** on digital transformation and enterprise automation. Before this, I was a **Business Analyst Intern at Love's Travel Stop** where I built analytics pipelines that cut reporting time by 21%, and did consumer insights work at **Beats by Dre** using AI for sentiment analysis. I also served as a **Graduate Assistant at OU** teaching SQL and database admin, and managed retail operations at EVM LLC early in my career. My technical skills span **Python, SQL, AI/ML (LLMs, RAG, LangChain), cloud platforms (AWS, Azure, GCP), Pega, UiPath, and BI tools**. I've built projects like this **Avatar Chat Portfolio** (3D AI chatbot), **ChibiTomo** (AI Pomodoro app), **Aesculapius AI** (local LLM assistant), and a **LinkedIn Sentiment Assistant** Chrome extension. I'm passionate about bridging technology and business value, especially in AI, automation, and digital transformation.".

Definition education_motivation : string :=
  "Excellent question! I pursued both degrees because I wanted a **complete foundation** - the Bachelor's gave me business fundamentals (strategy, finance, management) combined with IT systems thinking, while the Master's deepened my technical expertise in **AI, cloud computing, analytics programming, and business process automation**. The Bachelor's taught me *what* businesses need, and the Master's taught me *how* to build solutions. I also did them overlapping (started grad school in my senior year) because I was hungry to learn more and wanted to fast-track my technical depth. The combination makes me uniquely positioned - I can sit in C-suite meetings and discuss ROI and strategy, then turn around and architect the AI/cloud solution. Not many people bridge that gap effectively. Plus, working as a Graduate Assistant while earning my Master's reinforced my learning by teaching others. Best decision I ever made! .".

Definition why_ou : string :=
  "University of Oklahoma was the perfect fit for me! **Academically**, the MIS program ranks in the top tier nationally with amazing professors who bring real industry experience. The **Price College of Business** has strong corporate relationships - that's how I landed internships at Love's, Objectstream, and the Beats by Dre externship. **Practically**, the cost-to-value ratio was unbeatable - I earned scholarships (Love's Scholar, OU MIS Department top 1/3) and made Dean's/President's Honor Roll 8 times, which made it financially sustainable. **Culturally**, I loved the collaborative environment - I got involved with Cousins Presidential Club, UI/UX Club, MIS Club, and Multicultural Business Program. **Location-wise**, Norman is close to OKC's growing tech scene but still has that college town energy. Plus, Boomer Sooner! 🎉 The combination of strong academics, industry connections, affordability, and community made OU the obvious choice. No regrets! .".

Definition why_mis : string :=
  "I chose **Management Information Technology over pure Computer Science** because I wanted to solve business problems, not just write code. **MIS sits at the intersection** - we learn the technical depth (Python, SQL, cloud, AI) *plus* how to apply it strategically. Pure CS focuses on algorithms and theory; MIS focuses on **business value and ROI**. For example, in my Love's internship, success wasn't just " ++ dq ++ "build a pipeline" ++ dq ++ " - it was " ++ dq ++ "reduce reporting latency by 21% and drive decisions." ++ dq ++ " That requires understanding stakeholder needs, change management, and business context. **MIS curriculum** combines data science, business process automation, cloud architecture, consulting methodologies, and IT strategy. **Career-wise**, MIS opens doors to roles like Business Analyst, IT Consultant, Business Architect, Product Manager - roles where you influence strategy *and* execution. I can talk to executives about digital transformation and then build the solution. That's way more impactful than being siloed in pure development. Plus, consulting firms love MIS grads! .".

Definition business_tech_integration : string :=
  "This is my superpower! I integrate business and technical thinking **every single day**. At **Objectstream**, I translate business requirements into Pega automation workflows - that means understanding process inefficiencies (business) and designing scalable architecture (technical). At **Love's**, I didn't just query data - I understood *why* stakeholders needed faster reporting (business impact) and architected cloud pipelines (technical solution). At **Beats by Dre**, I combined consumer psychology (business) with AI sentiment analysis (technical). **In projects**, Avatar Chat Portfolio demonstrates this - it's not just " ++ dq ++ "cool 3D tech," ++ dq ++ " it's a **business tool** for personal branding and networking. ChibiTomo solves productivity challenges (business need) with AI automation (technical execution). **My approach**: (1) Listen to business pain points, (2) Identify metrics that matter, (3) Design technical solutions that move those metrics, (4) Communicate value in business terms. I speak both languages fluently. That's rare and valuable! .".

Definition digital_transformation : string :=
  "Based on my experiences, **digital transformation is fundamentally about using technology to reimagine how work gets done - not just automating old processes, but rethinking them entirely**. At **Objectstream with Pega**, we're not just digitizing manual forms - we're redesigning workflows so they're intelligent, adaptive, and scalable. At **Love's**, I didn't just move reports to the cloud - I automated data pipelines so analysts spend time on insights, not data gathering. **Three pillars I've learned**: (1) **People** - change management and adoption, (2) **Process** - redesigning workflows for digital-first thinking, (3) **Technology** - AI, cloud, automation as enablers. **It's not about tech for tech's sake** - it's about business outcomes: faster decisions, better customer experience, operational efficiency, new revenue streams. The companies that win are those who use technology to **compete differently**, not just compete better. That's what excites me - helping organizations make that leap.".

Definition passion_origin : string :=
  "Great question! My passion for digital transformation sparked from **seeing inefficiency everywhere and knowing technology could fix it**. Early in my career at EVM (retail management), I saw teams drowning in manual processes - spreadsheets, paperwork, disconnected systems. I thought, " ++ dq ++ "There has to be a better way." ++ dq ++ " That's when I went back to school for my degrees. **The " ++ dq ++ "aha moment" ++ dq ++ "** came at Love's when my automation cut reporting time by 21% - I saw analysts' faces light up because they could finally do *analysis* instead of data wrangling. That's when I realized: **technology isn't about the tech, it's about giving people their time back to do meaningful work**. Then in my MIS courses, I learned about enterprise architecture, cloud, AI - and saw how these tools could transform entire organizations. Working with Pega now, I see digital transformation at scale. **Personal motivation**: My parents sacrificed everything to give me opportunities. I want to honor that by building solutions that genuinely help people and organizations thrive. That's what drives me every day.".

Definition career_vision : string :=
  "My **long-term vision** is to become a **Digital Transformation Architect** or **AI Strategy Consultant** - someone who helps organizations reimagine their business models using AI and cloud technologies. **5-year horizon**: I see myself in a consulting role (Big 4, boutique firm, or tech company) leading digital transformation engagements, designing AI/cloud architectures, and advising C-suite on technology strategy. **10-year horizon**: I want to bridge leadership and deep technical expertise - think **Principal Architect or Practice Lead** who can win client deals *and* architect solutions. **Ultimate goal**: Maybe entrepreneurship - building AI-powered SaaS products that solve real business problems at scale. **Why this path?** I love the variety, intellectual challenge, and business impact of consulting. I'm energized by new problems, different industries, and the " ++ dq ++ "blank canvas" ++ dq ++ " of transformation projects. **I don't want to be pigeonholed** as just a coder or just a manager - I want to be the person who can envision the solution, sell it, architect it, and lead the team. That requires continuous learning and staying at the intersection of business and technology.".

Definition most_impactful : string :=
  "The experience that shaped me most was honestly **my time at Love's Travel Stop**. Here's why: (1) **Real stakes** - My analytics directly impacted business decisions for a Fortune 150 company. When I cut reporting latency by 21%, that freed up analysts to find insights that saved real money. (2) **End-to-end ownership** - I went from understanding business requirements, to designing pipelines, to deploying dashboards, to presenting findings. That full-cycle experience taught me *how work actually gets done*. (3) **Cross-functional collaboration** - I worked with analysts, IT, business stakeholders - learned how to communicate technical concepts to non-technical people. (4) **Confidence boost** - Seeing my automation actually work and hearing " ++ dq ++ "this changed how we operate" ++ dq ++ " made me realize I can create real value. **Before Love's**, I had academic knowledge and small projects. **After Love's**, I had proof I could deliver in a professional environment under constraints. That internship validated my career pivot from retail to tech. It also taught me humility - enterprise systems are complex, stakeholder needs are nuanced, and " ++ dq ++ "good enough shipped" ++ dq ++ " beats " ++ dq ++ "perfect never launched." ++ dq ++ " Huge growth experience! .".

Definition objectstream_role : string :=
  "At **Objectstream as a Business Architect Intern with Pega**, my role is fascinating! **What I do**: I contribute to digital transformation initiatives by designing and supporting cloud-integrated business architecture solutions for enterprise clients. **Specifically**: (1) **Process Analysis** - I map current-state workflows, identify bottlenecks and inefficiencies, then design future-state automated processes using Pega. (2) **Architecture Design** - I create solution architectures that align with consulting best practices - scalability, security, integration patterns. (3) **Agile Collaboration** - I work in sprints with developers, business analysts, and project managers to deliver solutions iteratively. (4) **Client Engagement** - I participate in requirement gathering, design reviews, and demos. **Skills I use**: Critical thinking, communication, problem-solving, Pega platform knowledge, cloud integration concepts. **What I've learned**: Enterprise architecture is about trade-offs - speed vs. scalability, customization vs. standardization, cost vs. capability. Working in consulting teaches you to think like a business owner, not just a technologist. **Coolest part**: Seeing a manual 20-step approval process become a 2-click intelligent workflow. That's transformation! .".

Definition beats_insights : string :=
  "The **Beats by Dre externship** was incredible! As a **Qualitative & Quantitative Insights Extern**, I explored how leading brands leverage consumer insights to guide strategy and innovation. **What I did**: (1) **Sentiment Analysis** - Used Python and AI tools (NLP libraries, sentiment models) to analyze consumer feedback from reviews, social media, and surveys. Uncovered patterns in what drives brand loyalty and emotional connection. (2) **Trend Identification** - Synthesized qualitative themes (why people love/hate features) with quantitative data (ratings, purchase behavior) to identify actionable insights. (3) **Storytelling** - Presented findings in compelling narratives that connected consumer emotions to business recommendations. **Key insight I discovered**: For Beats, it's not just about sound quality (table stakes) - it's about **identity and self-expression**. People buy Beats because they want to feel connected to music culture and make a statement. That emotional driver shapes everything from product design to marketing. **Skills gained**: Consumer psychology, data analytics, business strategy, presentation skills. **AI tools I used**: Python (pandas, nltk, transformers), sentiment analysis models, visualization libraries. This externship taught me how data becomes decisions in world-class brands. Fascinating work! .".

Definition loves_analytics : string :=
  "Love's was such a defining experience! Let me break down that **21% reporting latency reduction** project: **The Problem**: Analytics team spent 60-70% of their time pulling data from multiple sources, cleaning it, and formatting reports. By the time reports reached decision-makers, data was often outdated. **My Solution**: I built **automated cloud-based reporting pipelines** using Python and SQL: (1) **Data Extraction** - Wrote Python scripts to pull data from various databases and APIs automatically on a schedule, (2) **Transformation** - Cleaned, validated, and aggregated data using pandas and SQL queries, (3) **Cloud Integration** - Deployed pipelines to cloud infrastructure for scalability and reliability, (4) **Dashboard Automation** - Connected processed data directly to Power BI and Tableau dashboards with real-time refresh. **The Impact**: Reporting time dropped from ~8 hours to ~6.5 hours (21% reduction). Analysts could focus on *analysis* instead of *data wrangling*. Stakeholders got fresher insights. **Biggest challenge**: Data quality and schema differences across systems - had to build robust error handling and validation. **What I learned**: Real-world data is messy, stakeholder communication is critical, and measuring business impact (not just technical success) is what matters. Proud of this one! .".

Definition teaching_role : string :=
  "Being a **Graduate Assistant for Business Analysis & Database Admin** was incredibly rewarding! **My responsibilities**: (1) **Teaching Support** - Helped teach SQL, statistics, and dashboard development using PostgreSQL, Tableau, and Power BI. Held office hours, graded assignments, clarified concepts. (2) **Lab Design** - Created datasets and exercises simulating real-world business problems - supply chain analytics, financial reporting, customer segmentation. Made learning practical, not just theory. (3) **Database Management** - Maintained and optimized academic SQL Server databases for performance and reporting accuracy. Wrote complex queries, tuned indexes, ensured data integrity. **What students struggled with most**: (1) SQL joins - understanding inner vs outer vs cross joins, (2) Translating business questions into SQL queries, (3) Dashboard design principles - what makes a visualization effective vs cluttered. **How teaching helped me**: Explaining concepts forced me to understand them deeply. If you can't teach it simply, you don't truly understand it. Also strengthened my communication, patience, and leadership skills. **Most rewarding moment**: When a student who struggled initially sent me an email saying they got an analytics internship and thanked me for making SQL click. That feeling! .".

Definition retail_experience : string :=
  "**Managing retail at EVM LLC** (2018-2022) was my first real leadership experience, and it shaped me more than you'd think! **Responsibilities**: (1) Day-to-day operations - supervising sales associates, opening/closing, inventory management, (2) Financial oversight - budgeting, revenue forecasting, P&L analysis, cost control, (3) Store modernization - integrated digital tools for inventory tracking, sales analytics, and process automation, (4) Team development - hired, trained, and mentored staff on customer service excellence and technology adoption. **Key lessons**: (1) **People management is hard** - balancing empathy with accountability, handling conflicts, motivating diverse personalities, (2) **Data-driven decisions** - even in retail, we used sales data to optimize inventory, staffing, and promotions, (3) **Technology adoption** - led digital transformation on a small scale - point-of-sale systems, inventory software, analytics dashboards. **How it prepared me for IT**: Running a store teaches you to **think like a business owner** - ROI, efficiency, customer experience, operational excellence. When I transitioned to tech, I already understood business context. I don't just build solutions - I build solutions that drive business value. That retail foundation makes me a better consultant! .".

Definition avatar_inspiration : string :=
  "This **Avatar Chat Portfolio** project came from a simple frustration: **traditional resumes and portfolios are boring and passive**! I wanted to create something memorable, interactive, and showcase my technical skills simultaneously. **The inspiration**: I saw AI chatbots everywhere, but they were generic. I thought, " ++ dq ++ "What if visitors could have a conversation with *me* (or a digital version of me) that knows my entire background?" ++ dq ++ " Combine that with **3D avatars** (cool factor), **RAG technology** (contextual answers), and **modern web development** (React, Three.js), and you get this experience. **Goals**: (1) Stand out from other candidates - hiring managers see hundreds of resumes, (2) Demonstrate full-stack skills - AI integration, 3D graphics, responsive design, (3) Make networking more engaging - instead of reading a static resume, people can ask questions naturally. **Tech highlights**: Google Gemini 1.5 Flash for conversational AI, RAG for context, ReadyPlayer.me for the avatar, Three.js for 3D rendering, React 18 + TypeScript + Vite for performance. **Reception**: People love it! It's sparked amazing conversations in networking events. Best portfolio decision ever! .".

Definition chibitomo_purpose : string :=
  "**ChibiTomo solves a problem I personally experienced**: productivity tools are either too simple (basic timers) or too complex (project management overkill). I wanted something in between - a **Pomodoro companion that feels like a friend, not just a tool**. **Specific problems it solves**: (1) **Focus** - Uses Pomodoro technique (25 min work, 5 min break) to maintain concentration without burnout, (2) **Motivation** - AI-powered encouragement and contextual suggestions during breaks, (3) **Automation** - Integrates with system to auto-block distractions during focus sessions, (4) **Tracking** - Logs productivity patterns to help identify peak performance times. **Why desktop app?** I wanted something always accessible without browser tabs or internet dependency. **Tech stack**: Python (core logic), PySide6 (modern Qt UI), PyInstaller (standalone distribution), local AI models (contextual responses). **Feedback I've received**: Users love the personality - it's not robotic, it feels encouraging. Some want mobile versions (future feature!). **Business value**: Companies could use it for team productivity, remote work monitoring, or wellness programs. **What I learned**: UX design is hard - balancing features with simplicity, making AI feel natural not intrusive, desktop distribution challenges. Super proud of this project! .".

Definition aesculapius_privacy : string :=
  "**Privacy was the core philosophy** behind Aesculapius AI. Here's why: I noticed that **every AI assistant requires internet, sends your data to cloud servers, and you have no idea what happens with it**. For household repairs or personal troubleshooting, people often describe problems that reveal information about their home, location, routines - sensitive stuff! **My solution**: Build an **entirely local LLM application** - all inference happens on your machine, no data ever leaves your device, no internet required after initial model download. **How it works**: (1) **Local LLM** - Uses Phi-3.5-mini (Microsoft's small but powerful model) running via llama-cpp, (2) **RAG Architecture** - Maintains a local vector database of repair manuals, troubleshooting guides, and parts catalogs, (3) **Contextual Memory** - Remembers your previous questions within a session (still local), (4) **API Integration** - Optionally queries parts databases or service providers (user controlled). **Benefits**: (1) Complete privacy and data ownership, (2) Works offline, (3) Faster inference (no network latency), (4) Free (no API costs). **Trade-offs**: Requires decent hardware, slightly less capable than GPT-4, more setup than cloud solutions. **Philosophy**: Privacy shouldn't be a premium feature - it should be the default. Users should own their data and their AI interactions. This project proves local AI is viable for real use cases! .".

Definition linkedin_motivation : string :=
  "The **LinkedIn Sentiment Assistant** came from pure frustration: **manually engaging on LinkedIn is tedious, time-consuming, and you miss opportunities**! As someone building a professional brand, I wanted to engage authentically with my network, but reading every post, deciding what to comment, and crafting thoughtful responses took hours. **The idea**: What if AI could *assist* (not replace) me by: (1) **Analyzing sentiment** - Identify posts that align with my interests or need support, (2) **Smart automation** - Surface posts worth engaging with, suggest relevant comments, (3) **Toxicity filtering** - Avoid controversial or inappropriate content. **How it works**: Chrome extension that adds a layer to LinkedIn - analyzes posts in real-time using sentiment analysis models, provides engagement suggestions, has adaptive selectors that work even as LinkedIn updates their UI. **Value proposition**: Save time, engage more meaningfully, build network strategically. **Ethical considerations**: I'm very careful - it's an *assistant*, not a bot. Users review suggestions before posting. It enhances human interaction, doesn't fake it. **Technical challenges**: Chrome API limitations, LinkedIn's DOM complexity, real-time sentiment inference without slowing browsing, privacy (all analysis happens locally). **Reception**: Fellow students and professionals find it super useful for efficient networking! Future version could expand to Twitter, Reddit, etc.".

Definition cloud_preference : string :=
  "Great technical question! I actually **prefer AWS, but I'm platform-agnostic** - each cloud has strengths. **Why AWS**: (1) **Maturity & breadth** - Most comprehensive service catalog, battle-tested at scale, (2) **Community & resources** - Best documentation, largest community, easier to find solutions, (3) **Career value** - Most in-demand certification and skill, (4) **Analytics/AI services** - SageMaker, Lambda, Redshift, Athena - powerful for my use cases. **But**: **Azure wins for enterprise integration** (seamless with Microsoft ecosystem), **GCP wins for ML/AI** (TensorFlow, BigQuery, Vertex AI) and pricing. **My approach**: Choose based on use case - AWS for general workloads, Azure for enterprise clients using Microsoft stacks, GCP for data science projects. **In practice at Love's**: We used multi-cloud (AWS for pipelines, Azure for BI integration). At Objectstream, we design cloud-agnostic architectures. **Certifications I'm pursuing**: AWS Cloud Practitioner → Solutions Architect, then Azure Fundamentals and GCP Digital Leader. **Philosophy**: Don't be dogmatic about cloud platforms - understand all three, master the concepts (IaaS, PaaS, serverless, containers), then adapt to client needs.".

Definition sql_proficiency : string :=
  "SQL is one of my strongest skills! Let me break down my proficiency: **Joins**: Master all types - INNER (matching records), LEFT/RIGHT (preserve one side), FULL OUTER (preserve both), CROSS (cartesian product). I understand join performance implications (indexed columns, join order optimization) and when to use subqueries vs joins. **Window Functions**: Use extensively - ROW_NUMBER, RANK, DENSE_RANK for ranking, LAG/LEAD for time-series analysis, PARTITION BY for group calculations without GROUP BY, running totals with SUM() OVER(). These are game-changers for analytics! **CTEs (Common Table Expressions)**: Love them for readability and complex queries. Use WITH clauses to break logic into steps, recursive CTEs for hierarchical data. **Advanced concepts I use**: (1) Query optimization - EXPLAIN plans, index strategies, (2) Aggregate functions with HAVING, (3) CASE statements for conditional logic, (4) Temp tables vs CTEs vs subqueries - knowing when to use each, (5) Transaction management and data integrity. **Real-world application**: At Love's, wrote complex queries joining 5+ tables, using window functions for trend analysis, CTEs for multi-step transformations. As Graduate Assistant, taught these concepts - can explain simply! **Philosophy**: SQL is where business logic meets data - write queries that are correct, performant, AND readable.".

Definition debugging_approach : string :=
  "My **debugging process for Python** is systematic: (1) **Reproduce consistently** - Understand exact steps to trigger the error, (2) **Read the error message carefully** - Stack trace tells you *where* and often *why*, (3) **Print debugging** - Strategic print statements to verify variable values and execution flow, (4) **Binary search** - Comment out half the code, narrow down problem area, (5) **Rubber duck method** - Explain the code out loud, often spotting the issue. **Tools I use**: (1) **Python debugger (pdb)** - Set breakpoints, step through code, inspect variables, (2) **Logging module** - Better than print for production code, (3) **Type hints + mypy** - Catch type errors before runtime, (4) **Unit tests** - Isolate and test individual functions, (5) **VS Code debugger** - Visual breakpoints and watch variables. **Common pitfalls I check**: (1) Variable scope issues, (2) Mutable default arguments, (3) Reference vs copy problems, (4) Off-by-one errors in loops, (5) None checks and exception handling. **Advanced techniques**: Memory profilers for performance, logging levels for different environments, assertion statements for sanity checks. **Philosophy**: Good debugging is about hypothesis testing - form a theory about what's wrong, test it, repeat. 80% of bugs are simple logic errors if you slow down and read carefully! .".

Definition ai_library_preference : string :=
  "Tough choice, but here's my take: **For production systems: LangChain** - It's built for orchestration, chain-of-thought, and integration. Great for RAG architectures (like this Avatar Chat!), agent workflows, and connecting LLMs to external tools. Better abstractions for complex AI systems. **For research and fine-tuning: Hugging Face** - Unmatched model hub, best for custom models, fine-tuning pre-trained models, and staying on cutting edge. Transformers library is incredible. Better for going deep on specific models. **My typical usage**: (1) Prototyping - Hugging Face to test different models quickly, (2) Production - LangChain for orchestration + Hugging Face models as the engine, (3) RAG systems - LangChain (retrieval chains) + Hugging Face embeddings. **Example**: In Aesculapius AI, I use llama-cpp for inference (lightweight), but design follows LangChain patterns. In Avatar Chat, LangChain orchestrates the RAG pipeline with Gemini. **Other tools I use**: OpenAI API (for quick prototypes), LlamaIndex (alternative to LangChain, lighter weight), TensorFlow (when building custom models). **Philosophy**: Don't be dogmatic - use the right tool for the job. LangChain for systems, Hugging Face for models, both together for maximum power.".

Definition leadership_club : string :=
  "Being **Events Chair for Cousins Presidential Club** was a fantastic leadership experience! **My role**: Plan and execute social, professional, and service events for 100+ members. **Specific responsibilities**: (1) Event ideation - networking mixers, tech workshops, community service projects, (2) Logistics - venues, catering, speakers, registration, budgets, (3) Marketing - promotion, sign-ups, attendance tracking, (4) Collaboration - worked with other officers, faculty advisors, external partners. **Key events I led**: (1) **Tech Career Panel** - Brought in alumni from Google, Microsoft, and startups to discuss career paths (100+ attendees), (2) **Hackathon Workshop** - Taught React and API integration to members, (3) **Community Service** - Organized food drive and volunteering at local tech non-profit. **Leadership lessons**: (1) **Delegation is key** - Can't do everything yourself, empower team members, (2) **Flexibility matters** - Plans change, venues cancel, speakers drop out - stay calm and adapt, (3) **Inclusive planning** - Consider diverse interests and schedules, make events accessible, (4) **Follow-through** - Ideas are easy, execution is hard - details matter. **Skills gained**: Public speaking, project management, budgeting, stakeholder communication, event logistics. **Impact**: Membership engagement increased 40% during my term! Proud of building community.".

Definition time_management : string :=
  "**Balancing academics, internships, projects, and extracurriculars** required serious discipline! Here's my system: (1) **Prioritization Matrix** - Urgent vs Important. Focus on Important-Not-Urgent (learning, projects, networking) before they become urgent. (2) **Time Blocking** - Dedicated blocks for classes, work, projects, gym, sleep. Treat commitments like appointments. (3) **80/20 Rule** - Focus on high-impact activities. Not everything needs perfection - some tasks need " ++ dq ++ "good enough." ++ dq ++ " (4) **Say No Strategically** - Can't do everything. Decline opportunities that don't align with goals. (5) **Batch Similar Tasks** - All coding in one block, all meetings in another - reduces context switching. (6) **Use Dead Time** - Listen to podcasts during commutes, review flashcards between classes. **Tools I use**: Google Calendar (everything goes in), Notion (task management), ChibiTomo (focus sessions!), timers for deep work. **Real example**: During my Master's + Love's internship + Graduate Assistant + Objectstream - I had classes 3 days/week, internships on specific days, GA work 10hrs/week, projects on weekends. Strict schedule but flexible within blocks. **Key insight**: Energy management > time management. I protect sleep, exercise, and mental health because they multiply productivity. **Philosophy**: You have time for what you prioritize. If it matters, you'll make time.".

Definition team_motivation : string :=
  "**Motivating teams is about understanding individual drivers and creating shared purpose**. Here's my approach: (1) **Know your people** - Some are motivated by recognition, others by growth, others by autonomy. Ask what matters to them. (2) **Clear vision** - People want to know *why* their work matters, not just *what* to do. Connect tasks to bigger impact. (3) **Celebrate wins** - Acknowledge progress publicly, give credit generously. Small wins build momentum. (4) **Remove blockers** - Nothing demotivates like bureaucracy or obstacles. Clear the path so team can focus on value work. (5) **Lead by example** - Work hard, stay positive, admit mistakes, ask for help. Vulnerability builds trust. **Real examples**: (1) **At EVM** - I implemented " ++ dq ++ "Employee of the Month" ++ dq ++ " based on peer nominations, gave team ownership of merchandising decisions, celebrated sales milestones with team lunches. Turnover dropped significantly. (2) **In student clubs** - Recognized volunteers publicly, showed how events impacted members, made planning inclusive and fun. (3) **As Graduate Assistant** - Celebrated student breakthroughs, shared success stories, made office hours welcoming and judgment-free. **Under pressure**: Stay calm, communicate transparently, break big goals into small wins, provide support and resources. Pressure is when leadership matters most. **Philosophy**: Motivation is internal, but leaders create the environment where it thrives.".

Definition work_culture : string :=
  "Culture that motivates me has **four pillars**: (1) **Learning & Growth** - I want to work where I'm constantly challenged, where senior people mentor me, where I can make mistakes and learn. Stagnation kills my motivation. (2) **Impact & Ownership** - I need to see how my work drives business value. I thrive when given autonomy and accountability - tell me the goal, trust me to figure out how. (3) **Collaboration & Respect** - I love cross-functional teams where diverse perspectives are valued. No ego, no politics - just smart people solving hard problems together. (4) **Innovation & Experimentation** - I want to work where new ideas are encouraged, where " ++ dq ++ "let's try it" ++ dq ++ " beats " ++ dq ++ "we've always done it this way." ++ dq ++ " **Red flags for me**: (1) Micromanagement, (2) Blame culture, (3) No work-life balance, (4) Slow bureaucracy with no urgency. **Companies I admire**: Amazon (bias for action), Google (innovation time), Accenture/Deloitte (diverse projects), startups (fast-paced ownership). **Why**: They combine high standards with growth opportunities. **In practice**: I loved Love's culture (supportive, growth-focused), Objectstream's consulting environment (client-driven, fast-paced), OU's collaborative academic environment. **Philosophy**: Culture eats strategy for breakfast. I'd rather work for a great team with a mediocre product than a bad team with a great product.".

Definition handling_failure : string :=
  "I handle failure and criticism through **four steps**: (1) **Pause & Process** - When I receive criticism, I take a breath. Initial reaction is often defensive - I let that pass before responding. (2) **Seek to Understand** - I ask clarifying questions: " ++ dq ++ "Can you give me a specific example?" ++ dq ++ " " ++ dq ++ "What would success look like?" ++ dq ++ " Criticism is vague, feedback is specific. (3) **Find the Truth** - Even harsh criticism usually has a kernel of truth. I separate the message from the delivery and identify what I can learn. (4) **Action Plan** - I decide what I will change. **Real examples**: (1) **At Love's internship**, my dashboard was criticized as " ++ dq ++ "too cluttered." ++ dq ++ " Initial reaction: defensive (" ++ dq ++ "I worked hard on this!" ++ dq ++ "). After processing: They were right - I prioritized showcasing skills over user experience. **Lesson**: Good design serves users, not ego. I redesigned for clarity, stakeholders loved it. (2) **As Graduate Assistant**, student complained my explanations were " ++ dq ++ "too fast." ++ dq ++ " Gut reaction: frustration. Reflection: I'm comfortable with SQL, they're learning. **Lesson**: Teaching requires meeting people where they are. I slowed down, used more examples, got better reviews. **Philosophy**: Criticism is a gift if you unwrap it right. Failure is data - what did I learn, what will I do differently? Ego is the enemy of growth. I'd rather be humble and improving than proud and stagnant.".

Definition why_hire : string :=
  "You should hire me because I bring a **rare combination of technical depth, business acumen, and execution ability** that delivers immediate value: **1. Technical Skills**: I'm not just theoretical - I've built production systems. From AI-powered applications (Avatar Chat, ChibiTomo, Aesculapius AI) to enterprise analytics pipelines (Love's 21% efficiency gain) to automation workflows (Pega at Objectstream). I code in Python, SQL, JavaScript; work across AWS, Azure, GCP; implement LLMs, RAG, and ML models; build dashboards in Tableau and Power BI. **2. Business Value**: I don't just build tech - I drive outcomes. Reduced reporting time 21%, automated enterprise workflows, synthesized consumer insights at Beats. I understand ROI, stakeholder management, and translating technical solutions into business language. **3. Fast Learner**: Master's + Bachelor's simultaneously, while working 3 internships, building 4 major projects, and teaching as GA. I learn fast and apply immediately. **4. Cultural Fit**: I'm curious, collaborative, humble, and driven. I ask great questions, take feedback well, work across teams, and bring positive energy. **5. Passion**: This isn't just a job for me - I genuinely love solving problems with technology. I'll bring that enthusiasm every day. **Bottom line**: You're not just hiring someone who can do the job - you're hiring someone who will exceed expectations, grow fast, and make your team better. I'm ready to prove it.".

Definition learning_from_mistakes : string :=
  "One of my biggest early mistakes: **Over-engineering solutions instead of solving problems**. **The situation**: In an early project (before Love's), I was building an analytics dashboard. I got excited about the tech - " ++ dq ++ "Let's use microservices! Docker! Kubernetes! GraphQL!" ++ dq ++ " The result? Weeks of work on architecture, minimal business value delivered. **The wake-up call**: My mentor asked, " ++ dq ++ "Does this solve the user's problem faster than a simple Python script and Tableau?" ++ dq ++ " I realized: **I was building for my resume, not for the user**. **What I learned**: (1) **Start with the problem, not the solution** - Understand pain points deeply before designing, (2) **Simplest solution that works wins** - You can always add complexity later if needed, (3) **Iterate with users** - Get feedback early and often, don't disappear for weeks, (4) **Technology is a means, not the end** - Users don't care about your tech stack, they care about their problem being solved. **How it changed me**: At Love's, I could have built a complex data platform, but stakeholders just needed faster reports. I automated with simple Python scripts - took 2 weeks, delivered immediate value. At Objectstream, I focus on business outcomes first, architecture second. **Philosophy**: The best engineers balance technical excellence with pragmatism. Perfect is the enemy of done. Shipping beats architecture astronautics. That mistake made me a better consultant! .".

Definition tech_ethics : string :=
  "**Ethical technology use is critical, especially with AI**. My principles: (1) **Privacy by Design** - See Aesculapius AI - I built it entirely local because household data is sensitive. Users should control their data, period. Default should be privacy, not surveillance. (2) **Transparency & Explainability** - AI decisions that impact people (hiring, lending, healthcare) must be explainable. Black boxes are dangerous. I always document model logic and limitations. (3) **Bias Awareness** - AI models inherit biases from training data. I actively test for bias (gender, race, age), use diverse datasets, and question assumptions. At Beats, analyzing sentiment meant understanding cultural context. (4) **Human-in-the-Loop** - AI should augment humans, not replace judgment. My LinkedIn Assistant suggests, humans decide. Critical decisions need human oversight. (5) **Informed Consent** - Users should know when they're interacting with AI, how their data is used, and be able to opt out. No deceptive practices. **Real example**: In ChibiTomo, I could have collected user productivity data (valuable!), but didn't - privacy matters more than data monetization. **Philosophy**: Just because we *can* build something doesn't mean we *should*. As technologists, we have responsibility to consider societal impact. I want to build AI that empowers people, respects autonomy, and makes society better - not just profitable.".

Definition hobbies : string :=
  "Great question! Outside of work and tech, I'm pretty well-rounded. I **love cats** 🐱 - in fact, I once 3D-printed a medical device to help my cat's injured tail (combining my love for animals with problem-solving!). I'm into **fitness** - staying active keeps my mind sharp for coding marathons. I'm a **foodie** - especially love Mexican and Thai cuisine. I also enjoy **cars** - there's something about the engineering and design that fascinates me. I volunteer when I can and stay involved in community activities. **Learning** is honestly a hobby too - whether it's exploring new AI frameworks, reading about business strategy, or just understanding how things work. I'm also big on **family time** - my parents sacrificed everything to give me opportunities, so I cherish time with them. Balance is important to me - tech is my passion, but life is about more than code.".

Definition contact : string :=
  "I'd love to connect! Here's how to reach me:" ++ nl ++ nl ++ "📧 **Email:** marzook.mansoor@outlook.com" ++ nl ++ "📱 **Phone:** (405) 588-9434" ++ nl ++ "💼 **LinkedIn:** linkedin.com/in/marzook-mansoor" ++ nl ++ "💻 **GitHub:** github.com/zzthecoder" ++ nl ++ nl ++ "Feel free to reach out about opportunities, collaborations, technical discussions, or just to say hi! I'm always open to chatting about AI, digital transformation, cloud architecture, or any interesting tech challenges.".

Definition projectResponse : string :=
  "I've built some exciting projects! **Avatar Chat Portfolio** (you're in it!) - an interactive 3D portfolio with an AI avatar using RAG and Gemini 1.5 Flash. **ChibiTomo** - AI-powered desktop Pomodoro companion with Python and PySide6. **Aesculapius AI** - privacy-first household repair assistant using local LLMs with RAG (no internet needed!). **LinkedIn Sentiment Assistant** - Chrome extension with AI sentiment analysis for smarter LinkedIn engagement. Plus capstone projects at OU involving ML models, UiPath bots, and cloud dashboards. Each one taught me something about building solutions people actually want to use.".

Definition followUpProjects : string :=
  "Absolutely! So beyond the projects I mentioned, I also worked on capstone projects at OU - ML models for delivery prediction and SLA compliance, UiPath automation bots, and cloud-based dashboards integrated with SharePoint and Power Apps. Each project taught me something about the full development lifecycle - from ideation to deployment. I especially enjoyed the challenge of making complex tech actually usable for real people.".

Definition projectsDetailed : string :=
  "Let me dive deeper into my projects! **Avatar Chat Portfolio** (what you're using now!) is my flagship - an interactive 3D experience using React, TypeScript, Three.js, Google Gemini 1.5 Flash, and RAG. You're chatting with an AI-powered avatar trained on my resume data. **ChibiTomo** is an AI-powered desktop Pomodoro companion built with Python and PySide6 - it combines productivity tracking with AI and automation, packaged as a standalone Windows app with PyInstaller. **Aesculapius AI** is privacy-first household repair assistant using Phi-3.5-mini (local LLM) with RAG architecture for personalized troubleshooting - no data leaves your machine. My **LinkedIn Sentiment Assistant** is a Chrome extension with AI-based sentiment analysis and smart automation for LinkedIn engagement. Each solves a real problem I experienced.".

Definition projectsOverview : string :=
  "I've built some exciting projects! **Avatar Chat Portfolio** (you're in it!) - an interactive 3D portfolio with an AI avatar using RAG and Gemini 1.5 Flash. **ChibiTomo** - AI-powered desktop Pomodoro companion with Python and PySide6. **Aesculapius AI** - privacy-first household repair assistant using local LLMs with RAG (no internet needed!). **LinkedIn Sentiment Assistant** - Chrome extension with AI sentiment analysis for smarter LinkedIn engagement. Plus capstone projects at OU involving ML models, UiPath bots, and cloud dashboards. Each one taught me something about building solutions people actually want to use.".

Definition experienceLoves : string :=
  "Love's Travel Stop was amazing! As a Business Analyst Intern (May-Aug 2025), I developed predictive analytics and reporting pipelines that supported data-driven decisions across the organization. My proudest achievement was automating cloud-based workflows with Python and SQL that reduced reporting latency by 21% - that's real time saved for the analytics team. I also built interactive Power BI and Tableau dashboards that made complex data actually actionable for stakeholders. Working there taught me how to bridge technical innovation with business impact.".

Definition experiencePega : string :=
  "I'm currently a Business Architect Intern at Objectstream working with Pega (Sept-Dec 2025)! I'm contributing to digital transformation initiatives that automate and optimize enterprise workflows - think replacing manual 20-step processes with intelligent automation. I design cloud-integrated business architecture solutions using consulting best practices, and work in Agile teams to deliver scalable process improvements. Pega is fascinating because it's not just coding - it's understanding business logic and translating that into automated workflows. The consulting aspect taught me so much about communication and problem-solving.".

Definition experienceGeneral : string :=
  "I've had some incredible experiences! Right now I'm wrapping up my Master's in IT from OU while working as a **Business Architect Intern at Objectstream with Pega** (Sept-Dec 2025), focusing on digital transformation and enterprise workflow automation. Before that, I was a **Business Analyst Intern at Love's Travel Stop** (May-Aug 2025) where I built analytics pipelines that cut reporting time by 21%. I've also been a **Qualitative & Quantitative Insights Extern at Beats by Dre** (Sept-Dec 2025) doing consumer sentiment analysis with Python and AI, a **Graduate Assistant at OU** (May 2022-May 2025) teaching SQL and data viz, and an **Assistant Manager at EVM LLC** (2018-2022) managing retail operations before transitioning into tech. Each role taught me something about connecting technology with business value.".

Definition skillsAI : string :=
  "AI/ML is my sweet spot! I specialize in **LLMs, RAG systems, LangChain, Transformers, Hugging Face models, and TensorFlow**. I've built everything from local LLM applications (Aesculapius AI with Phi-3.5-mini) to cloud-based AI chatbots (like this avatar using Gemini 1.5 Flash). I'm passionate about RAG because it grounds AI responses in real data - no hallucinations. I also work with scikit-learn for traditional ML and understand the full pipeline from data prep to model deployment. The coolest part is seeing AI solve actual problems, not just demos.".

Definition skillsCloud : string :=
  "Cloud is where I thrive! I work across **AWS (pursuing Cloud Practitioner certification), Azure, and GCP**. I've architected cloud-integrated solutions, automated workflows in cloud environments, and built pipelines that process data at scale. At Love's, I automated cloud-based analytics workflows with Python that saved 21% reporting time. I understand cloud architecture patterns, cost optimization, and how to choose the right services for each use case. Planning to add Microsoft Fundamentals (MS-900) and Google Cloud Digital Leader certs next.".

Definition skillsGeneral : string :=
  "I'm pretty versatile! **Core strengths:** Python, SQL, AI/ML (LLMs, RAG, LangChain, Transformers), cloud platforms (AWS, Azure, GCP), and full-stack development (React, TypeScript, PySide6). **Business tools:** Pega Systems, UiPath, Tableau, Power BI, Snowflake, Alteryx. **Consulting competencies:** Digital transformation, cloud architecture, automation, analytics, Agile methodologies. What I love most is connecting these skills to solve actual business problems - whether that's cutting reporting time by 21%, automating enterprise workflows, or building AI assistants that actually help people.".

Definition educationAnswer : string :=
  "I just completed my **Master of Science in Management Information Technology** at the University of Oklahoma (Aug 2023-May 2025), and I also have my **Bachelor of Business Administration in Management Information Systems** from OU (Aug 2021-May 2025). The Master's program was intense but amazing - courses in Data Science & Analytics, Business Process Automation & AI, Cloud Computing, Analytics Programming with Python, Databases & BI. I also worked as a Graduate Assistant teaching SQL, statistics, and dashboard development, which really deepened my understanding. But honestly, some of my best learning came from building projects outside class and working internships. The combination of academic foundation + real-world experience is what makes me effective. Boomer Sooner! 🎉 .".

Definition aiAnswer : string :=
  "AI is my absolute passion! I'm particularly excited about **LLMs and RAG (Retrieval-Augmented Generation)** - which is exactly what powers this conversation right now. I've built projects like **Aesculapius AI** using Phi-3.5-mini (local LLM with RAG) for privacy-first household assistance, and this **Avatar Chat Portfolio** integrating Gemini 1.5 Flash with RAG so the avatar knows my resume inside-out. I work with **LangChain for orchestration, Hugging Face for models, Transformers for fine-tuning, TensorFlow for training**. What fascinates me most is making AI actually useful - not just impressive demos but solutions that solve real problems. Like using sentiment analysis at Beats by Dre to understand consumer feedback at scale. The future is context-aware AI that understands your needs.".

Definition aiNewsAnswer : string :=
  "That's a great question about current AI trends! Since I'm Marzook's portfolio chatbot focused on his background and experience, I can't give you real-time news updates. But I can tell you what **I'm** excited about and working on: **RAG systems** (like this conversation!), **local LLMs for privacy**, **AI-powered productivity tools**, and **practical business applications** of AI. I'm passionate about making AI actually useful, not just hyped.".

Definition achievementsAnswer : string :=
  "I'm proud of a few things! 🎯 **Academically:** Completed my Master's while working full-time, earned the Love's Scholar award, received the OU MIS Department Scholarship (top 1/3), and made President's/Dean's Honor Roll 8 times. **Professionally:** Cut reporting latency by 21% at Love's through automation - that's real time saved. Built projects people actually use like ChibiTomo and Aesculapius AI. **Leadership:** Served as Events Chair for Cousins Presidential Club and UI/UX Club, managed the Edmond Soccer Club. But honestly, I'm most proud of my curiosity and drive - always wanting to learn more, push into new areas, and build things that matter. The journey is just getting started! .".

Definition personalAnswer : string :=
  "Thanks for asking! I was born in India and moved to Oklahoma when I was 8 - that experience really shaped how I see adaptability and the value of family sacrifice. My parents gave up everything to give me opportunities, and I want to honor that by making an impact. I'm passionate about AI because I genuinely believe it can solve real problems - not just hype, but practical tools that help people. Outside tech, I love cats 🐱, cars, Mexican and Thai food, fitness, and volunteering. I even 3D-printed a medical device to help my cat's injured tail! I'm also big into continuous learning - whether it's new frameworks, business strategies, or just understanding how things work. Family-oriented, curious, and always building something.".

Definition consultingAnswer : string :=
  "Great question! My consulting experience comes from my work at **Objectstream with Pega** where I'm learning business architecture and digital transformation methodologies. I apply critical thinking, stakeholder communication, and problem-solving to design scalable process improvements. I collaborate in Agile teams, understand how to translate business requirements into technical solutions, and align technology with enterprise goals. My **Beats by Dre externship** also taught me about business strategy - how leading brands use consumer insights to guide decisions. I combine technical depth (Python, AI, cloud) with business acumen (process optimization, analytics, strategy) - that's what makes me effective. I don't just build tech; I build solutions that drive business value.".

Definition whyAnswer : string :=
  "Great philosophical question! Why do I do this? **Honestly:** I'm driven by the idea that technology should make life genuinely better, not just more complicated. I saw my parents sacrifice everything to give me opportunities, so I want to build things that create value and help people. **Technically:** I'm fascinated by the intersection of AI and real-world problems - that sweet spot where smart algorithms meet actual human needs. Every project I build solves a problem I've experienced or seen others struggle with. **Practically:** I love the moment when someone uses something I built and says " ++ dq ++ "this actually helps!" ++ dq ++ " That's the validation. It's not about fancy tech for tech's sake - it's about impact.".

Definition fallbackMenu : string :=
  "I can tell you about my **work experience** (Love's, Objectstream/Pega, Beats), **AI projects** (Avatar Chat, ChibiTomo, Aesculapius AI), **technical skills** (Python, SQL, AI/ML, cloud), **education** (Master's & Bachelor's from OU), or **anything else**.".

Definition greeting0 (ctx : ConversationContext) : string :=
  "Hey there! I'm Marzook - great to meet you! "
  ++ (if sentiment_eqb (sentiment ctx) casual then "I'm loving this 3D avatar experience I built!" else "I'm an AI engineer and Business Architect passionate about solving real problems with technology.").

Definition greeting1 (ctx : ConversationContext) : string :=
  "Hi! I'm Marzook Mansoor from Edmond, OK. "
  ++ (if depth_eqb (depth ctx) overview then "Quick intro:" else "Let me tell you a bit about myself:")
  ++ " I'm finishing up my Master's in IT while working on exciting AI and automation projects.".

Definition greeting2 (ctx : ConversationContext) : string :=
  "Hello! "
  ++ (if (0 <? JSSet.size (askedAbout ctx))%nat then "Good to continue our chat!" else "Good to see you.")
  ++ " I'm Marzook, and I'm passionate about how AI and technology can drive real business value. "
  ++ (if sentiment_eqb (sentiment ctx) professional then "I have experience in digital transformation, cloud architecture, and analytics." else "I build everything from 3D portfolio sites to intelligent desktop assistants.").

Definition greeting3 (ctx : ConversationContext) : string :=
  "Hey! Marzook here 👋 I blend AI, analytics, cloud architecture, and business strategy to create meaningful solutions. "
  ++ (if arrIncludes "ai" (topics ctx) then "Since you're interested in AI, I work extensively with LLMs and RAG systems!" else "Currently exploring opportunities in AI and digital transformation.").

Definition greeting4 (ctx : ConversationContext) : string :=
  "Hi there! I'm Marzook. "
  ++ (if JSSet.has "projects" (askedAbout ctx) then "You've already seen some of my projects - thanks for asking!" else "I love building AI-powered applications and automating complex business processes.")
  ++ " From analytics pipelines that cut reporting time by 21% to intelligent desktop assistants, I'm all about practical innovation.".

Definition contactAnswer (ctx : ConversationContext) : string :=
  "I'd love to connect! **Email:** marzook.mansoor@outlook.com | **Phone:** (405) 588-9434 | **LinkedIn:** linkedin.com/in/marzook-mansoor | **GitHub:** github.com/zzthecoder. "
  ++ (if sentiment_eqb (sentiment ctx) professional then "Feel free to reach out about opportunities, collaborations, or technical discussions." else "Whether it's a project idea, a question about tech, or just saying hi, I'm always open to chatting!")
  ++ " "
  ++ (if (1 <? JSSet.size (askedAbout ctx))%nat then "Thanks for the great questions so far!" else EmptyString)
  ++ " .".

Definition apology (ctx : ConversationContext) : string :=
  "I appreciate the question! "
  ++ (if (0 <? JSSet.size (askedAbout ctx))%nat then "We've had a great chat, but " else EmptyString)
  ++ "I'm having a brief technical moment. Could you try rephrasing or asking about my projects, experience, skills, or education? I promise I'll give you a thoughtful answer!".

(** The object literal [responses] of [getPatternResponse]. *)
Definition responses : JSMap.t string :=
  [ ("resume_overview", resume_overview);
    ("education_motivation", education_motivation);
    ("why_ou", why_ou);
    ("why_mis", why_mis);
    ("business_tech_integration", business_tech_integration);
    ("digital_transformation", digital_transformation);
    ("passion_origin", passion_origin);
    ("career_vision", career_vision);
    ("most_impactful", most_impactful);
    ("objectstream_role", objectstream_role);
    ("beats_insights", beats_insights);
    ("loves_analytics", loves_analytics);
    ("teaching_role", teaching_role);
    ("retail_experience", retail_experience);
    ("avatar_inspiration", avatar_inspiration);
    ("chibitomo_purpose", chibitomo_purpose);
    ("aesculapius_privacy", aesculapius_privacy);
    ("linkedin_motivation", linkedin_motivation);
    ("cloud_preference", cloud_preference);
    ("sql_proficiency", sql_proficiency);
    ("debugging_approach", debugging_approach);
    ("ai_library_preference", ai_library_preference);
    ("leadership_club", leadership_club);
    ("time_management", time_management);
    ("team_motivation", team_motivation);
    ("work_culture", work_culture);
    ("handling_failure", handling_failure);
    ("why_hire", why_hire);
    ("learning_from_mistakes", learning_from_mistakes);
    ("tech_ethics", tech_ethics);
    ("hobbies", hobbies);
    ("contact", contact) ].

End Text.

(* ------------------------------------------------------------------ *)
(** ** [calculateAdvancedSimilarity] and [extractRelevantInfo] *)

Set Warnings "-inexact-float".

Definition nl : string := Text.nl.

Fixpoint float_of_nat (n : nat) : float :=
  match n with
  | O => 0%float
  | S k => (float_of_nat k + 1)%float
  end.

(** [o || ''] for an optional string *)
Definition orEmpty (o : option string) : string :=
  match o with Some s => s | None => EmptyString end.

(** [o || d] *)
Definition orDefault (o : option string) (d : string) : string :=
  match o with Some s => if truthy s then s else d | None => d end.

Record Section_ := { content : string; score : float; type : string }.

(** [sections.sort((a, b) => b.score - a.score)] *)
Definition higherSection (y x : Section_) : bool := ltb (score x) (score y).

(** The characters that are syntax in the source of a regular expression. *)
Definition regexSyntax : string := "^$\.*+?()[]{}|/".

Definition isPlain (word : string) : bool :=
  negb (existsb (fun c => includes (String c EmptyString) word)
                (list_ascii_of_string regexSyntax)).

(** Computations that may throw while they update the context. *)
Definition M (A : Type) : Type :=
  ConversationContext -> option A * ConversationContext.

Definition ret (A : Type) (a : A) : M A := fun ctx => (Some a, ctx).

Definition bind (A B : Type) (m : M A) (f : A -> M B) : M B :=
  fun ctx =>
    match m ctx with
    | (Some a, ctx') => f a ctx'
    | (None, ctx') => (None, ctx')
    end.

Definition lift (A : Type) (o : option A) : M A := fun ctx => (o, ctx).

Definition asked (k : string) : M unit :=
  fun ctx => (Some tt, askedAbout_add k ctx).

Notation "x <- m ;; k" := (bind m (fun x => k))
  (at level 61, m at next level, right associativity).
Notation "m ;;; k" := (bind m (fun _ => k))
  (at level 61, right associativity).

Section Pipeline.

(** [textLower.match(new RegExp(source, 'gi'))] for a source built from a
    word of the question that contains syntax characters: the number of
    matches, or [None] when the host rejects the source (a SyntaxError).
    The host's compiler is a parameter of the development. *)
Variable hostMatchCount : string -> string -> option nat.

(** [textLower.match(new RegExp(`\\b${word}\\w*`, 'gi'))] *)
Definition wordPrefixCount (word textLower : string) : option nat :=
  if isPlain word
  then Some (matchCount (Seqs [WordB; Str word; Star WordChar]) textLower)
  else hostMatchCount ("\b" ++ word ++ "\w*") textLower.

(** The first [forEach]: a word found in the text weighs more the earlier
    it is in the query. *)
Fixpoint positionScore (total : nat) (boost : float) (textLower : string)
         (words : list string) (idx : nat) (score : float) : float :=
  match words with
  | [] => score
  | word :: rest =>
      positionScore total boost textLower rest (S idx)
        (if includes word textLower
         then (score + (1 + float_of_nat (total - idx) * 0.1) * boost)%float
         else score)
  end.

(** The second [forEach]: the matches of each word as a prefix. *)
Fixpoint prefixScore (boost : float) (textLower : string)
         (words : list string) (score : float) : option float :=
  match words with
  | [] => Some score
  | word :: rest =>
      match wordPrefixCount word textLower with
      | None => None
      | Some O => prefixScore boost textLower rest score
      | Some n =>
          prefixScore boost textLower rest
            (score + float_of_nat n * 0.5 * boost)%float
      end
  end.

Definition calculateAdvancedSimilarity (query text : string) (boost : float)
  : option float :=
  let queryLower := toLowerCase query in
  let textLower := toLowerCase text in
  let queryWords :=
    filter (fun w => (2 <? String.length w)%nat) (splitSpaces queryLower) in
  let score := 0%float in
  let score :=
    if includes queryLower textLower then (score + 3.0 * boost)%float else score in
  let score :=
    positionScore (length queryWords) boost textLower queryWords 0 score in
  match prefixScore boost textLower queryWords score with
  | None => None
  | Some score =>
      Some (score / float_of_nat (Nat.max (length queryWords) 1))%float
  end.

(** The loop over [resume.projects] *)
Fixpoint scoreProjects (query queryLower : string) (ps : list Project)
         (sections : list Section_) : option (list Section_) :=
  match ps with
  | [] => Some sections
  | project :: rest =>
      match calculateAdvancedSimilarity query
              (proj_name project ++ " " ++ proj_description project) 1.5 with
      | None => None
      | Some sc =>
          scoreProjects query queryLower rest
            (if ltb 0.3 sc || includes (toLowerCase (proj_name project)) queryLower
             then (List.app sections
                   [{| content := "PROJECT: " ++ proj_name project ++ nl
                                  ++ proj_description project ++ nl
                                  ++ orEmpty (proj_technologies project) ++ nl
                                  ++ orEmpty (proj_link project);
                       score := sc; type := "project" |}])
             else sections)
      end
  end.

Definition projectsStep (resume : ResumeData) (query queryLower : string)
           (intents : list string) (sections : list Section_) : M (list Section_) :=
  if arrIncludes "projects" intents || includes "project" queryLower
     || includes "built" queryLower
  then
    asked "projects" ;;;
    match projects resume with
    | None => ret sections
    | Some ps =>
        sections <- lift (scoreProjects query queryLower ps sections) ;;
        if (length sections =? 0)%nat && (0 <? length ps)%nat
        then ret (List.app sections
                 (List.map (fun project =>
                              {| content := "PROJECT: " ++ proj_name project ++ nl
                                            ++ proj_description project;
                                 score := 0.5; type := "project" |})
                           (firstn 3 ps)))
        else ret sections
    end
  else ret sections.

Definition skillCategories (resume : ResumeData) : list (string * list string) :=
  [ ("ai", filter (test_i (Alts (List.map Str
             ["ai"; "ml"; "llm"; "rag"; "transformer"; "langchain"; "hugging"])))
           (skills resume));
    ("languages", filter (test_i (Alts (List.map Str
             ["python"; "sql"; "javascript"; "r"; "php"])))
           (skills resume));
    ("cloud", filter (test_i (Alts (List.map Str ["aws"; "azure"; "gcp"; "cloud"])))
           (skills resume));
    ("data", filter (test_i (Alts (List.map Str
             ["tableau"; "power bi"; "snowflake"; "alteryx"; "data"])))
           (skills resume));
    ("frameworks", filter (test_i (Alts (List.map Str
             ["pyside"; "react"; "pega"; "uipath"; "pyinstaller"])))
           (skills resume)) ].

(** The loop that looks for the first category named in the query;
    [("all", "")] when there is none. *)
Fixpoint bestCategory (queryLower : string) (cats : list (string * list string))
  : string * string :=
  match cats with
  | [] => ("all", EmptyString)
  | (category, sk) :: rest =>
      if (0 <? length sk)%nat && includes category queryLower
      then (category, join ", " sk)
      else bestCategory queryLower rest
  end.

Definition categorySkills (category : string) (cats : list (string * list string))
  : list string :=
  match JSMap.get category cats with Some l => l | None => [] end.

Definition skillsStep (resume : ResumeData) (queryLower : string)
           (intents : list string) (sections : list Section_) : M (list Section_) :=
  if arrIncludes "skills" intents || includes "skill" queryLower
     || includes "expertise" queryLower
  then
    asked "skills" ;;;
    let cats := skillCategories resume in
    let best := bestCategory queryLower cats in
    if truthy (snd best)
    then ret (List.app sections
              [{| content := toUpperCase (fst best) ++ " SKILLS: " ++ snd best;
                  score := 2.0; type := "skills" |}])
    else ret (List.app sections
              [{| content :=
                    "KEY SKILLS:" ++ nl
                    ++ "- AI/ML: " ++ join ", " (firstn 5 (categorySkills "ai" cats)) ++ nl
                    ++ "- Languages: " ++ join ", " (categorySkills "languages" cats) ++ nl
                    ++ "- Cloud: " ++ join ", " (categorySkills "cloud" cats) ++ nl
                    ++ "- Data: " ++ join ", " (firstn 3 (categorySkills "data" cats));
                  score := 1.5; type := "skills" |}])
  else ret sections.

(** The loop over [resume.experience] *)
Fixpoint scoreExperience (query queryLower : string) (es : list Experience)
         (sections : list Section_) : option (list Section_) :=
  match es with
  | [] => Some sections
  | exp :: rest =>
      match calculateAdvancedSimilarity query
              (exp_title exp ++ " " ++ exp_company exp ++ " " ++ exp_description exp)
              1.3 with
      | None => None
      | Some sc =>
          let companyBoost :=
            if includes (toLowerCase (exp_company exp)) queryLower
            then 2.0%float else 0%float in
          scoreExperience query queryLower rest
            (if ltb 0.4 (sc + companyBoost)
             then (List.app sections
                   [{| content := "EXPERIENCE: " ++ exp_title exp ++ " at "
                                  ++ exp_company exp ++ nl
                                  ++ exp_description exp ++ nl
                                  ++ orEmpty (exp_location exp) ++ " | "
                                  ++ orEmpty (exp_duration exp);
                       score := (sc + companyBoost)%float;
                       type := "experience" |}])
             else sections)
      end
  end.

Definition experienceStep (resume : ResumeData) (query queryLower : string)
           (intents : list string) (sections : list Section_) : M (list Section_) :=
  if arrIncludes "experience" intents || includes "experience" queryLower
     || includes "work" queryLower || includes "job" queryLower
  then
    asked "experience" ;;;
    match experience resume with
    | None => ret sections
    | Some es =>
        sections <- lift (scoreExperience query queryLower es sections) ;;
        if (length (filter (fun s => String.eqb (type s) "experience") sections) =? 0)%nat
        then ret (List.app sections
                 (List.map (fun exp =>
                              {| content := "EXPERIENCE: " ++ exp_title exp ++ " at "
                                            ++ exp_company exp ++ nl
                                            ++ exp_description exp;
                                 score := 0.5; type := "experience" |})
                           (firstn 3 es)))
        else ret sections
    end
  else ret sections.

Definition educationStep (resume : ResumeData) (queryLower : string)
           (intents : list string) (sections : list Section_) : M (list Section_) :=
  if arrIncludes "education" intents || includes "education" queryLower
     || includes "degree" queryLower || includes "university" queryLower
     || includes "master" queryLower || includes "bachelor" queryLower
  then
    asked "education" ;;;
    match education resume with
    | None => ret sections
    | Some edus =>
        ret (List.app sections
             [{| content :=
                   "EDUCATION:" ++ nl
                   ++ join nl (List.map (fun edu =>
                                 "- " ++ edu_degree edu ++ " from " ++ edu_school edu
                                 ++ " " ++ orEmpty (edu_location edu)
                                 ++ " " ++ orEmpty (edu_duration edu)) edus);
                 score := 1.5; type := "education" |}])
    end
  else ret sections.

Definition certificationsStep (resume : ResumeData) (queryLower : string)
           (sections : list Section_) : M (list Section_) :=
  if includes "certification" queryLower || includes "certified" queryLower
     || includes "cert" queryLower
  then
    asked "certifications" ;;;
    match certifications resume with
    | None => ret sections
    | Some certs =>
        ret (List.app sections
             [{| content := "CERTIFICATIONS:" ++ nl
                            ++ join nl (List.map (fun cert => "- " ++ cert) certs);
                 score := 1.5; type := "certifications" |}])
    end
  else ret sections.

Definition leadershipStep (resume : ResumeData) (queryLower : string)
           (sections : list Section_) : M (list Section_) :=
  if includes "leadership" queryLower || includes "leader" queryLower
     || includes "honor" queryLower || includes "award" queryLower
  then
    asked "achievements" ;;;
    let sections :=
      match leadership resume with
      | None => sections
      | Some l => (List.app sections
                   [{| content := "LEADERSHIP: " ++ join " | " l;
                       score := 1.3; type := "leadership" |}])
      end in
    let sections :=
      match honors resume with
      | None => sections
      | Some h => (List.app sections
                   [{| content := "HONORS: " ++ join " | " h;
                       score := 1.3; type := "honors" |}])
      end in
    ret sections
  else ret sections.

(** The fallback: a general overview. *)
Definition generalOverview (resume : ResumeData) : string :=
  name resume ++ " - " ++ professional_summary resume ++ nl ++ nl
  ++ "Key Skills: "
  ++ (let top := join ", " (firstn 10 (skills resume)) in
      if truthy top then top else "Various").

(** The last lines: the five best sections, or the general overview. *)
Definition combineSections (resume : ResumeData) (sections : list Section_) : string :=
  let sections := stableSort higherSection sections in
  if (0 <? length sections)%nat
  then join (nl ++ nl) (List.map content (firstn 5 sections))
  else generalOverview resume.

Definition DEFAULT_EMAIL : string := "marzook.mansoor@outlook.com".

Definition introBlock (resume : ResumeData) : string :=
  "Name: " ++ name resume ++ nl
  ++ "Location: " ++ location resume ++ nl
  ++ "Contact: "
  ++ orDefault (match contact resume with Some c => email c | None => None end)
               DEFAULT_EMAIL
  ++ " | (405) 588-9434" ++ nl
  ++ "Bio: " ++ bio resume ++ nl
  ++ "Professional Summary: " ++ professional_summary resume ++ nl.

(** [/^(hi|hey|hello|howdy|who are you|tell me about yourself|about you)/] *)
Definition introRegex : regex :=
  Seq Bol (Alts (List.map Str
    ["hi"; "hey"; "hello"; "howdy"; "who are you"; "tell me about yourself"; "about you"])).

(** [extractRelevantInfo]: [None] when it throws; the context is the one
    left at that point. *)
Definition extractRelevantInfo (resume : ResumeData) (query : string) : M string :=
  fun ctx =>
    let queryLower := toLowerCase query in
    let intents := detectIntent query in
    let ctx := updateContext query intents ctx in
    if test introRegex queryLower
    then (Some (introBlock resume), askedAbout_add "intro" ctx)
    else
      (sections <- projectsStep resume query queryLower intents [] ;;
       sections <- skillsStep resume queryLower intents sections ;;
       sections <- experienceStep resume query queryLower intents sections ;;
       sections <- educationStep resume queryLower intents sections ;;
       sections <- certificationsStep resume queryLower sections ;;
       sections <- leadershipStep resume queryLower sections ;;
       ret (combineSections resume sections)) ctx.

(** [getPatternResponse]; its [resume] and [context] arguments are not
    used by the source. *)
Definition getPatternResponse (pattern : string) : string :=
  match JSMap.get pattern Text.responses with
  | Some r => if truthy r then r
              else "Great question! Let me think about that... " ++ pattern
  | None => "Great question! Let me think about that... " ++ pattern
  end.

(* ---------------------------------------------------------------- *)
(** ** [loadResumeData] and [generateRAGResponse] *)

(** The module's variables. *)
Record State := {
  responseCache : Cache;
  cachedResumeData : option ResumeData;
  conversationContext : ConversationContext
}.

Definition initialState : State :=
  {| responseCache := []; cachedResumeData := None;
     conversationContext := initialContext |}.

(** What a call reads from outside: the clock (one reading for the call:
    the look-up in the cache and the write into it see the same time),
    [Math.random()] (a float of [[0, 1)]), and the outcome of fetching
    [/data/me.json] when the call fetches ([None]: the fetch, its status
    check or the parse of its body fails). *)
Record Env := {
  now : Z;
  random : float;
  fetched : option ResumeData
}.

Definition withCache (c : Cache) (st : State) : State :=
  {| responseCache := c; cachedResumeData := cachedResumeData st;
     conversationContext := conversationContext st |}.

Definition withContext (ctx : ConversationContext) (st : State) : State :=
  {| responseCache := responseCache st; cachedResumeData := cachedResumeData st;
     conversationContext := ctx |}.

Definition withResume (r : option ResumeData) (st : State) : State :=
  {| responseCache := responseCache st; cachedResumeData := r;
     conversationContext := conversationContext st |}.

(** A promise settles with a value or is rejected. *)
Inductive Settled (A : Type) : Type :=
| Resolved : A -> Settled A
| Rejected : Settled A.
Arguments Resolved {A} _.
Arguments Rejected {A}.

Definition loadResumeData (env : Env) (st : State) : Settled ResumeData * State :=
  match cachedResumeData st with
  | Some r => (Resolved r, st)
  | None =>
      match fetched env with
      | Some r => (Resolved r, withResume (Some r) st)
      | None => (Rejected, st)
      end
  end.

(** The minimal profile used when the load fails. *)
Definition fallbackResume : ResumeData :=
  {| name := "Marzook Mansoor";
     location := "Edmond, OK";
     bio := "AI/ML Engineer and Business Analyst";
     tagline := "Building AI solutions";
     professional_summary := "Passionate about AI, automation, and digital transformation";
     skills := ["Python"; "SQL"; "AI/ML"; "React"; "TypeScript"];
     experience := Some [];
     projects := Some [];
     education := Some [];
     certifications := None;
     contact := None;
     leadership := None;
     honors := None |}.

(** [try { resume = await loadResumeData() } catch { resume = ... }] *)
Definition resumeOrFallback (env : Env) (st : State) : ResumeData * State :=
  match loadResumeData env st with
  | (Resolved r, st') => (r, st')
  | (Rejected, st') => (fallbackResume, st')
  end.

(** [/^(hi|hey|hello|howdy|yo|sup|what's up|good morning|good afternoon|good evening)[\s!?]*$/] *)
Definition greetingRegex : regex :=
  Seqs [Bol;
        Alts (List.map Str
          ["hi"; "hey"; "hello"; "howdy"; "yo"; "sup"; "what's up";
           "good morning"; "good afternoon"; "good evening"]);
        Star (Class (fun c => isSpace c || Ascii.eqb c "!" || Ascii.eqb c "?"));
        Eol].

(** [/tell me more|what else|anything else|continue|go on|elaborate/i] *)
Definition followUpRegex : regex :=
  Alts (List.map Str
    ["tell me more"; "what else"; "anything else"; "continue"; "go on"; "elaborate"]).

(** [/what'?s (new|latest|trending|happening)|news|recent|today|current/i] *)
Definition newsRegex : regex :=
  Alts [Seqs [Str "what"; Opt (Lit "'"); Str "s ";
              Alts (List.map Str ["new"; "latest"; "trending"; "happening"])];
        Str "news"; Str "recent"; Str "today"; Str "current"].

(** [/ai|technology|tech/i] *)
Definition techRegex : regex := Alts (List.map Str ["ai"; "technology"; "tech"]).

(** [/hire|should we|choose you|pick you/i] *)
Definition hiringRegex : regex :=
  Alts (List.map Str ["hire"; "should we"; "choose you"; "pick you"]).

(** [/\bou\b/] *)
Definition ouRegex : regex := Seqs [WordB; Str "ou"; WordB].

(** [greetings[Math.floor(Math.random() * greetings.length)]] *)
Definition pickGreeting (u : float) (ctx : ConversationContext) : string :=
  let x := (u * 5)%float in
  if ltb x 1 then Text.greeting0 ctx
  else if ltb x 2 then Text.greeting1 ctx
  else if ltb x 3 then Text.greeting2 ctx
  else if ltb x 4 then Text.greeting3 ctx
  else Text.greeting4 ctx.

Definition lastTopic (ctx : ConversationContext) : string :=
  last (topics ctx) EmptyString.

(** [Object.values(SEMANTIC_KEYWORDS).flat()] *)
Definition allKeywords : list string := flat_map snd SEMANTIC_KEYWORDS.

(** The smart fallback's text. *)
Definition smartFallback (questionLower : string) (intents : list string)
           (ctx : ConversationContext) : string :=
  let questionWords :=
    filter (fun w => (3 <? String.length w)%nat) (splitSpaces questionLower) in
  let relevantKeywords :=
    filter (fun word =>
              existsb (fun keyword => includes word keyword || includes keyword word)
                      allKeywords)
           questionWords in
  "That's an interesting question"
  ++ (if (0 <? length relevantKeywords)%nat
      then " about " ++ join " and " (firstn 2 relevantKeywords)
      else EmptyString)
  ++ "! "
  ++ (if (0 <? JSSet.size (askedAbout ctx))%nat
      then "We've talked about " ++ join ", " (sliceLast 3 (askedAbout ctx)) ++ " - "
      else EmptyString)
  ++ match intents with
     | first :: _ => "It sounds like you're interested in my " ++ first ++ ". "
     | [] => EmptyString
     end
  ++ Text.fallbackMenu.

Definition cached (env : Env) (question resp : string) (st : State) : string * State :=
  (resp, withCache (cacheResponse (now env) question resp (responseCache st)) st).

Definition asking (topic : string) (st : State) : State :=
  withContext (askedAbout_add topic (conversationContext st)) st.

(** The cascade that follows the template match: greeting, follow-up, and
    the branches by intent, down to the smart fallback. *)
Definition intentBranches (env : Env) (question : string) (intents : list string)
           (st : State) : string * State :=
  let questionLower := toLowerCase question in
  let ctx := conversationContext st in
  if test greetingRegex (trim questionLower)
  then (pickGreeting (random env) ctx, st)
  else if (0 <? length (topics ctx))%nat && test_i followUpRegex question
          && (String.eqb (lastTopic ctx) "projects" || String.eqb (lastTopic ctx) "project")
  then (Text.followUpProjects, st)
  else if arrIncludes "projects" intents || includes "project" questionLower
  then (if depth_eqb (depth ctx) detailed
        then Text.projectsDetailed else Text.projectsOverview,
        asking "projects" st)
  else if arrIncludes "experience" intents || includes "experience" questionLower
          || includes "work" questionLower || includes "job" questionLower
  then (if includes "love" questionLower then Text.experienceLoves
        else if includes "pega" questionLower || includes "objectstream" questionLower
        then Text.experiencePega
        else Text.experienceGeneral,
        asking "experience" st)
  else if arrIncludes "skills" intents || includes "skill" questionLower
          || includes "expertise" questionLower || includes "what can you do" questionLower
  then (if includes "ai" questionLower || includes "ml" questionLower
        then Text.skillsAI
        else if includes "cloud" questionLower then Text.skillsCloud
        else Text.skillsGeneral,
        asking "skills" st)
  else if arrIncludes "education" intents || includes "education" questionLower
          || includes "degree" questionLower || includes "university" questionLower
          || test ouRegex questionLower || includes "oklahoma" questionLower
  then (Text.educationAnswer, asking "education" st)
  else if (arrIncludes "ai" intents || includes "ai" questionLower
           || includes "machine learning" questionLower || includes "llm" questionLower)
          && negb (test_i newsRegex questionLower)
  then (Text.aiAnswer, asking "ai" st)
  else if test_i newsRegex questionLower && test_i techRegex questionLower
  then (Text.aiNewsAnswer, st)
  else if arrIncludes "contact" intents || includes "contact" questionLower
          || includes "reach" questionLower || includes "email" questionLower
          || includes "phone" questionLower
  then (Text.contactAnswer (conversationContext (asking "contact" st)),
        asking "contact" st)
  else if arrIncludes "achievements" intents || includes "achievement" questionLower
          || includes "proud" questionLower || includes "accomplishment" questionLower
  then (Text.achievementsAnswer, asking "achievements" st)
  else if arrIncludes "personal" intents || includes "personal" questionLower
          || includes "background" questionLower || includes "story" questionLower
          || includes "passion" questionLower
  then (Text.personalAnswer, st)
  else if includes "consult" questionLower || includes "business" questionLower
          || includes "strategy" questionLower
  then (Text.consultingAnswer, st)
  else if (arrIncludes "motivation" intents || includes "why" questionLower)
          && negb (test_i hiringRegex questionLower)
  then cached env question Text.whyAnswer st
  else cached env question (smartFallback questionLower intents ctx) st.

(** The part of [generateRAGResponse] that follows the extraction;
    [relevantInfo] is the extracted text. *)
Definition respond (env : Env) (question : string) (intents : list string)
           (relevantInfo : string) (st : State) : string * State :=
  let questionLower := toLowerCase question in
  if includes "project" questionLower
  then cached env question Text.projectResponse st
  else
    match matchQuestionPattern question with
    | Some pattern =>
        if truthy pattern
        then cached env question (getPatternResponse pattern) st
        else intentBranches env question intents st
    | None => intentBranches env question intents st
    end.

(** [try { relevantInfo = extractRelevantInfo(...) } catch { relevantInfo = '' }] *)
Definition extractOrEmpty (resume : ResumeData) (normalizedQuestion : string)
           (st : State) : string * State :=
  match extractRelevantInfo resume normalizedQuestion (conversationContext st) with
  | (Some info, ctx) => (info, withContext ctx st)
  | (None, ctx) => (EmptyString, withContext ctx st)
  end.

(** The pipeline on a cache miss. *)
Definition answer (env : Env) (question : string) (st : State) : string * State :=
  let (resume, st) := resumeOrFallback env st in
  let normalizedQuestion := normalizeQuery question in
  let intents := detectIntent normalizedQuestion in
  let (relevantInfo, st) := extractOrEmpty resume normalizedQuestion st in
  respond env question intents relevantInfo st.

(** [generateRAGResponse]: the promise always resolves; the steps that can
    throw are guarded where they are called, so the outer [catch] and its
    apology ([Text.apology]) are not reached. *)
Definition generateRAGResponse (env : Env) (question : string) (st : State)
  : Settled string * State :=
  match getCachedResponse (now env) question (responseCache st) with
  | (Some cachedResponse, c) =>
      if truthy cachedResponse
      then (Resolved cachedResponse, withCache c st)
      else let (r, st') := answer env question (withCache c st) in (Resolved r, st')
  | (None, c) =>
      let (r, st') := answer env question (withCache c st) in (Resolved r, st')
  end.

End Pipeline.

Arguments Resolved {A} _.
Arguments Rejected {A}.

(* ------------------------------------------------------------------ *)
(** ** Runs: sequences of cache writes and of pipeline calls *)

(** One call of [cacheResponse]. *)
Record Put := { put_now : Z; put_query : string; put_response : string }.

Definition put (p : Put) (c : Cache) : Cache :=
  cacheResponse (put_now p) (put_query p) (put_response p) c.

Definition putAll (ps : list Put) (c : Cache) : Cache :=
  fold_left (fun c p => put p c) ps c.

Definition putKey (p : Put) : string := cacheKeyOf (put_query p).

Definition putEntry (p : Put) : CacheEntry :=
  {| response := put_response p; timestamp := put_now p |}.

(** Fifty-one writes under different keys. *)
Definition samplePut (n : nat) : Put :=
  {| put_now := Z.of_nat n;
     put_query := String (ascii_of_nat (33 + n)) EmptyString;
     put_response := "answer" |}.

Definition samplePuts : list Put := List.map samplePut (seq 0 50).

(** A sequence of calls of [generateRAGResponse], each with what it reads
    from outside. *)
Definition runCalls (host : string -> string -> option nat)
           (calls : list (Env * string)) (st : State) : State :=
  fold_left (fun st c => snd (generateRAGResponse host (fst c) (snd c) st)) calls st.

(** The invariant of the cache: at most 50 entries, no key twice. *)
Definition cacheOk (c : Cache) : Prop :=
  JSMap.size c <= 50 /\ NoDup (JSMap.keys c).

(** What the extraction steps and the response branches leave alone in the
    context: they only ever add to [askedAbout]. *)
Definition sameButAsked (ctx ctx' : ConversationContext) : Prop :=
  topics ctx' = topics ctx /\ sentiment ctx' = sentiment ctx
  /\ depth ctx' = depth ctx.

(** A computation that only adds to [askedAbout]. *)
Definition onlyAsks (A : Type) (m : M A) : Prop :=
  forall ctx, sameButAsked ctx (snd (m ctx)).

(* ------------------------------------------------------------------ *)
(** ** The intent scores, as the specification words them *)

(** Where an intent is first seen: the taxonomy in its order, then the
    intents of the battery of patterns that are not in the taxonomy. *)
Definition INTENT_ORDER : list string :=
  (List.map fst SEMANTIC_KEYWORDS
   ++ ["capabilities"; "detailed"; "process"; "timeline"; "location"])%list.

(** A matched keyword: +2 when it is longer than 4 characters, +1 otherwise,
    and +0.5 for each occurrence beyond the first (in half points). *)
Definition matchedKeywordPoints (queryLower keyword : string) : Z :=
  (if (4 <? String.length keyword)%nat then 4 else 2)
  + (Z.of_nat (matchCount (Str keyword) queryLower) - 1).

(** The score of an intent of the taxonomy: the sum over its keywords that
    occur in the query. *)
Definition taxonomyScore (queryLower intent : string) : Z :=
  match JSMap.get intent SEMANTIC_KEYWORDS with
  | Some keywords =>
      fold_right Z.add 0%Z
        (List.map (matchedKeywordPoints queryLower)
                  (filter (fun k => includes k queryLower) keywords))
  | None => 0%Z
  end.

(** The fixed score that the battery of patterns gives an intent. *)
Definition patternScore (query intent : string) : option Z :=
  match find (fun p => String.eqb intent (fst (snd p))) PATTERN_INTENTS with
  | Some p => if test_i (fst p) query then Some (snd (snd p)) else None
  | None => None
  end.

(** The score an intent ends with: the pattern's fixed score when its
    pattern matches, the keyword score otherwise. *)
Definition finalScore (query intent : string) : Z :=
  match patternScore query intent with
  | Some s => s
  | None => taxonomyScore (toLowerCase query) intent
  end.

(** The characters of [s] after the first [n]. *)
Fixpoint dropStr (n : nat) (s : string) : string :=
  match n, s with
  | O, _ => s
  | S n', String _ s' => dropStr n' s'
  | S _, EmptyString => EmptyString
  end.

(** The last character of [w], or [prev] when [w] is empty. *)
Fixpoint lastOf (prev : option ascii) (w : string) : option ascii :=
  match w with
  | EmptyString => prev
  | String c w' => lastOf (Some c) w'
  end.

Definition patternName (p : regex * (string * Z)) : string := fst (snd p).

(** The classifier as the claim words it: the intents of the taxonomy with a
    nonzero keyword score, by descending score, ties in first-seen order. *)
Definition detectIntent_byKeywordsOnly (query : string) : list string :=
  List.map fst
    (stableSort higherScore
       (filter (fun e => (0 <? snd e)%Z)
          (List.map (fun i => (i, taxonomyScore (toLowerCase query) i))
                    (List.map fst SEMANTIC_KEYWORDS)))).

(** The answer a call takes from the cache: a live entry whose text is not
    empty. *)
Definition servedFromCache (env : Env) (question : string) (st : State)
  : option string :=
  match fst (getCachedResponse (now env) question (responseCache st)) with
  | Some r => if truthy r then Some r else None
  | None => None
  end.

(** The state in which the cascade of responses starts on a miss: the cache
    after the lazy eviction, the profile loaded, the extraction done. *)
Definition afterExtraction (host : string -> string -> option nat)
           (env : Env) (question : string) (st : State) : State :=
  let st0 := withCache (snd (getCachedResponse (now env) question (responseCache st))) st in
  let (resume, st1) := resumeOrFallback env st0 in
  snd (extractOrEmpty host resume (normalizeQuery question) st1).

(** A host that rejects every pattern it is asked to compile. *)
Definition rejectingHost : string -> string -> option nat := fun _ _ => None.

Definition envAt (t : Z) (u : float) : Env :=
  {| now := t; random := u; fetched := None |}.

(** The states after a first call, for three questions. *)
Definition afterWhyOU : State :=
  snd (generateRAGResponse rejectingHost (envAt 0 0.5) "Why OU?" initialState).

Definition afterSkills : State :=
  snd (generateRAGResponse rejectingHost (envAt 0 0.5) "what are your skills" initialState).

Definition afterHello : State :=
  snd (generateRAGResponse rejectingHost (envAt 0 0.1) "hello" initialState).

(** The question of the claim on a profile without projects, and two such
    profiles: one that lists a position, one that lists nothing. *)
Definition projectsQuestion : string := "tell me about your projects".

Definition profileWithoutProjects : ResumeData :=
  {| name := "Marzook Mansoor";
     location := "Edmond, OK";
     bio := "AI/ML Engineer and Business Analyst";
     tagline := "Building AI solutions";
     professional_summary := "Passionate about AI, automation, and digital transformation";
     skills := ["Python"; "SQL"; "AWS"];
     experience := Some [ {| exp_title := "Business Analyst Intern";
                             exp_company := "Love's Travel Stop";
                             exp_description := "Built analytics pipelines";
                             exp_location := None;
                             exp_duration := Some "2025" |} ];
     projects := None;
     education := None;
     certifications := None;
     contact := None;
     leadership := None;
     honors := None |}.

Definition bareProfile : ResumeData :=
  {| name := "Marzook Mansoor";
     location := "Edmond, OK";
     bio := "AI/ML Engineer and Business Analyst";
     tagline := "Building AI solutions";
     professional_summary := "Passionate about AI, automation, and digital transformation";
     skills := ["Python"; "SQL"; "AWS"];
     experience := None;
     projects := None;
     education := None;
     certifications := None;
     contact := None;
     leadership := None;
     honors := None |}.

Definition withProfile (resume : ResumeData) : State :=
  withResume (Some resume) initialState.

(** The normalised question on projects. *)
Definition Q : string := normalizeQuery projectsQuestion.

(* ------------------------------------------------------------------ *)
(** ** Words and runs, for the normaliser *)

(** A string cut into its words (the maximal runs of word characters) and
    the characters between them. *)
Inductive token : Type :=
| Word : string -> token
| Sep : ascii -> token.

Definition consChar (c : ascii) (ts : list token) : list token :=
  if isWordChar c
  then match ts with
       | Word w :: ts' => Word (String c w) :: ts'
       | _ => Word (String c EmptyString) :: ts
       end
  else Sep c :: ts.

Fixpoint tokens (s : string) : list token :=
  match s with
  | EmptyString => []
  | String c s' => consChar c (tokens s')
  end.

Fixpoint untok (ts : list token) : string :=
  match ts with
  | [] => EmptyString
  | Word w :: ts' => w ++ untok ts'
  | Sep c :: ts' => String c (untok ts')
  end.

Fixpoint wordsOfTokens (ts : list token) : list string :=
  match ts with
  | [] => []
  | Word w :: ts' => w :: wordsOfTokens ts'
  | Sep _ :: ts' => wordsOfTokens ts'
  end.

Definition wordsOf (s : string) : list string := wordsOfTokens (tokens s).

Fixpoint allChars (p : ascii -> bool) (s : string) : bool :=
  match s with
  | EmptyString => true
  | String c s' => p c && allChars p s'
  end.

Definition startsWord (ts : list token) : bool :=
  match ts with Word _ :: _ => true | _ => false end.

(** The token lists that [tokens] produces: words are not empty and made of
    word characters, separators are not word characters, and no two words
    are adjacent. *)
Fixpoint normal (ts : list token) : bool :=
  match ts with
  | [] => true
  | Word w :: ts' =>
      negb (String.eqb w EmptyString) && allChars isWordChar w
      && negb (startsWord ts') && normal ts'
  | Sep c :: ts' => negb (isWordChar c) && normal ts'
  end.

(** The replacement of one word by another, word by word. *)
Definition substWord (t corr w : string) : string :=
  if String.eqb w t then corr else w.

Definition substTok (t corr : string) (tok : token) : token :=
  match tok with
  | Word w => Word (substWord t corr w)
  | Sep c => Sep c
  end.

(** All the corrections of the table, applied to a word in their order. *)
Definition fixWord (w : string) : string :=
  fold_left (fun w tc => substWord (fst tc) (snd tc) w) TYPO_CORRECTIONS w.

(** The length of the longest prefix of characters in a class. *)
Fixpoint runLen (f : ascii -> bool) (s : string) : nat :=
  match s with
  | String c s' => if f c then S (runLen f s') else O
  | EmptyString => O
  end.

(** Each maximal run of characters of a class replaced by one space;
    [inRun] tells that the run has started. *)
Fixpoint squeeze (f : ascii -> bool) (inRun : bool) (s : string) : string :=
  match s with
  | EmptyString => EmptyString
  | String c s' =>
      if f c
      then if inRun then squeeze f true s' else String " " (squeeze f true s')
      else String c (squeeze f false s')
  end.

Definition isPunct (c : ascii) : bool := includes (String c EmptyString) "?!.".

(** No root word of the synonym table occurs. *)
Definition noSynonymRoot (s : string) : bool :=
  forallb (fun ws : string * list string => negb (includes (fst ws) s)) SYNONYMS.

(** The last character of the longest prefix in a class, or [prev]. *)
Fixpoint lastRun (f : ascii -> bool) (prev : option ascii) (s : string) : option ascii :=
  match s with
  | String c s' => if f c then lastRun f (Some c) s' else prev
  | EmptyString => prev
  end.

(** A string in lower case. *)
Definition lowered (c : ascii) : bool := Ascii.eqb (lowerChar c) c.

(** White space is single spaces, one at a time. *)
Fixpoint spaceNormal (s : string) : bool :=
  match s with
  | EmptyString => true
  | String c s' =>
      (if isSpace c
       then Ascii.eqb c " "
            && negb (match headOf s' with Some d => isSpace d | None => false end)
       else true)
      && spaceNormal s'
  end.

Definition notPunct (c : ascii) : bool := negb (isPunct c).

(** A character that is neither white space nor punctuation: the cleaning
    leaves it where it is. *)
Definition solid (c : ascii) : bool := negb (isSpace c) && negb (isPunct c).

(** A typo and its correction are words. *)
Definition wordyPair (tc : string * string) : bool :=
  negb (String.eqb (fst tc) EmptyString) && allChars isWordChar (fst tc)
  && negb (String.eqb (snd tc) EmptyString) && allChars isWordChar (snd tc).

(** The corrections of a table, applied to the tokens of a string. *)
Definition fixTokens (table : list (string * string)) (ts : list token) : list token :=
  fold_left (fun ts tc => List.map (substTok (fst tc) (snd tc)) ts) table ts.

(** The shape of both loops of [detectIntent]: conditional [set]s. *)
Definition foldSet (V X : Type) (cond : X -> bool) (key : X -> string)
           (val : X -> V) (l : list X) (acc : JSMap.t V) : JSMap.t V :=
  fold_left (fun acc x => if cond x then JSMap.set (key x) (val x) acc else acc) l acc.

Arguments foldSet : clear implicits.

(* ------------------------------------------------------------------ *)
(** ** The conversation history

    [addToConversationHistory], [getConversationHistory] and
    [clearConversationHistory], over the module's variable
    [conversationHistory]; a date is the reading of the clock, in
    milliseconds.  The chat module (enhancedChat) declares the same three
    functions over a variable of its own. *)

Inductive Role := user | assistant.

Record ChatMessage := {
  msg_role : Role;
  msg_content : string;
  msg_timestamp : Z
}.

Definition addToConversationHistory (date : Z) (role : Role) (content : string)
           (conversationHistory : list ChatMessage) : list ChatMessage :=
  let conversationHistory :=
    (conversationHistory
     ++ [{| msg_role := role; msg_content := content; msg_timestamp := date |}])%list in
  if (12 <? length conversationHistory)%nat
  then sliceLast 12 conversationHistory
  else conversationHistory.

(** [[...conversationHistory]] *)
Definition getConversationHistory (conversationHistory : list ChatMessage)
  : list ChatMessage := conversationHistory.

Definition clearConversationHistory (conversationHistory : list ChatMessage)
  : list ChatMessage := [].

(* ------------------------------------------------------------------ *)
(** ** [getEnhancedAnswer] (enhancedChat, the module that answers with
    localRAG)

    The chat module imports [generateRAGResponse] and, under the name
    [addToHistory], the [addToConversationHistory] of localRAG; its own
    [conversationHistory] is the one its exported
    [getConversationHistory] reads. *)

(** The variables of the two modules. *)
Record Modules := {
  localRAG : State;
  localRAG_conversationHistory : list ChatMessage;
  enhancedChat_conversationHistory : list ChatMessage
}.

Definition initialModules : Modules :=
  {| localRAG := initialState;
     localRAG_conversationHistory := [];
     enhancedChat_conversationHistory := [] |}.

(** What a call of [getEnhancedAnswer] reads from outside: the date of the
    question, what [generateRAGResponse] reads, the date of the answer. *)
Record ChatEnv := {
  askedAt : Z;
  ragEnv : Env;
  answeredAt : Z
}.

Definition fallbackAnswer : string :=
  "Hey there! I'm Marzook Mansoor - an AI/ML engineer and Business Analyst passionate about solving real problems with technology. I've worked on everything from analytics automation at Love's Travel Stop to AI projects like ChibiTomo. What brings you here today?".

Section Chat.
Variable hostMatchCount : string -> string -> option nat.

(** [getEnhancedAnswer]: the [answer] of the object it resolves with. *)
Definition getEnhancedAnswer (env : ChatEnv) (question : string) (m : Modules)
  : Settled string * Modules :=
  let history :=
    addToConversationHistory (askedAt env) user question
                             (localRAG_conversationHistory m) in
  match generateRAGResponse hostMatchCount (ragEnv env) question (localRAG m) with
  | (Resolved answer, st) =>
      (Resolved answer,
       {| localRAG := st;
          localRAG_conversationHistory :=
            addToConversationHistory (answeredAt env) assistant answer history;
          enhancedChat_conversationHistory := enhancedChat_conversationHistory m |})
  | (Rejected, st) =>
      (Resolved fallbackAnswer,
       {| localRAG := st;
          localRAG_conversationHistory :=
            addToConversationHistory (answeredAt env) assistant fallbackAnswer history;
          enhancedChat_conversationHistory := enhancedChat_conversationHistory m |})
  end.

(** A sequence of calls of [getEnhancedAnswer]. *)
Definition runChat (calls : list (ChatEnv * string)) (m : Modules) : Modules :=
  fold_left (fun m c => snd (getEnhancedAnswer (fst c) (snd c) m)) calls m.

(** The messages that a sequence of calls exchanges, question and answer in
    turn, from the state [st] of localRAG. *)
Fixpoint transcript (calls : list (ChatEnv * string)) (st : State) : list ChatMessage :=
  match calls with
  | [] => []
  | (env, question) :: rest =>
      match generateRAGResponse hostMatchCount (ragEnv env) question st with
      | (Resolved answer, st') =>
          {| msg_role := user; msg_content := question; msg_timestamp := askedAt env |}
          :: {| msg_role := assistant; msg_content := answer;
                msg_timestamp := answeredAt env |}
          :: transcript rest st'
      | (Rejected, st') =>
          {| msg_role := user; msg_content := question; msg_timestamp := askedAt env |}
          :: {| msg_role := assistant; msg_content := fallbackAnswer;
                msg_timestamp := answeredAt env |}
          :: transcript rest st'
      end
  end.

End Chat.

(* ------------------------------------------------------------------ *)
(** ** Runs of the history *)

Inductive HistoryOp :=
| Add : Z -> Role -> string -> HistoryOp
| Clear : HistoryOp.

Definition runHistoryOp (op : HistoryOp) (h : list ChatMessage) : list ChatMessage :=
  match op with
  | Add date role content => addToConversationHistory date role content h
  | Clear => clearConversationHistory h
  end.

Definition runHistory (ops : list HistoryOp) (h : list ChatMessage) : list ChatMessage :=
  fold_left (fun h op => runHistoryOp op h) ops h.

(** The messages added since the last [Clear], after those of [acc]. *)
Fixpoint sinceClear (ops : list HistoryOp) (acc : list ChatMessage) : list ChatMessage :=
  match ops with
  | [] => acc
  | Add date role content :: rest =>
      sinceClear rest
        (acc ++ [{| msg_role := role; msg_content := content;
                    msg_timestamp := date |}])%list
  | Clear :: rest => sinceClear rest []
  end.

(* ------------------------------------------------------------------ *)
(** ** Regular expressions: what a match is

    [Matches r prev s prev' s']: [r] matches from the position whose
    preceding character is [prev] and remaining input [s] to the position
    with [prev'] and [s'].  An iteration of a star consumes something. *)

Inductive Matches : regex -> option ascii -> string -> option ascii -> string -> Prop :=
| M_Eps : forall p s, Matches Eps p s p s
| M_Lit : forall c p s, Matches (Lit c) p (String c s) (Some c) s
| M_Class : forall (f : ascii -> bool) c p s,
    f c = true -> Matches (Class f) p (String c s) (Some c) s
| M_Seq : forall r1 r2 p s p1 s1 p2 s2,
    Matches r1 p s p1 s1 -> Matches r2 p1 s1 p2 s2 -> Matches (Seq r1 r2) p s p2 s2
| M_AltL : forall r1 r2 p s p' s',
    Matches r1 p s p' s' -> Matches (Alt r1 r2) p s p' s'
| M_AltR : forall r1 r2 p s p' s',
    Matches r2 p s p' s' -> Matches (Alt r1 r2) p s p' s'
| M_Star0 : forall r p s, Matches (Star r) p s p s
| M_StarS : forall r p s p1 s1 p2 s2,
    Matches r p s p1 s1 -> String.length s1 < String.length s ->
    Matches (Star r) p1 s1 p2 s2 -> Matches (Star r) p s p2 s2
| M_Bol : forall s, Matches Bol None s None s
| M_Eol : forall p, Matches Eol p EmptyString p EmptyString
| M_WordB : forall p s,
    xorb (isWordOpt p) (isWordOpt (headOf s)) = true -> Matches WordB p s p s.

(** The loop of the star in [rmatch], with its fuel. *)
Section StarLoop.
Variable A : Type.
Variable r' : regex.
Variable k : option ascii -> string -> option A.

Fixpoint starLoop (n : nat) (prev : option ascii) (s : string) {struct n} : option A :=
  match n with
  | O => k prev s
  | S n' =>
      match rmatch r' prev s
              (fun p' s' =>
                 if (String.length s' <? String.length s)%nat
                 then starLoop n' p' s' else None) with
      | Some a => Some a
      | None => k prev s
      end
  end.
End StarLoop.

(** No line terminator: what [.*] runs over. *)
Definition noLineTerminator (s : string) : bool :=
  allChars (fun c => negb (isLineTerminator c)) s.

(* ------------------------------------------------------------------ *)
(** ** Notions for the properties of the pipeline *)

(** No string twice. *)
Fixpoint distinct (l : list string) : bool :=
  match l with
  | [] => true
  | x :: l' => negb (JSSet.has x l') && distinct l'
  end.

(** The template whose name is [name]: the patterns that must all match. *)
Definition conditionsOf (name : string) : list regex :=
  match find (fun rule : list regex * string => String.eqb (snd rule) name)
             QUESTION_PATTERNS with
  | Some rule => fst rule
  | None => []
  end.

Definition templateMatches (name question : string) : bool :=
  forallb (fun r => test_i r question) (conditionsOf name).

(** [matchQuestionPattern(question) === name] *)
Definition returnsPattern (name question : string) : bool :=
  match matchQuestionPattern question with
  | Some pattern => String.eqb pattern name
  | None => false
  end.

(** A cache with two entries written at time 0. *)
Definition twoEntries : Cache :=
  cacheResponse 0 "Why OU?" "answer" (cacheResponse 0 "hello" "hi" []).

(** The names that the pipeline adds to [askedAbout]. *)
Definition ASKED_TOPICS : list string :=
  ["intro"; "projects"; "skills"; "experience"; "education"; "certifications";
   "achievements"; "ai"; "contact"].

(** [askedAbout] is extended at its end, by names of the list above, no name
    twice. *)
Definition askedExtends (ctx ctx' : ConversationContext) : Prop :=
  (exists added, askedAbout ctx' = (askedAbout ctx ++ added)%list) /\
  (NoDup (askedAbout ctx) -> NoDup (askedAbout ctx')) /\
  (incl (askedAbout ctx) ASKED_TOPICS -> incl (askedAbout ctx') ASKED_TOPICS).

Definition onlyExtends (A : Type) (m : M A) : Prop :=
  forall ctx, askedExtends ctx (snd (m ctx)).

(** The phrases of the pattern that opens [extractRelevantInfo]. *)
Definition INTRO_PHRASES : list string :=
  ["hi"; "hey"; "hello"; "howdy"; "who are you"; "tell me about yourself"; "about you"].


(** The words of a query that [calculateAdvancedSimilarity] scores. *)
Definition queryWordsOf (query : string) : list string :=
  filter (fun w => (2 <? String.length w)%nat) (splitSpaces (toLowerCase query)).

(** White space or one of [?], [!], [.]: what the normaliser drops. *)
Definition blank (c : ascii) : bool := isSpace c || isPunct c.

(** A token that holds nothing but what the normaliser drops; a word never
    does. *)
Definition tokBlank (tok : token) : bool :=
  match tok with
  | Word _ => false
  | Sep c => blank c
  end.

(** A misspelling that the normaliser corrects. *)
Definition isTypo (w : string) : bool := JSMap.has w TYPO_CORRECTIONS.



(** The correction of a word: the entry of the table for it, if any. *)
Definition correctWord (w : string) : string :=
  match JSMap.get w TYPO_CORRECTIONS with
  | Some correction => correction
  | None => w
  end.

(** The words that the expansion by synonyms can append. *)
Definition SYNONYM_WORDS : list string :=
  flat_map (fun ws : string * list string => wordsOf (join " " (snd ws))) SYNONYMS.

(** No root word of a table occurs in the synonyms of an entry before it. *)
Fixpoint rootsApart (table : list (string * list string)) : bool :=
  match table with
  | [] => true
  | ws :: rest =>
      forallb (fun ws' : string * list string =>
                 negb (includes (fst ws') (join " " (snd ws)))) rest
      && rootsApart rest
  end.

(* ------------------------------------------------------------------ *)
(** ** The flag [i] as the language defines it

    With the flag [i] (and without [u]) a character of the pattern and a
    character of the input are compared after [Canonicalize], which is
    [toUpperCase] of the code unit; a class matches a character when one of
    its members has the same canonical form, and on the ASCII range the
    characters with the canonical form of [d] are [d] and its two cases.
    [\b] looks at the characters as they are.  The patterns are tried on
    the question as it was typed. *)

(** A code unit of the ASCII range. *)
Definition isAscii (c : ascii) : bool := (code c <? 128)%nat.

Definition canonicalize (c : ascii) : ascii := upperChar c.

Fixpoint rmatch_ci (A : Type) (r : regex) (prev : option ascii) (s : string)
         (k : option ascii -> string -> option A) {struct r} : option A :=
  match r with
  | Eps => k prev s
  | Lit c =>
      match s with
      | String d s' =>
          if Ascii.eqb (canonicalize c) (canonicalize d) then k (Some d) s' else None
      | EmptyString => None
      end
  | Class f =>
      match s with
      | String d s' =>
          if f d || f (lowerChar d) || f (upperChar d) then k (Some d) s' else None
      | EmptyString => None
      end
  | Seq r1 r2 => rmatch_ci r1 prev s (fun p' s' => rmatch_ci r2 p' s' k)
  | Alt r1 r2 =>
      match rmatch_ci r1 prev s k with
      | Some a => Some a
      | None => rmatch_ci r2 prev s k
      end
  | Star r' =>
      (fix loop (n : nat) (prev : option ascii) (s : string) {struct n} : option A :=
         match n with
         | O => k prev s
         | S n' =>
             match rmatch_ci r' prev s
                     (fun p' s' =>
                        if (String.length s' <? String.length s)%nat
                        then loop n' p' s' else None) with
             | Some a => Some a
             | None => k prev s
             end
         end) (String.length s) prev s
  | Bol => match prev with None => k prev s | Some _ => None end
  | Eol => match s with EmptyString => k prev s | String _ _ => None end
  | WordB =>
      if xorb (isWordOpt prev) (isWordOpt (headOf s)) then k prev s else None
  end.

Definition matchAt_ci (r : regex) (prev : option ascii) (s : string) : option nat :=
  rmatch_ci r prev s (fun _ s' => Some (String.length s - String.length s')%nat).

Fixpoint search_ci (r : regex) (prev : option ascii) (s : string) : bool :=
  match matchAt_ci r prev s with
  | Some _ => true
  | None =>
      match s with
      | EmptyString => false
      | String c s' => search_ci r (Some c) s'
      end
  end.

(** [/r/i.test(s)], on [s] as it is. *)
Definition test_ci (r : regex) (s : string) : bool := search_ci r None s.

(** The loop of the star in [rmatch_ci], with its fuel. *)
Section StarLoopCi.
Variable A : Type.
Variable r' : regex.
Variable k : option ascii -> string -> option A.

Fixpoint starLoop_ci (n : nat) (prev : option ascii) (s : string) {struct n} : option A :=
  match n with
  | O => k prev s
  | S n' =>
      match rmatch_ci r' prev s
              (fun p' s' =>
                 if (String.length s' <? String.length s)%nat
                 then starLoop_ci n' p' s' else None) with
      | Some a => Some a
      | None => k prev s
      end
  end.
End StarLoopCi.

(** The 256 values of a character of the model. *)
Definition allCodeUnits : list ascii := List.map ascii_of_nat (seq 0 256).

(** A pattern written in lower case: no capital letter as a literal, and
    no class that holds a capital letter without its small letter. *)
Fixpoint lowerCased (r : regex) : bool :=
  match r with
  | Lit c => negb (isUpper c)
  | Class f =>
      forallb (fun d => Bool.eqb (f d || f (lowerChar d) || f (upperChar d))
                                 (f (lowerChar d)))
              allCodeUnits
  | Seq r1 r2 => lowerCased r1 && lowerCased r2
  | Alt r1 r2 => lowerCased r1 && lowerCased r2
  | Star r' => lowerCased r'
  | Eps | Bol | Eol | WordB => true
  end.

(** [matchQuestionPattern], the flag [i] of its patterns taken as the
    language defines it. *)
Fixpoint firstMatching_ci (rules : list (list regex * string)) (question : string)
  : option string :=
  match rules with
  | [] => None
  | (conds, pattern) :: rest =>
      if forallb (fun r => test_ci r question) conds
      then Some pattern
      else firstMatching_ci rest question
  end.

Definition matchQuestionPattern_ci (question : string) : option string :=
  firstMatching_ci QUESTION_PATTERNS question.

(* ================================================================== *)
(** * Properties *)

Unset Implicit Arguments.

(** ** Insertion-ordered maps *)

Module JSMapFacts.
Section WithValues.
Variable V : Type.
Implicit Types (m : JSMap.t V) (k : string) (v : V).

Lemma has_In : forall k m, JSMap.has k m = true <-> In k (JSMap.keys m).
Proof.
intros k m. unfold JSMap.has. induction m as [|[k' v'] m IH]; simpl.
- split; [discriminate | tauto].
- destruct (String.eqb_spec k k') as [->|Hne].
  + split; auto.
  + rewrite IH. split; [auto | intros [E|H]; [congruence | exact H]].
Qed.

Lemma has_false_notin : forall k m, JSMap.has k m = false <-> ~ In k (JSMap.keys m).
Proof.
intros k m. rewrite <- has_In. destruct (JSMap.has k m); split; congruence.
Qed.

Lemma set_absent : forall k v m,
  JSMap.has k m = false -> JSMap.set k v m = (m ++ [(k, v)])%list.
Proof.
intros k v m. unfold JSMap.has. induction m as [|[k' v'] m IH]; simpl; auto.
destruct (String.eqb k k'); [discriminate|].
intros H. now rewrite IH.
Qed.

Lemma set_keys_present : forall k v m,
  JSMap.has k m = true -> JSMap.keys (JSMap.set k v m) = JSMap.keys m.
Proof.
intros k v m. unfold JSMap.has. induction m as [|[k' v'] m IH]; simpl; [discriminate|].
destruct (String.eqb k k'); simpl; auto.
intros H. now rewrite IH.
Qed.

Lemma set_size_present : forall k v m,
  JSMap.has k m = true -> JSMap.size (JSMap.set k v m) = JSMap.size m.
Proof.
intros k v m. unfold JSMap.has, JSMap.size.
induction m as [|[k' v'] m IH]; simpl; [discriminate|].
destruct (String.eqb k k'); simpl; auto.
Qed.

Lemma get_set_same : forall k v m, JSMap.get k (JSMap.set k v m) = Some v.
Proof.
intros k v m. induction m as [|[k' v'] m IH]; simpl.
- now rewrite String.eqb_refl.
- destruct (String.eqb k k') eqn:E; simpl; rewrite E; auto.
Qed.

Lemma get_delete_same : forall k m, JSMap.get k (JSMap.delete k m) = None.
Proof.
intros k m. induction m as [|[k' v'] m IH]; simpl; auto.
destruct (String.eqb k k') eqn:E; simpl; [|rewrite E]; auto.
Qed.

Lemma get_delete_other : forall k k0 m,
  k <> k0 -> JSMap.get k (JSMap.delete k0 m) = JSMap.get k m.
Proof.
intros k k0 m Hne. induction m as [|[k' v'] m IH]; simpl; auto.
destruct (String.eqb_spec k0 k') as [->|Hne'].
- destruct (String.eqb_spec k k'); [congruence | exact IH].
- simpl. now rewrite IH.
Qed.

Lemma delete_absent : forall k m, ~ In k (JSMap.keys m) -> JSMap.delete k m = m.
Proof.
intros k m. induction m as [|[k' v'] m IH]; simpl; auto.
intros H. destruct (String.eqb_spec k k') as [->|Hne]; [tauto|].
rewrite IH; tauto.
Qed.

Lemma keys_app : forall m1 m2,
  JSMap.keys (m1 ++ m2)%list = (JSMap.keys m1 ++ JSMap.keys m2)%list.
Proof. intros. unfold JSMap.keys. apply map_app. Qed.
End WithValues.
End JSMapFacts.

(** ** The response cache *)

Section CacheFacts.
Import JSMapFacts.

Lemma put_present : forall p c,
    JSMap.size c <= 50 -> JSMap.has (putKey p) c = true ->
    put p c = JSMap.set (putKey p) (putEntry p) c.
Proof.
  intros p c Hsz Hhas. unfold put, cacheResponse.
  fold (putKey p). fold (putEntry p).
  rewrite (set_size_present _ _ _ _ Hhas).
  destruct (Nat.ltb_spec 50 (JSMap.size c)); [lia | reflexivity].
Qed.

Lemma put_absent_room : forall p c,
    JSMap.size c < 50 -> JSMap.has (putKey p) c = false ->
    put p c = (c ++ [(putKey p, putEntry p)])%list.
Proof.
  intros p c Hsz Hhas. unfold put, cacheResponse.
  fold (putKey p). fold (putEntry p).
  rewrite (set_absent _ _ _ _ Hhas). unfold JSMap.size in *.
  rewrite length_app. simpl.
  destruct (Nat.ltb_spec 50 (length c + 1)); [lia | reflexivity].
Qed.

Lemma put_absent_full : forall p c,
    JSMap.size c = 50 -> NoDup (JSMap.keys c) -> JSMap.has (putKey p) c = false ->
    exists oldest rest,
      c = oldest :: rest /\ put p c = (rest ++ [(putKey p, putEntry p)])%list.
Proof.
  intros p c Hsz Hnd Hhas. unfold put, cacheResponse.
  fold (putKey p). fold (putEntry p).
  rewrite (set_absent _ _ _ _ Hhas).
  destruct c as [|[k0 e0] rest]; [discriminate|].
  exists (k0, e0), rest. split; [reflexivity|].
  unfold JSMap.size in *. rewrite length_app. simpl in *.
  destruct (Nat.ltb_spec 50 (S (length rest + 1))); [|lia].
  rewrite String.eqb_refl.
  apply delete_absent. rewrite keys_app. simpl.
  inversion Hnd as [|? ? Hnotin _]; subst.
  apply has_false_notin in Hhas. simpl in Hhas.
  rewrite in_app_iff. simpl. intros [H1|[H2|[]]]; [tauto|].
  apply Hhas. left. symmetry. exact H2.
Qed.

Lemma put_ok : forall p c, cacheOk c -> cacheOk (put p c).
Proof.
  intros p c [Hsz Hnd].
  destruct (JSMap.has (putKey p) c) eqn:Hhas.
  - rewrite (put_present _ _ Hsz Hhas). split.
    + now rewrite set_size_present.
    + now rewrite set_keys_present.
  - assert (Hnotin : ~ In (putKey p) (JSMap.keys c)) by now apply has_false_notin.
    destruct (Nat.eq_dec (JSMap.size c) 50) as [E|NE].
    + destruct (put_absent_full _ _ E Hnd Hhas) as (o & rest & -> & ->).
      unfold cacheOk, JSMap.size in *. simpl in *. split.
      * rewrite length_app. simpl. lia.
      * rewrite keys_app. simpl. inversion Hnd; subst.
        apply NoDup_app; [assumption| repeat constructor; simpl; tauto |].
        intros x Hx [<-|[]]. apply Hnotin. now right.
    + rewrite put_absent_room by (auto; lia). unfold cacheOk, JSMap.size in *. split.
      * rewrite length_app. simpl. lia.
      * rewrite keys_app. simpl.
        apply NoDup_app; [assumption| repeat constructor; simpl; tauto |].
        intros x Hx [<-|[]]. now apply Hnotin.
Qed.

Lemma putAll_ok : forall ps c, cacheOk c -> cacheOk (putAll ps c).
Proof.
  induction ps as [|p ps IH]; simpl; intros c H; [exact H|].
  apply IH. now apply put_ok.
Qed.

Lemma empty_ok : cacheOk [].
Proof. split; [simpl; lia | constructor]. Qed.
End CacheFacts.

Section CacheOrder.
Import JSMapFacts.

Lemma sliceLast_snoc_room : forall (A : Type) (l : list A) (x : A) (n : nat),
    length l < n -> sliceLast n (l ++ [x]) = (sliceLast n l ++ [x])%list.
Proof.
  intros A l x n H. unfold sliceLast. rewrite length_app. simpl.
  replace (length l + 1 - n) with 0 by lia.
  replace (length l - n) with 0 by lia. reflexivity.
Qed.

Lemma sliceLast_snoc_full : forall (A : Type) (l : list A) (x : A) (n : nat),
    n <= length l -> 0 < n ->
    sliceLast n (l ++ [x]) = (tl (sliceLast n l) ++ [x])%list.
Proof.
  intros A l x n H Hn. unfold sliceLast. rewrite length_app. simpl.
  replace (length l + 1 - n) with (S (length l - n)) by lia.
  assert (Hd : forall d, d < length l ->
               skipn (S d) (l ++ [x]) = (tl (skipn d l) ++ [x])%list).
  { clear. induction l as [|a l IH]; simpl; intros d Hd; [lia|].
    destruct d as [|d]; [reflexivity|].
    simpl. apply IH. lia. }
  apply Hd. lia.
Qed.

Lemma sliceLast_length : forall (A : Type) (l : list A) (n : nat),
    length (sliceLast n l) = Nat.min n (length l).
Proof. intros. unfold sliceLast. rewrite length_skipn. lia. Qed.

Lemma sliceLast_incl : forall (A : Type) (l : list A) (n : nat) (x : A),
    In x (sliceLast n l) -> In x l.
Proof.
  intros A l n x H. unfold sliceLast in H.
  rewrite <- (firstn_skipn (length l - n) l). apply in_or_app. now right.
Qed.

(** First in, first out: after writes under pairwise different keys the
    cache holds the last fifty keys, in the order they were written. *)
Lemma putAll_fifo : forall ps,
    NoDup (List.map putKey ps) ->
    JSMap.keys (putAll ps []) = sliceLast 50 (List.map putKey ps).
Proof.
  induction ps as [|p ps IH] using rev_ind; intros Hnd; [reflexivity|].
  unfold putAll in *. rewrite fold_left_app. simpl.
  rewrite map_app in *. simpl in *.
  apply NoDup_remove in Hnd. rewrite app_nil_r in Hnd. destruct Hnd as [Hnd Hnew].
  specialize (IH Hnd).
  pose proof (putAll_ok ps [] empty_ok) as [Hsz Hok]. unfold putAll in *.
  set (c := fold_left (fun c p => put p c) ps []) in *.
  assert (Hhas : JSMap.has (putKey p) c = false).
  { apply has_false_notin. rewrite IH. intros H. apply Hnew.
    eapply sliceLast_incl; eauto. }
  assert (Hlen : JSMap.size c = Nat.min 50 (length (List.map putKey ps))).
  { unfold JSMap.size. rewrite <- (length_map fst c).
    change (List.map fst c) with (JSMap.keys c).
    rewrite IH. apply sliceLast_length. }
  destruct (Nat.lt_ge_cases (length (List.map putKey ps)) 50) as [Hlt|Hge].
  - rewrite put_absent_room by (auto; lia).
    rewrite keys_app, IH. simpl. now rewrite sliceLast_snoc_room.
  - destruct (put_absent_full p c) as (o & rest & Hc & Hput); auto; [lia|].
    rewrite Hput, keys_app. simpl.
    rewrite sliceLast_snoc_full by lia. rewrite <- IH, Hc. reflexivity.
Qed.
End CacheOrder.

(** C5. After any sequence of writes the response cache holds at most 50
    entries.  A write under a key that is present keeps the keys and their
    order; a write under a new key goes last, and when the cache is full it
    evicts exactly the first entry, the oldest inserted one, and leaves every
    other entry as it was.  After writes under pairwise different keys the
    cache holds the last 50 of them, in the order they were written. *)
Theorem cache_bounded_evicts_oldest :
  forall (ps : list Put) (p : Put),
    let c := putAll ps [] in
    JSMap.size c <= 50 /\
    (JSMap.has (putKey p) c = true ->
       put p c = JSMap.set (putKey p) (putEntry p) c /\
       JSMap.keys (put p c) = JSMap.keys c) /\
    (JSMap.has (putKey p) c = false -> JSMap.size c < 50 ->
       put p c = (c ++ [(putKey p, putEntry p)])%list) /\
    (JSMap.has (putKey p) c = false -> JSMap.size c = 50 ->
       exists oldest rest,
         c = oldest :: rest /\
         put p c = (rest ++ [(putKey p, putEntry p)])%list) /\
    (NoDup (List.map putKey ps) ->
       JSMap.keys c = sliceLast 50 (List.map putKey ps)).
Proof.
  intros ps p c.
  destruct (putAll_ok ps [] empty_ok) as [Hsz Hnd]. fold c in Hsz, Hnd.
  split; [exact Hsz|]. split; [|split; [|split]].
  - intros Hhas. rewrite (put_present p c Hsz Hhas). split; [reflexivity|].
    now apply JSMapFacts.set_keys_present.
  - intros Hhas Hroom. now apply put_absent_room.
  - intros Hhas Hfull. now apply put_absent_full.
  - apply putAll_fifo.
Qed.

(** Fifty writes under different keys fill the cache; the fifty-first evicts
    the first of them. *)
Lemma cache_bounded_evicts_oldest_witness :
  JSMap.has (putKey (samplePut 50)) (putAll samplePuts []) = false /\
  JSMap.size (putAll samplePuts []) = 50 /\
  exists oldest rest,
    putAll samplePuts [] = oldest :: rest /\
    put (samplePut 50) (putAll samplePuts [])
    = (rest ++ [(putKey (samplePut 50), putEntry (samplePut 50))])%list.
Proof.
  split; [vm_compute; reflexivity|].
  split; [vm_compute; reflexivity|].
  apply (proj1 (proj2 (proj2 (proj2
           (cache_bounded_evicts_oldest samplePuts (samplePut 50))))));
    vm_compute; reflexivity.
Defined.

(** ** The conversation context *)

Section ContextFacts.
Variable host : string -> string -> option nat.

Lemma sameButAsked_refl : forall ctx, sameButAsked ctx ctx.
Proof. now repeat split. Qed.

Lemma sameButAsked_trans : forall a b c,
    sameButAsked a b -> sameButAsked b c -> sameButAsked a c.
Proof.
  unfold sameButAsked. intros a b c (H1 & H2 & H3) (H4 & H5 & H6).
  repeat split; congruence.
Qed.

Lemma sameButAsked_add : forall k ctx, sameButAsked ctx (askedAbout_add k ctx).
Proof. now repeat split. Qed.

Lemma onlyAsks_ret : forall (A : Type) (a : A), onlyAsks (ret a).
Proof. intros A a ctx. apply sameButAsked_refl. Qed.

Lemma onlyAsks_lift : forall (A : Type) (o : option A), onlyAsks (lift o).
Proof. intros A o ctx. apply sameButAsked_refl. Qed.

Lemma onlyAsks_asked : forall k, onlyAsks (asked k).
Proof. intros k ctx. apply sameButAsked_add. Qed.

Lemma onlyAsks_bind : forall (A B : Type) (m : M A) (f : A -> M B),
    onlyAsks m -> (forall a, onlyAsks (f a)) -> onlyAsks (bind m f).
Proof.
  intros A B m f Hm Hf ctx. unfold bind.
  specialize (Hm ctx). destruct (m ctx) as [[a|] ctx']; simpl in *; auto.
  eapply sameButAsked_trans; [exact Hm | apply Hf].
Qed.

Ltac asks :=
  repeat first
    [ apply onlyAsks_ret | apply onlyAsks_lift | apply onlyAsks_asked
    | apply onlyAsks_bind; [|intros ?]
    | match goal with
      | |- onlyAsks (if ?b then _ else _) => destruct b
      | |- onlyAsks (match ?o with Some _ => _ | None => _ end) => destruct o
      end ].

Lemma projectsStep_asks : forall resume query queryLower intents sections,
    onlyAsks (projectsStep host resume query queryLower intents sections).
Proof. intros. unfold projectsStep. asks. Qed.

Lemma skillsStep_asks : forall resume queryLower intents sections,
    onlyAsks (skillsStep resume queryLower intents sections).
Proof. intros. unfold skillsStep. asks. Qed.

Lemma experienceStep_asks : forall resume query queryLower intents sections,
    onlyAsks (experienceStep host resume query queryLower intents sections).
Proof. intros. unfold experienceStep. asks. Qed.

Lemma educationStep_asks : forall resume queryLower intents sections,
    onlyAsks (educationStep resume queryLower intents sections).
Proof. intros. unfold educationStep. asks. Qed.

Lemma certificationsStep_asks : forall resume queryLower sections,
    onlyAsks (certificationsStep resume queryLower sections).
Proof. intros. unfold certificationsStep. asks. Qed.

Lemma leadershipStep_asks : forall resume queryLower sections,
    onlyAsks (leadershipStep resume queryLower sections).
Proof. intros. unfold leadershipStep. asks. Qed.

(** The extraction sets the topics, the sentiment and the depth once, by
    [updateContext], before anything else. *)
Lemma extractRelevantInfo_context : forall resume query ctx,
    sameButAsked (updateContext query (detectIntent query) ctx)
                 (snd (extractRelevantInfo host resume query ctx)).
Proof.
  intros resume query ctx. unfold extractRelevantInfo.
  destruct (test introRegex (toLowerCase query)); simpl.
  - apply sameButAsked_add.
  - match goal with |- sameButAsked ?c (snd (?m ?c)) =>
      assert (H : onlyAsks m); [|exact (H c)] end.
    apply onlyAsks_bind; [apply projectsStep_asks|intros ?].
    apply onlyAsks_bind; [apply skillsStep_asks|intros ?].
    apply onlyAsks_bind; [apply experienceStep_asks|intros ?].
    apply onlyAsks_bind; [apply educationStep_asks|intros ?].
    apply onlyAsks_bind; [apply certificationsStep_asks|intros ?].
    apply onlyAsks_bind; [apply leadershipStep_asks|intros ?].
    apply onlyAsks_ret.
Qed.

Lemma intentBranches_context : forall env question intents st,
    sameButAsked (conversationContext st)
      (conversationContext (snd (intentBranches env question intents st))).
Proof.
  intros. unfold intentBranches, cached, asking.
  repeat match goal with
         | |- context [if ?b then _ else _] => destruct b
         end; simpl; first [apply sameButAsked_refl | apply sameButAsked_add].
Qed.

Lemma respond_context : forall env question intents info st,
    sameButAsked (conversationContext st)
      (conversationContext (snd (respond env question intents info st))).
Proof.
  intros. unfold respond.
  destruct (includes "project" (toLowerCase question));
    [apply sameButAsked_refl|].
  destruct (matchQuestionPattern question) as [p|];
    [destruct (truthy p); [apply sameButAsked_refl|]|];
    apply intentBranches_context.
Qed.

Lemma resumeOrFallback_context : forall env st,
    conversationContext (snd (resumeOrFallback env st)) = conversationContext st.
Proof.
  intros. unfold resumeOrFallback, loadResumeData.
  destruct (cachedResumeData st); [reflexivity|].
  destruct (fetched env); reflexivity.
Qed.

(** On a miss, the context after the call is the one [updateContext]
    leaves for the normalised question, up to [askedAbout]. *)
Lemma answer_context : forall env question st,
    sameButAsked
      (updateContext (normalizeQuery question)
                     (detectIntent (normalizeQuery question))
                     (conversationContext st))
      (conversationContext (snd (answer host env question st))).
Proof.
  intros. unfold answer.
  pose proof (resumeOrFallback_context env st) as Hr.
  destruct (resumeOrFallback env st) as [resume st0]. simpl in Hr.
  unfold extractOrEmpty.
  pose proof (extractRelevantInfo_context resume (normalizeQuery question)
              (conversationContext st0)) as He.
rewrite <- Hr.
destruct (extractRelevantInfo host resume (normalizeQuery question)
            (conversationContext st0)) as [[info|] ctx1]; simpl in He;
  (eapply sameButAsked_trans; [exact He|]);
  match goal with |- sameButAsked ?c (conversationContext (snd (respond ?e ?q ?i ?s ?st))) =>
    exact (respond_context e q i s st) end.
Qed.

(** A call leaves the context alone (a hit) or updates it once (a miss). *)
Lemma generateRAGResponse_context : forall env question st,
    let ctx' := conversationContext (snd (generateRAGResponse host env question st)) in
    ctx' = conversationContext st \/
    sameButAsked
      (updateContext (normalizeQuery question)
                     (detectIntent (normalizeQuery question))
                     (conversationContext st)) ctx'.
Proof.
  intros env question st. unfold generateRAGResponse.
  destruct (getCachedResponse (now env) question (responseCache st)) as [[r|] c].
  - destruct (truthy r); simpl; [left; reflexivity|].
    right. pose proof (answer_context env question (withCache c st)) as H.
    destruct (answer host env question (withCache c st)). exact H.
  - right. pose proof (answer_context env question (withCache c st)) as H.
    destruct (answer host env question (withCache c st)). exact H.
Qed.

(** Which of the two it is: a call that is served from the cache leaves the
    context alone, any other call updates it once. *)
Lemma generateRAGResponse_context_by_case : forall env question st,
    let ctx' := conversationContext (snd (generateRAGResponse host env question st)) in
    match servedFromCache env question st with
    | Some _ => ctx' = conversationContext st
    | None =>
        sameButAsked
          (updateContext (normalizeQuery question)
                         (detectIntent (normalizeQuery question))
                         (conversationContext st)) ctx'
    end.
Proof.
  intros env question st. unfold generateRAGResponse, servedFromCache.
  destruct (getCachedResponse (now env) question (responseCache st)) as [[r|] c];
    cbn [fst].
  - destruct (truthy r); [reflexivity|].
    pose proof (answer_context env question (withCache c st)) as H.
    destruct (answer host env question (withCache c st)). exact H.
  - pose proof (answer_context env question (withCache c st)) as H.
    destruct (answer host env question (withCache c st)). exact H.
Qed.

Lemma sliceLast_split : forall (A : Type) (n : nat) (l : list A),
    l = (firstn (length l - n) l ++ sliceLast n l)%list.
Proof. intros. unfold sliceLast. symmetry. apply firstn_skipn. Qed.

Lemma runCalls_topics : forall calls st,
    length (topics (conversationContext st)) <= 10 ->
    length (topics (conversationContext (runCalls host calls st))) <= 10.
Proof.
  induction calls as [|[env q] calls IH]; intros st H; simpl; [exact H|].
  apply IH.
  destruct (generateRAGResponse_context env q st) as [E|(E & _)]; simpl in *.
  - now rewrite E.
  - rewrite E. simpl. rewrite sliceLast_length. lia.
Qed.
End ContextFacts.

(** C7. After any number of calls the topic list has at most 10 entries.
    A call that is not served from the cache appends the intents detected
    for the normalised question, in their order, at the end of the list (a
    call served from the cache appends nothing); the list is then cut at
    the front: the entries dropped are the oldest of the extended list, as
    many as it exceeds 10 by, and the rest stays in order. *)
Theorem topics_at_most_ten :
  forall (host : string -> string -> option nat)
         (calls : list (Env * string)) (env : Env) (question : string),
    let st := runCalls host calls initialState in
    let st' := snd (generateRAGResponse host env question st) in
    let old := topics (conversationContext st) in
    let new := topics (conversationContext st') in
    let appended := match servedFromCache env question st with
                    | Some _ => []
                    | None => detectIntent (normalizeQuery question)
                    end in
    length old <= 10 /\
    length new <= 10 /\
    new = sliceLast 10 (old ++ appended) /\
    exists evicted : list string,
      (old ++ appended = evicted ++ new)%list /\
      length evicted = length (old ++ appended) - 10 /\
      length new = Nat.min 10 (length (old ++ appended)).
Proof.
  intros host calls env question st st' old new appended.
  assert (Hst : length old <= 10).
  { apply runCalls_topics. simpl. lia. }
  assert (Hnew : new = sliceLast 10 (old ++ appended)).
  { pose proof (generateRAGResponse_context_by_case host env question st) as H.
    cbv zeta in H. fold st' in H. unfold new, appended.
    destruct (servedFromCache env question st) as [r|].
    - rewrite H, app_nil_r. fold old. unfold sliceLast.
      replace (length old - 10) with 0 by lia. reflexivity.
    - destruct H as (E & _). rewrite E. reflexivity. }
  split; [exact Hst|]. split; [rewrite Hnew, sliceLast_length; lia|].
  split; [exact Hnew|].
  exists (firstn (length (old ++ appended) - 10) (old ++ appended)). split.
  - rewrite Hnew. apply sliceLast_split.
  - split; [rewrite length_firstn; lia|].
    rewrite Hnew, sliceLast_length. reflexivity.
Qed.

(** ** Regular expressions: literals *)

Section RegexLiterals.

Lemma rmatch_Str : forall (A : Type) (w : string) (prev : option ascii) (s : string)
                          (k : option ascii -> string -> option A),
    rmatch (Str w) prev s k
    = if startsWith w s then k (lastOf prev w) (dropStr (String.length w) s) else None.
Proof.
  intros A w. induction w as [|c w IH]; intros prev s k.
  - reflexivity.
  - destruct w as [|c' w'].
    + simpl. destruct s as [|d s']; [reflexivity|].
      rewrite Ascii.eqb_sym. destruct (Ascii.eqb d c) eqn:E; simpl.
      * apply Ascii.eqb_eq in E. now subst.
      * reflexivity.
    + change (Str (String c (String c' w'))) with (Seq (Lit c) (Str (String c' w'))).
      cbn [rmatch]. destruct s as [|d s']; [reflexivity|].
      cbn [startsWith]. destruct (Ascii.eqb c d) eqn:E; [|reflexivity].
      apply Ascii.eqb_eq in E. subst d. simpl andb.
      rewrite IH. reflexivity.
Qed.

Lemma matchAt_Str : forall w prev s,
    matchAt (Str w) prev s
    = if startsWith w s
      then Some (String.length s - String.length (dropStr (String.length w) s))
      else None.
Proof. intros. unfold matchAt. apply rmatch_Str. Qed.

Lemma search_Str : forall w prev s, search (Str w) prev s = includes w s.
Proof.
  intros w prev s. revert prev. induction s as [|c s IH]; intros prev.
  - simpl. rewrite matchAt_Str. destruct (startsWith w ""); reflexivity.
  - cbn [search includes]. rewrite matchAt_Str.
    destruct (startsWith w (String c s)); [reflexivity|]. apply IH.
Qed.

(** A literal pattern tests for a substring. *)
Lemma test_Str : forall w s, test (Str w) s = includes w s.
Proof. intros. apply search_Str. Qed.

Lemma test_i_Str : forall w s, test_i (Str w) s = includes w (toLowerCase s).
Proof. intros. apply test_Str. Qed.

End RegexLiterals.

(** ** Stable sorting *)

Section SortFacts.
Variable A : Type.
Variable before : A -> A -> bool.

Lemma insertSorted_perm : forall x l,
    Permutation (insertSorted before x l) (x :: l).
Proof.
  intros x l. induction l as [|y l IH]; simpl; [reflexivity|].
  destruct (before y x); [|reflexivity].
  rewrite IH. apply perm_swap.
Qed.

Lemma stableSort_perm : forall l, Permutation (stableSort before l) l.
Proof.
  induction l as [|x l IH]; simpl; [reflexivity|].
  rewrite insertSorted_perm. now constructor.
Qed.

(** Equal elements, and only those the comparator does not order, keep
    their order: the sort is stable. *)
Lemma insertSorted_filter : forall (p : A -> bool) x l,
    (forall a b, p a = true -> p b = true -> before b a = false) ->
    filter p (insertSorted before x l)
    = if p x then x :: filter p l else filter p l.
Proof.
  intros p x l Hp. induction l as [|y l IH]; simpl; [reflexivity|].
  destruct (before y x) eqn:Hb; simpl.
  - rewrite IH. destruct (p x) eqn:Hx, (p y) eqn:Hy; try reflexivity.
    rewrite (Hp x y Hx Hy) in Hb. discriminate.
  - reflexivity.
Qed.

Lemma stableSort_stable : forall (p : A -> bool),
    (forall a b, p a = true -> p b = true -> before b a = false) ->
    forall l, filter p (stableSort before l) = filter p l.
Proof.
  intros p Hp l. induction l as [|x l IH]; simpl; [reflexivity|].
  rewrite insertSorted_filter by exact Hp. now rewrite IH.
Qed.

Hypothesis before_asym : forall a b, before a b = true -> before b a = false.
Hypothesis before_negtrans : forall a b c,
    before b a = false -> before c b = false -> before c a = false.

Lemma insertSorted_sorted : forall x l,
    StronglySorted (fun a b => before b a = false) l ->
    StronglySorted (fun a b => before b a = false) (insertSorted before x l).
Proof.
  intros x l H. induction H as [|y l Hs IH Hall]; simpl.
  - repeat constructor.
  - destruct (before y x) eqn:Hb.
    + constructor; [exact IH|].
      apply (Permutation_Forall (Permutation_sym (insertSorted_perm x l))).
      constructor; [now apply before_asym | exact Hall].
    + constructor; [now constructor|].
      constructor; [exact Hb|].
      rewrite Forall_forall in *. intros z Hz.
      apply (before_negtrans x y z Hb). now apply Hall.
Qed.

Lemma stableSort_sorted : forall l,
    StronglySorted (fun a b => before b a = false) (stableSort before l).
Proof.
  induction l as [|x l IH]; simpl; [constructor|].
  now apply insertSorted_sorted.
Qed.
End SortFacts.

(** ** The intent scores *)

Lemma find_key_absent : forall (X : Type) (key : X -> string) (i : string) (l : list X),
    ~ In i (List.map key l) -> find (fun x => String.eqb i (key x)) l = None.
Proof.
  intros X key i l. induction l as [|x l IH]; simpl; [reflexivity|].
  intros H. destruct (String.eqb_spec i (key x)); [exfalso; apply H; left; congruence|].
  apply IH. tauto.
Qed.

Section FoldSet.
Import JSMapFacts.
Variables (V X : Type) (cond : X -> bool) (key : X -> string) (val : X -> V).

Lemma get_set_other : forall (i k : string) (v : V) (m : JSMap.t V),
    i <> k -> JSMap.get i (JSMap.set k v m) = JSMap.get i m.
Proof.
  intros i k v m Hne. induction m as [|[k' v'] m IH]; simpl.
  - destruct (String.eqb_spec i k); [congruence | reflexivity].
  - destruct (String.eqb_spec k k') as [->|Hk]; simpl.
    + destruct (String.eqb_spec i k'); [congruence | reflexivity].
    + now rewrite IH.
Qed.

Lemma has_set_other : forall (i k : string) (v : V) (m : JSMap.t V),
    i <> k -> JSMap.has i (JSMap.set k v m) = JSMap.has i m.
Proof. intros. unfold JSMap.has. now rewrite get_set_other. Qed.

Lemma keys_set : forall (k : string) (v : V) (m : JSMap.t V),
    JSMap.keys (JSMap.set k v m)
    = if JSMap.has k m then JSMap.keys m else (JSMap.keys m ++ [k])%list.
Proof.
  intros k v m. destruct (JSMap.has k m) eqn:H.
  - now apply set_keys_present.
  - rewrite set_absent by exact H. rewrite keys_app. reflexivity.
Qed.

Lemma get_foldSet : forall (l : list X) (acc : JSMap.t V) (i : string),
    NoDup (List.map key l) ->
    JSMap.get i (foldSet V X cond key val l acc)
    = match find (fun x => String.eqb i (key x)) l with
      | Some x => if cond x then Some (val x) else JSMap.get i acc
      | None => JSMap.get i acc
      end.
Proof.
  induction l as [|x l IH]; intros acc i Hnd; [reflexivity|].
  inversion Hnd as [|? ? Hnotin Hnd']; subst.
  unfold foldSet in *. simpl. rewrite IH by exact Hnd'.
  destruct (String.eqb_spec i (key x)) as [->|Hne].
  - rewrite (find_key_absent X key) by exact Hnotin.
    destruct (cond x); [apply get_set_same | reflexivity].
  - destruct (cond x); [rewrite get_set_other by exact Hne|]; reflexivity.
Qed.

Lemma keys_foldSet : forall (l : list X) (acc : JSMap.t V),
    NoDup (List.map key l) ->
    JSMap.keys (foldSet V X cond key val l acc)
    = (JSMap.keys acc
       ++ filter (fun k => negb (JSMap.has k acc)) (List.map key (filter cond l)))%list.
Proof.
  induction l as [|x l IH]; intros acc Hnd.
  - simpl. now rewrite app_nil_r.
  - inversion Hnd as [|? ? Hnotin Hnd']; subst.
    unfold foldSet in *. simpl. rewrite IH by exact Hnd'.
    destruct (cond x) eqn:Hc; [|reflexivity].
    assert (Hext : filter (fun k => negb (JSMap.has k (JSMap.set (key x) (val x) acc)))
                          (List.map key (filter cond l))
                   = filter (fun k => negb (JSMap.has k acc))
                            (List.map key (filter cond l))).
    { apply filter_ext_in. intros k Hk. rewrite has_set_other; [reflexivity|].
      intros ->. apply Hnotin. apply in_map_iff in Hk. destruct Hk as (y & <- & Hy).
      apply in_map. apply filter_In in Hy. tauto. }
    rewrite Hext, keys_set. simpl.
    destruct (JSMap.has (key x) acc); simpl; [reflexivity|].
    now rewrite <- app_assoc.
Qed.
End FoldSet.

Section IntentScores.
Import JSMapFacts.

Ltac nodup_strings :=
  repeat (constructor; [simpl; intuition discriminate|]); constructor.

Lemma taxonomy_names_NoDup : NoDup (List.map fst SEMANTIC_KEYWORDS).
Proof. simpl. nodup_strings. Qed.

Lemma pattern_names_NoDup :
  NoDup (List.map (fun p : regex * (string * Z) => fst (snd p)) PATTERN_INTENTS).
Proof. simpl. nodup_strings. Qed.

Lemma INTENT_ORDER_NoDup : NoDup INTENT_ORDER.
Proof. unfold INTENT_ORDER. simpl. nodup_strings. Qed.

(** The inner loop adds up the points of the keywords that occur. *)
Lemma intentScore_sum : forall queryLower keywords,
    intentScore queryLower keywords
    = fold_right Z.add 0%Z
        (List.map (matchedKeywordPoints queryLower)
                  (filter (fun k => includes k queryLower) keywords)).
Proof.
  intros ql kws. unfold intentScore.
  assert (H : forall a,
             fold_left (fun score keyword => (score + keywordPoints ql keyword)%Z) kws a
             = (a + fold_right Z.add 0
                      (List.map (matchedKeywordPoints ql)
                                (filter (fun k => includes k ql) kws)))%Z).
  { induction kws as [|k kws IH]; intros a; simpl; [lia|].
    rewrite IH. unfold keywordPoints at 1.
    destruct (includes k ql); simpl; [|lia].
    unfold matchedKeywordPoints at 2. lia. }
  rewrite H. lia.
Qed.

Lemma matchedKeywordPoints_pos : forall ql k, (0 < matchedKeywordPoints ql k)%Z.
Proof.
  intros. unfold matchedKeywordPoints.
  destruct (4 <? String.length k)%nat; lia.
Qed.

Lemma sum_points_nonneg : forall ql l,
    (0 <= fold_right Z.add 0 (List.map (matchedKeywordPoints ql) l))%Z.
Proof.
  intros ql l. induction l as [|k l IH]; simpl; [lia|].
  pose proof (matchedKeywordPoints_pos ql k). lia.
Qed.

(** A keyword that occurs makes the score of its intent positive. *)
Lemma taxonomyScore_pos : forall ql intent keywords k,
    JSMap.get intent SEMANTIC_KEYWORDS = Some keywords ->
    In k keywords -> includes k ql = true ->
    (0 < taxonomyScore ql intent)%Z.
Proof.
  intros ql intent kws k Hget Hin Hinc. unfold taxonomyScore. rewrite Hget.
  assert (Hk : In k (filter (fun k => includes k ql) kws))
    by (apply filter_In; tauto).
  revert Hk. generalize (filter (fun k => includes k ql) kws) as l.
  induction l as [|a l IH]; simpl; [tauto|].
  pose proof (matchedKeywordPoints_pos ql a).
  pose proof (sum_points_nonneg ql l). lia.
Qed.

Lemma get_of_entry : forall (V : Type) (l : JSMap.t V) (k : string) (v : V),
    NoDup (JSMap.keys l) -> In (k, v) l -> JSMap.get k l = Some v.
Proof.
  intros V l k v. induction l as [|[k' v'] l IH]; simpl; [tauto|].
  intros Hnd [E|Hin].
  - inversion E; subst. now rewrite String.eqb_refl.
  - inversion Hnd as [|? ? Hnotin Hnd']; subst.
    destruct (String.eqb_spec k k') as [->|Hne]; [|now apply IH].
    exfalso. apply Hnotin. change k' with (fst (k', v)). now apply in_map.
Qed.

Lemma keywordScores_foldSet : forall ql,
    keywordScores ql
    = foldSet Z _ (fun ik : string * list string => (0 <? intentScore ql (snd ik))%Z)
              fst (fun ik => intentScore ql (snd ik)) SEMANTIC_KEYWORDS [].
Proof. intros. unfold keywordScores, foldSet. reflexivity. Qed.

Lemma find_taxonomy : forall ql i (l : list (string * list string)),
    match find (fun x => String.eqb i (fst x)) l with
    | Some x => if (0 <? intentScore ql (snd x))%Z
                then Some (intentScore ql (snd x)) else None
    | None => None
    end
    = let s := match JSMap.get i l with
               | Some keywords =>
                   fold_right Z.add 0%Z
                     (List.map (matchedKeywordPoints ql)
                               (filter (fun k => includes k ql) keywords))
               | None => 0%Z
               end in
      if (0 <? s)%Z then Some s else None.
Proof.
  intros ql i l. induction l as [|[k kws] l IH]; cbn [find JSMap.get fst snd].
  - reflexivity.
  - destruct (String.eqb i k); [|exact IH].
    cbv zeta. now rewrite intentScore_sum.
Qed.

(** The keyword loop leaves, for each intent of the taxonomy, its keyword
    score when that is positive. *)
Lemma get_keywordScores : forall ql i,
    JSMap.get i (keywordScores ql)
    = if (0 <? taxonomyScore ql i)%Z then Some (taxonomyScore ql i) else None.
Proof.
  intros ql i. rewrite keywordScores_foldSet.
  rewrite get_foldSet by exact taxonomy_names_NoDup.
  change (JSMap.get i []) with (@None Z).
  exact (find_taxonomy ql i SEMANTIC_KEYWORDS).
Qed.

Lemma keys_keywordScores : forall ql,
    JSMap.keys (keywordScores ql)
    = filter (fun i => (0 <? taxonomyScore ql i)%Z) (List.map fst SEMANTIC_KEYWORDS).
Proof.
  intros ql. rewrite keywordScores_foldSet.
  rewrite keys_foldSet by exact taxonomy_names_NoDup.
  change (JSMap.keys (@nil (string * Z))) with (@nil string).
  rewrite app_nil_l.
  rewrite (filter_ext _ (fun _ => true)) by reflexivity.
  assert (Hall : forall (X : Type) (l : list X), filter (fun _ => true) l = l).
  { intros X l. induction l; simpl; congruence. }
  rewrite Hall.
  pose proof taxonomy_names_NoDup as Hnd.
  assert (Hin : forall ik, In ik SEMANTIC_KEYWORDS ->
                  taxonomyScore ql (fst ik) = intentScore ql (snd ik)).
  { intros [k kws] Hik. unfold taxonomyScore. cbn [fst snd].
    rewrite (get_of_entry _ SEMANTIC_KEYWORDS k kws Hnd Hik).
    symmetry. apply intentScore_sum. }
  revert Hin. generalize SEMANTIC_KEYWORDS as l.
  induction l as [|ik l IH]; intros Hin; simpl; [reflexivity|].
  rewrite (Hin ik) by (now left).
  destruct (0 <? intentScore ql (snd ik))%Z; simpl; rewrite IH; auto;
    intros; apply Hin; now right.
Qed.
End IntentScores.

Section IntentOrder.
Import JSMapFacts.

Lemma intentScores_foldSet : forall q,
    intentScores q
    = foldSet Z _ (fun p : regex * (string * Z) => test_i (fst p) q)
              patternName (fun p => snd (snd p))
              PATTERN_INTENTS (keywordScores (toLowerCase q)).
Proof. intros. reflexivity. Qed.

Lemma pattern_scores_positive :
  Forall (fun p : regex * (string * Z) => (0 < snd (snd p))%Z) PATTERN_INTENTS.
Proof. repeat constructor. Qed.

Lemma patternScore_positive : forall q i s,
    patternScore q i = Some s -> (0 < s)%Z.
Proof.
  intros q i s. unfold patternScore.
  destruct (find (fun p => String.eqb i (fst (snd p))) PATTERN_INTENTS) as [p|] eqn:Hf;
    [|discriminate].
  apply find_some in Hf. destruct Hf as [Hin _].
  destruct (test_i (fst p) q); [|discriminate].
  intros E. inversion E; subst.
  pose proof pattern_scores_positive as H. rewrite Forall_forall in H. now apply H.
Qed.

(** The score table holds, for each intent, its final score when that is
    positive. *)
Lemma get_intentScores : forall q i,
    JSMap.get i (intentScores q)
    = if (0 <? finalScore q i)%Z then Some (finalScore q i) else None.
Proof.
  intros q i. rewrite intentScores_foldSet.
  rewrite get_foldSet by exact pattern_names_NoDup.
  rewrite get_keywordScores.
  pose proof (patternScore_positive q i) as Hpos.
  unfold finalScore, patternScore in *. unfold patternName.
  destruct (find (fun p => String.eqb i (fst (snd p))) PATTERN_INTENTS) as [p|];
    [|reflexivity].
  destruct (test_i (fst p) q); [|reflexivity].
  specialize (Hpos _ eq_refl).
  destruct (Z.ltb_spec 0 (snd (snd p))); [reflexivity | lia].
Qed.

Lemma patternScore_other : forall q i,
    ~ In i (List.map patternName PATTERN_INTENTS) -> patternScore q i = None.
Proof.
  intros q i H. unfold patternScore.
  change (fun p : regex * (string * Z) => String.eqb i (fst (snd p)))
    with (fun p : regex * (string * Z) => String.eqb i (patternName p)).
  now rewrite (find_key_absent _ patternName).
Qed.

Lemma patternScore_motivation : forall q,
    patternScore q "motivation"
    = if includes "why" (toLowerCase q) then Some 4%Z else None.
Proof. intros q. rewrite <- test_i_Str. reflexivity. Qed.

(** A question with "why" in it has the keyword "why" of the intent
    "motivation": that intent is in the table before the battery runs. *)
Lemma why_scores_motivation : forall q,
    includes "why" (toLowerCase q) = true ->
    (0 < taxonomyScore (toLowerCase q) "motivation")%Z.
Proof.
  intros q H.
  apply (taxonomyScore_pos (toLowerCase q) "motivation"
           ["why"; "motivated"; "inspire"; "passion"; "drive"; "what sparked"] "why");
    [reflexivity | now left | exact H].
Qed.

Lemma finalScore_taxonomy_positive : forall q i,
    In i (List.map fst SEMANTIC_KEYWORDS) ->
    (0 <? finalScore q i)%Z = (0 <? taxonomyScore (toLowerCase q) i)%Z.
Proof.
  intros q i Hin. unfold finalScore.
  destruct (String.eqb_spec i "motivation") as [->|Hne].
  - rewrite patternScore_motivation.
    destruct (includes "why" (toLowerCase q)) eqn:Hw; [|reflexivity].
    pose proof (why_scores_motivation q Hw).
    destruct (Z.ltb_spec 0 (taxonomyScore (toLowerCase q) "motivation"));
      [reflexivity | lia].
  - rewrite patternScore_other; [reflexivity|].
    simpl in Hin |- *. unfold patternName. simpl.
    intuition (subst; try discriminate; try congruence).
Qed.

Lemma has_keywordScores : forall ql i,
    JSMap.has i (keywordScores ql) = (0 <? taxonomyScore ql i)%Z.
Proof.
  intros. unfold JSMap.has. rewrite get_keywordScores.
  destruct (0 <? taxonomyScore ql i)%Z; reflexivity.
Qed.

(** The keys of the score table, in the order of their insertion: the
    intents with a positive final score, in the order they are first seen. *)
Lemma keys_intentScores : forall q,
    JSMap.keys (intentScores q)
    = filter (fun i => (0 <? finalScore q i)%Z) INTENT_ORDER.
Proof.
  intros q. rewrite intentScores_foldSet.
  rewrite keys_foldSet by exact pattern_names_NoDup.
  unfold INTENT_ORDER. rewrite filter_app. f_equal.
  - rewrite keys_keywordScores. apply filter_ext_in.
    intros i Hi. symmetry. now apply finalScore_taxonomy_positive.
  - assert (Hm : includes "why" (toLowerCase q) = true ->
                 JSMap.has "motivation" (keywordScores (toLowerCase q)) = true).
    { intros H. rewrite has_keywordScores.
      pose proof (why_scores_motivation q H). now apply Z.ltb_lt. }
    assert (Hx : forall e, In e ["capabilities"; "detailed"; "process"; "timeline"; "location"] ->
                 JSMap.has e (keywordScores (toLowerCase q)) = false).
    { intros e He. rewrite has_keywordScores.
      simpl in He. repeat (destruct He as [<-|He]; [reflexivity|]). destruct He. }
    unfold finalScore, patternScore.
    cbn [PATTERN_INTENTS filter List.map patternName fst snd find
         String.eqb Ascii.eqb Bool.eqb andb].
    rewrite test_i_Str in *.
    repeat match goal with
           | |- context [if test_i ?r q then _ else _] =>
               destruct (test_i r q)
           | |- context [if includes "why" (toLowerCase q) then _ else _] =>
               destruct (includes "why" (toLowerCase q))
           end;
      cbn [filter List.map patternName fst snd negb];
      repeat rewrite Hm by reflexivity;
      repeat rewrite Hx by (simpl; tauto);
      cbn [negb Z.ltb Z.compare];
      try reflexivity;
      rewrite !has_keywordScores;
      reflexivity.
Qed.

Lemma intentScores_NoDup : forall q, NoDup (JSMap.keys (intentScores q)).
Proof.
  intros q. rewrite keys_intentScores. apply NoDup_filter. exact INTENT_ORDER_NoDup.
Qed.

Lemma intentScores_entry : forall q e,
    In e (intentScores q) -> snd e = finalScore q (fst e).
Proof.
  intros q [k v] Hin. simpl.
  pose proof (get_of_entry Z _ k v (intentScores_NoDup q) Hin) as Hget.
  rewrite get_intentScores in Hget.
  destruct (0 <? finalScore q k)%Z; congruence.
Qed.
End IntentOrder.

Section IntentClaim.

Lemma filter_map_fst : forall (p : string -> bool) (l : list (string * Z)),
    filter p (List.map fst l) = List.map fst (filter (fun e => p (fst e)) l).
Proof.
  intros p l. induction l as [|e l IH]; simpl; [reflexivity|].
  destruct (p (fst e)); simpl; now rewrite IH.
Qed.

Lemma higherScore_asym : forall a b : string * Z,
    higherScore a b = true -> higherScore b a = false.
Proof. intros a b. unfold higherScore. rewrite Z.ltb_lt, Z.ltb_ge. lia. Qed.

Lemma higherScore_negtrans : forall a b c : string * Z,
    higherScore b a = false -> higherScore c b = false -> higherScore c a = false.
Proof. intros a b c. unfold higherScore. rewrite !Z.ltb_ge. lia. Qed.

Lemma sorted_entries_names : forall (q : string) (l : list (string * Z)),
    (forall e, In e l -> snd e = finalScore q (fst e)) ->
    StronglySorted (fun a b => higherScore b a = false) l ->
    StronglySorted (fun i j => (finalScore q j <= finalScore q i)%Z) (List.map fst l).
Proof.
  intros q l Hval H. induction H as [|e l Hs IH Hall]; simpl; constructor.
  - apply IH. intros e' He'. apply Hval. now right.
  - rewrite Forall_forall in *. intros j Hj.
    apply in_map_iff in Hj. destruct Hj as (e' & <- & He').
    specialize (Hall e' He'). unfold higherScore in Hall. rewrite Z.ltb_ge in Hall.
    rewrite <- (Hval e) by (now left). rewrite <- (Hval e') by (now right). exact Hall.
Qed.

End IntentClaim.

(** C4, as amended.  The score an intent ends with is its keyword score
    (+2 per matched keyword longer than 4 characters, +1 otherwise, +0.5 per
    occurrence beyond the first), or the fixed score of its pattern when the
    battery of patterns matches ([finalScore], in half points).  The
    classifier returns exactly the intents with a positive final score, by
    descending final score, ties in the order in which the intents are first
    seen. *)
Theorem detectIntent_sorted_by_final_score :
  forall query : string,
    let seen := filter (fun i => (0 <? finalScore query i)%Z) INTENT_ORDER in
    Permutation (detectIntent query) seen /\
    StronglySorted (fun i j => (finalScore query j <= finalScore query i)%Z)
                   (detectIntent query) /\
    (forall s : Z,
        filter (fun i => (finalScore query i =? s)%Z) (detectIntent query)
        = filter (fun i => (finalScore query i =? s)%Z) seen).
Proof.
  intros q seen. unfold detectIntent.
  pose proof (stableSort_perm _ higherScore (intentScores q)) as Hperm.
  assert (Hval : forall e, In e (stableSort higherScore (intentScores q)) ->
                           snd e = finalScore q (fst e)).
  { intros e He. apply intentScores_entry.
    eapply Permutation_in; [exact Hperm | exact He]. }
  split; [|split].
  - unfold seen. rewrite <- keys_intentScores. unfold JSMap.keys.
    now apply Permutation_map.
  - apply sorted_entries_names; [exact Hval|].
    apply stableSort_sorted; [exact higherScore_asym | exact higherScore_negtrans].
  - intros s. unfold seen. rewrite <- keys_intentScores. unfold JSMap.keys.
    rewrite !filter_map_fst. f_equal.
    rewrite (filter_ext_in (fun e => (finalScore q (fst e) =? s)%Z)
                           (fun e => (snd e =? s)%Z)
                           (stableSort higherScore (intentScores q)))
      by (intros e He; now rewrite (Hval e He)).
    rewrite (filter_ext_in (fun e => (finalScore q (fst e) =? s)%Z)
                           (fun e => (snd e =? s)%Z) (intentScores q))
      by (intros e He; now rewrite (intentScores_entry q e He)).
    apply stableSort_stable.
    intros a b Ha Hb. apply Z.eqb_eq in Ha, Hb. unfold higherScore.
    apply Z.ltb_ge. lia.
Qed.

(** C4, as claimed, fails: "where" has no keyword of the taxonomy and is
    classified as "location"; and in "why drive cloud cloud" the keyword
    score of "motivation" (3, six half points) is above that of "cloud"
    (2.5), yet "cloud" comes first, because the pattern [/why/] resets
    "motivation" to 2. *)
Lemma detectIntent_not_keywords_only :
  detectIntent "where" = ["location"] /\
  detectIntent_byKeywordsOnly "where" = [] /\
  detectIntent "why drive cloud cloud" = ["cloud"; "motivation"] /\
  detectIntent_byKeywordsOnly "why drive cloud cloud" = ["motivation"; "cloud"] /\
  taxonomyScore "why drive cloud cloud" "motivation" = 6%Z /\
  taxonomyScore "why drive cloud cloud" "cloud" = 5%Z.
Proof. vm_compute. repeat split; reflexivity. Qed.

(** ** The pipeline *)

Section PipelineFacts.
Variable host : string -> string -> option nat.

Lemma withCache_same : forall st, withCache (responseCache st) st = st.
Proof. now intros []. Qed.

Lemma generateRAGResponse_hit : forall env question st r,
    servedFromCache env question st = Some r ->
    generateRAGResponse host env question st = (Resolved r, st).
Proof.
  intros env question st r. unfold servedFromCache, generateRAGResponse, getCachedResponse.
  destruct (JSMap.get (cacheKeyOf question) (responseCache st)) as [e|]; [|discriminate].
  destruct (now env - timestamp e <? CACHE_TTL)%Z; simpl; [|discriminate].
  destruct (truthy (response e)); [|discriminate].
  intros E. inversion E; subst. now rewrite withCache_same.
Qed.

Lemma generateRAGResponse_miss : forall env question st,
    servedFromCache env question st = None ->
    generateRAGResponse host env question st
    = (Resolved (fst (answer host env question
                        (withCache (snd (getCachedResponse (now env) question
                                           (responseCache st))) st))),
       snd (answer host env question
              (withCache (snd (getCachedResponse (now env) question
                                 (responseCache st))) st))).
Proof.
  intros env question st. unfold servedFromCache, generateRAGResponse.
  destruct (getCachedResponse (now env) question (responseCache st)) as [[r|] c]; simpl.
  - destruct (truthy r); [discriminate|]. intros _.
    now destruct (answer host env question (withCache c st)).
  - intros _. now destruct (answer host env question (withCache c st)).
Qed.

Lemma answer_afterExtraction : forall env question st info,
    answer host env question
      (withCache (snd (getCachedResponse (now env) question (responseCache st))) st)
    = respond env question (detectIntent (normalizeQuery question)) info
              (afterExtraction host env question st).
Proof.
  intros env question st info. unfold answer, afterExtraction.
  destruct (resumeOrFallback env _) as [resume st1].
  destruct (extractOrEmpty host resume (normalizeQuery question) st1) as [i st2].
  reflexivity.
Qed.

(** Every name that the template matcher returns is a key of the table of
    canned answers, bound to a text that is not empty. *)
Lemma firstMatching_In : forall rules question pattern,
    firstMatching rules question = Some pattern ->
    In pattern (List.map snd rules).
Proof.
  induction rules as [|[conds p] rules IH]; intros question pattern; simpl;
    [discriminate|].
  destruct (forallb (fun r => test_i r question) conds).
  - intros E. inversion E. now left.
  - intros H. right. eapply IH; eauto.
Qed.

Lemma pattern_names_bound :
  forallb (fun p => truthy p
                    && match JSMap.get p Text.responses with
                       | Some text => truthy text
                       | None => false
                       end)
          (List.map snd QUESTION_PATTERNS) = true.
Proof. vm_compute. reflexivity. Qed.

Lemma matched_pattern_bound : forall question pattern,
    matchQuestionPattern question = Some pattern ->
    truthy pattern = true /\
    JSMap.get pattern Text.responses = Some (getPatternResponse pattern).
Proof.
  intros question pattern H. apply firstMatching_In in H.
  pose proof pattern_names_bound as Hall. rewrite forallb_forall in Hall.
  specialize (Hall _ H). apply andb_true_iff in Hall. destruct Hall as [Ht Hg].
  split; [exact Ht|]. unfold getPatternResponse.
  destruct (JSMap.get pattern Text.responses) as [text|]; [|discriminate].
  now rewrite Hg.
Qed.
End PipelineFacts.

(** C10. The text that [extractRelevantInfo] returns does not reach the
    response: on a miss the call is the cascade of responses run in the
    state the extraction leaves, whatever string stands for the extracted
    text; that state (the context the extraction updated) is all of the
    extraction that the response can depend on. *)
Theorem extracted_text_never_used :
  forall (host : string -> string -> option nat) (env : Env)
         (question : string) (st : State) (replacement : string),
    (forall intents info st',
        respond env question intents info st'
        = respond env question intents replacement st') /\
    match servedFromCache env question st with
    | Some r => generateRAGResponse host env question st = (Resolved r, st)
    | None =>
        generateRAGResponse host env question st
        = (Resolved (fst (respond env question (detectIntent (normalizeQuery question))
                                  replacement (afterExtraction host env question st))),
           snd (respond env question (detectIntent (normalizeQuery question))
                        replacement (afterExtraction host env question st)))
    end.
Proof.
  intros host env question st replacement. split; [reflexivity|].
  destruct (servedFromCache env question st) as [r|] eqn:Hs.
  - now apply generateRAGResponse_hit.
  - rewrite (generateRAGResponse_miss host env question st Hs).
    now rewrite (answer_afterExtraction host env question st replacement).
Qed.

Section Responses.
Variable host : string -> string -> option nat.

Lemma respond_template : forall env question intents info st pattern,
    includes "project" (toLowerCase question) = false ->
    matchQuestionPattern question = Some pattern ->
    respond env question intents info st
    = cached env question (getPatternResponse pattern) st.
Proof.
  intros env question intents info st pattern Hp Hm. unfold respond.
  rewrite Hp, Hm.
  destruct (matched_pattern_bound question pattern Hm) as [Ht _]. now rewrite Ht.
Qed.

Lemma getPatternResponse_truthy : forall pattern,
    truthy (getPatternResponse pattern) = true.
Proof.
  intros pattern. unfold getPatternResponse.
  destruct (JSMap.get pattern Text.responses) as [r|]; [|reflexivity].
  destruct (truthy r) eqn:E; [exact E | reflexivity].
Qed.

Lemma intentBranches_truthy : forall env question intents st,
    truthy (fst (intentBranches env question intents st)) = true.
Proof.
  intros. unfold intentBranches, cached, pickGreeting.
  repeat match goal with
         | |- context [if ?b then _ else _] => destruct b
         end; reflexivity.
Qed.

(** Every response of the cascade is a string that is not empty. *)
Lemma respond_truthy : forall env question intents info st,
    truthy (fst (respond env question intents info st)) = true.
Proof.
  intros. unfold respond.
  destruct (includes "project" (toLowerCase question)); [reflexivity|].
  destruct (matchQuestionPattern question) as [p|];
    [destruct (truthy p); [apply getPatternResponse_truthy|]|];
    apply intentBranches_truthy.
Qed.

Lemma answer_truthy : forall env question st,
    truthy (fst (answer host env question st)) = true.
Proof.
  intros. unfold answer.
  destruct (resumeOrFallback env st) as [resume st0].
  destruct (extractOrEmpty host resume (normalizeQuery question) st0) as [info st1].
  apply respond_truthy.
Qed.

Lemma generateRAGResponse_resolves : forall env question st,
    exists r st',
      generateRAGResponse host env question st = (Resolved r, st') /\
      truthy r = true.
Proof.
  intros env question st.
  destruct (servedFromCache env question st) as [r|] eqn:Hs.
  - exists r, st. split; [now apply generateRAGResponse_hit|].
    unfold servedFromCache in Hs.
    destruct (fst (getCachedResponse (now env) question (responseCache st))) as [r'|];
      [|discriminate].
    destruct (truthy r') eqn:E; [|discriminate]. now inversion Hs; subst.
  - rewrite (generateRAGResponse_miss host env question st Hs).
    eexists _, _. split; [reflexivity | apply answer_truthy].
Qed.
End Responses.

(** C1, as amended.  For a question that matches a template and does not
    contain "project", the call returns the canned paragraph bound to the
    name of the first matching template, and stores it in the cache; the
    state it leaves is the one after the extraction with that one entry
    written, so none of the branches by intent has run.  (A live cache entry
    for the question is returned as it is.) *)
Theorem template_answer_when_no_project :
  forall (host : string -> string -> option nat) (env : Env)
         (question : string) (st : State) (pattern : string),
    matchQuestionPattern question = Some pattern ->
    includes "project" (toLowerCase question) = false ->
    JSMap.get pattern Text.responses = Some (getPatternResponse pattern) /\
    match servedFromCache env question st with
    | Some r => generateRAGResponse host env question st = (Resolved r, st)
    | None =>
        let st1 := afterExtraction host env question st in
        generateRAGResponse host env question st
        = (Resolved (getPatternResponse pattern),
           withCache (cacheResponse (now env) question (getPatternResponse pattern)
                                    (responseCache st1)) st1)
    end.
Proof.
  intros host env question st pattern Hm Hp.
  split; [exact (proj2 (matched_pattern_bound question pattern Hm))|].
  destruct (servedFromCache env question st) as [r|] eqn:Hs.
  - now apply generateRAGResponse_hit.
  - intros st1. rewrite (generateRAGResponse_miss host env question st Hs).
    rewrite (answer_afterExtraction host env question st EmptyString).
    fold st1. now rewrite (respond_template env question _ _ st1 pattern Hp Hm).
Qed.

(** "Why OU?" matches the template [why_ou] and gets its paragraph. *)
Lemma template_answer_when_no_project_witness :
  matchQuestionPattern "Why OU?" = Some "why_ou" /\
  includes "project" (toLowerCase "Why OU?") = false /\
  fst (generateRAGResponse rejectingHost (envAt 0 0.5) "Why OU?" initialState)
  = Resolved Text.why_ou.
Proof.
  split; [vm_compute; reflexivity|]. split; [vm_compute; reflexivity|].
  pose proof (template_answer_when_no_project rejectingHost (envAt 0 0.5)
                "Why OU?" initialState "why_ou") as H.
  destruct H as [_ H]; [vm_compute; reflexivity | vm_compute; reflexivity |].
  change (servedFromCache (envAt 0 0.5) "Why OU?" initialState) with (@None string) in H.
  cbv zeta in H. rewrite H. reflexivity.
Defined.

(** C1, as claimed, fails: "walk me through your resume and projects"
    matches the template [resume_overview], and the call returns the fixed
    paragraph on projects, which is another text; and the extraction has run
    before the template is looked for (it recorded "projects" and
    "experience" as asked about). *)
Lemma template_overridden_by_project_handler :
  matchQuestionPattern "walk me through your resume and projects"
  = Some "resume_overview" /\
  fst (generateRAGResponse rejectingHost (envAt 0 0.5)
         "walk me through your resume and projects" initialState)
  = Resolved Text.projectResponse /\
  String.eqb Text.projectResponse (getPatternResponse "resume_overview") = false /\
  askedAbout (conversationContext
                (snd (generateRAGResponse rejectingHost (envAt 0 0.5)
                        "walk me through your resume and projects" initialState)))
  = ["projects"; "experience"].
Proof. vm_compute. repeat split; reflexivity. Qed.



Section Determinism.
Variable host : string -> string -> option nat.

Lemma intentBranches_random : forall t f u1 u2 question intents st,
    test greetingRegex (trim (toLowerCase question)) = false ->
    intentBranches {| now := t; random := u1; fetched := f |} question intents st
    = intentBranches {| now := t; random := u2; fetched := f |} question intents st.
Proof.
  intros t f u1 u2 question intents st Hg. unfold intentBranches.
  rewrite Hg. reflexivity.
Qed.

Lemma respond_random : forall t f u1 u2 question intents info st,
    test greetingRegex (trim (toLowerCase question)) = false ->
    respond {| now := t; random := u1; fetched := f |} question intents info st
    = respond {| now := t; random := u2; fetched := f |} question intents info st.
Proof.
  intros t f u1 u2 question intents info st Hg. unfold respond.
  destruct (includes "project" (toLowerCase question)); [reflexivity|].
  destruct (matchQuestionPattern question) as [p|];
    [destruct (truthy p); [reflexivity|]|];
    now apply intentBranches_random.
Qed.
End Determinism.

(** C9, as amended.  Two runs from the same state on the same question that
    read the same clock and get the same outcome of the fetch return the
    same response and leave the same state, whatever [Math.random()]
    returns, provided the question is not a bare greeting. *)
Theorem deterministic_unless_greeting :
  forall (host : string -> string -> option nat) (env1 env2 : Env)
         (question : string) (st : State),
    now env1 = now env2 ->
    fetched env1 = fetched env2 ->
    test greetingRegex (trim (toLowerCase question)) = false ->
    generateRAGResponse host env1 question st
    = generateRAGResponse host env2 question st.
Proof.
  intros host [t1 u1 f1] [t2 u2 f2] question st Ht Hf Hg. simpl in Ht, Hf. subst t2 f2.
  unfold generateRAGResponse. cbn [now].
  destruct (getCachedResponse t1 question (responseCache st)) as [[r|] c].
  - destruct (truthy r); [reflexivity|].
    unfold answer, resumeOrFallback, loadResumeData. cbn [fetched].
    destruct (match cachedResumeData (withCache c st) with
              | Some r0 => (Resolved r0, withCache c st)
              | None => match f1 with
                        | Some r0 => (Resolved r0, withResume (Some r0) (withCache c st))
                        | None => (Rejected, withCache c st)
                        end
              end) as [[resume|] st0];
      destruct (extractOrEmpty host _ (normalizeQuery question) st0) as [info st1];
      now rewrite (respond_random t1 f1 u1 u2 question _ info st1 Hg).
  - unfold answer, resumeOrFallback, loadResumeData. cbn [fetched].
    destruct (match cachedResumeData (withCache c st) with
              | Some r0 => (Resolved r0, withCache c st)
              | None => match f1 with
                        | Some r0 => (Resolved r0, withResume (Some r0) (withCache c st))
                        | None => (Rejected, withCache c st)
                        end
              end) as [[resume|] st0];
      destruct (extractOrEmpty host _ (normalizeQuery question) st0) as [info st1];
      now rewrite (respond_random t1 f1 u1 u2 question _ info st1 Hg).
Qed.

(** "Why OU?" gets the same answer whatever the random draw. *)
Lemma deterministic_unless_greeting_witness :
  now (envAt 0 0.1) = now (envAt 0 0.9) /\
  fetched (envAt 0 0.1) = fetched (envAt 0 0.9) /\
  test greetingRegex (trim (toLowerCase "Why OU?")) = false /\
  generateRAGResponse rejectingHost (envAt 0 0.1) "Why OU?" initialState
  = generateRAGResponse rejectingHost (envAt 0 0.9) "Why OU?" initialState.
Proof.
  split; [reflexivity|]. split; [reflexivity|].
  split; [vm_compute; reflexivity|].
  apply (deterministic_unless_greeting rejectingHost (envAt 0 0.1) (envAt 0 0.9)
           "Why OU?" initialState);
    [reflexivity | reflexivity | vm_compute; reflexivity].
Defined.

(** C9, as claimed, fails: from the same (initial) state, at the same time,
    "hello" is answered with the first greeting when [Math.random()] returns
    0.1 and with the third when it returns 0.5. *)
Lemma greeting_depends_on_random :
  (forall host,
      fst (generateRAGResponse host (envAt 0 0.1) "hello" initialState)
      = Resolved (Text.greeting0 (askedAbout_add "intro" initialContext))) /\
  (forall host,
      fst (generateRAGResponse host (envAt 0 0.5) "hello" initialState)
      = Resolved (Text.greeting2 (askedAbout_add "intro" initialContext))) /\
  String.eqb (Text.greeting0 (askedAbout_add "intro" initialContext))
             (Text.greeting2 (askedAbout_add "intro" initialContext)) = false.
Proof.
  split; [intros host; vm_compute; reflexivity|].
  split; [intros host; vm_compute; reflexivity|].
  vm_compute. reflexivity.
Qed.

(** C2, as amended.  When the first call leaves an entry for the question in
    the cache whose text is not empty (it was answered from the cache, or by
    one of the branches that store their answer: the direct answer on
    projects, a template, the "why" branch, the smart fallback), a second
    call made less than the time to live after that entry's timestamp
    returns the same string from the cache and leaves the state, hence the
    context and the cache, untouched: nothing is classified or extracted. *)
Theorem second_call_served_from_cache :
  forall (host : string -> string -> option nat) (env1 env2 : Env)
         (question : string) (st st1 : State) (r1 : string) (e : CacheEntry),
    generateRAGResponse host env1 question st = (Resolved r1, st1) ->
    JSMap.get (cacheKeyOf question) (responseCache st1) = Some e ->
    truthy (response e) = true ->
    (now env2 - timestamp e < CACHE_TTL)%Z ->
    response e = r1 /\
    servedFromCache env2 question st1 = Some r1 /\
    generateRAGResponse host env2 question st1 = (Resolved r1, st1).
Proof.
  intros host env1 env2 question st st1 r1 e Hgen Hget Htruthy Hlive.
  assert (Hserved : servedFromCache env2 question st1 = Some (response e)).
  { unfold servedFromCache, getCachedResponse. rewrite Hget.
    destruct (Z.ltb_spec (now env2 - timestamp e) CACHE_TTL); [|lia].
    simpl. now rewrite Htruthy. }
  assert (Hr : response e = r1).
  { destruct (servedFromCache env1 question st) as [r|] eqn:Hs.
    - rewrite (generateRAGResponse_hit host env1 question st r Hs) in Hgen.
      inversion Hgen; subst. clear Hgen.
      unfold servedFromCache, getCachedResponse in Hs. rewrite Hget in Hs.
      destruct (now env1 - timestamp e <? CACHE_TTL)%Z; simpl in Hs; [|discriminate].
      rewrite Htruthy in Hs. now inversion Hs.
    - rewrite (generateRAGResponse_miss host env1 question st Hs) in Hgen.
      rewrite (answer_afterExtraction host env1 question st EmptyString) in Hgen.
      injection Hgen as Hr1 Hst1.
      set (st0 := afterExtraction host env1 question st) in *.
      assert (Hc0 : responseCache st0
                    = snd (getCachedResponse (now env1) question (responseCache st))).
      { unfold st0, afterExtraction, resumeOrFallback, loadResumeData, extractOrEmpty.
        destruct (cachedResumeData _); [|destruct (fetched env1)];
          match goal with
          | |- context [extractRelevantInfo ?h ?r ?q ?c] =>
              destruct (extractRelevantInfo h r q c) as [[?|] ?]
          end; reflexivity. }
      assert (Hmiss : forall e0,
                 JSMap.get (cacheKeyOf question) (responseCache st0) = Some e0 ->
                 truthy (response e0) = false).
      { intros e0 He0. rewrite Hc0 in He0.
        unfold servedFromCache, getCachedResponse in Hs, He0.
        destruct (JSMap.get (cacheKeyOf question) (responseCache st)) as [e1|] eqn:Hg1.
        - destruct (now env1 - timestamp e1 <? CACHE_TTL)%Z; simpl in *.
          + rewrite Hg1 in He0. inversion He0; subst.
            destruct (truthy (response e0)); [discriminate | reflexivity].
          + rewrite JSMapFacts.get_delete_same in He0. discriminate.
        - simpl in He0. rewrite Hg1 in He0. discriminate. }
      assert (Hcached : forall resp st',
                 (resp, st') = cached env1 question resp st0 ->
                 JSMap.get (cacheKeyOf question) (responseCache st') = Some e ->
                 response e = resp).
      { intros resp st' Heq Hg. unfold cached in Heq. inversion Heq; subst st'.
        simpl in Hg. unfold cacheResponse in Hg.
        destruct (50 <? JSMap.size _)%nat.
        - destruct (JSMap.firstKey _) as [fk|] eqn:Hfk.
          + destruct (String.eqb_spec (cacheKeyOf question) fk) as [<-|Hne].
            * rewrite JSMapFacts.get_delete_same in Hg. discriminate.
            * rewrite JSMapFacts.get_delete_other in Hg by exact Hne.
              rewrite JSMapFacts.get_set_same in Hg. now inversion Hg.
          + rewrite JSMapFacts.get_set_same in Hg. now inversion Hg.
        - rewrite JSMapFacts.get_set_same in Hg. now inversion Hg. }
      assert (Huncached : responseCache st1 = responseCache st0 -> False).
      { intros Hsame. rewrite Hsame in Hget. specialize (Hmiss e Hget). congruence. }
      revert Hr1 Hst1. unfold respond.
      destruct (includes "project" (toLowerCase question)).
      { intros Hr1 Hst1. apply (Hcached r1 st1); [|exact Hget].
        unfold cached in *. simpl in *. now subst. }
      assert (Hbranches :
                forall p, p = intentBranches env1 question
                                (detectIntent (normalizeQuery question)) st0 ->
                          fst p = r1 -> snd p = st1 -> response e = r1).
      { intros p Hp Hr1 Hst1. unfold intentBranches in Hp.
        repeat match type of Hp with
               | context [if ?b then _ else _] => destruct b
               end;
          subst p; simpl in Hr1, Hst1;
          first
            [ (* a branch that does not store its answer *)
              exfalso; apply Huncached; subst st1; reflexivity
            | (* a branch that stores it *)
              apply (Hcached r1 st1); [|exact Hget];
              unfold cached; simpl; now subst ]. }
      destruct (matchQuestionPattern question) as [p|].
      + destruct (truthy p).
        * intros Hr1 Hst1. apply (Hcached r1 st1); [|exact Hget].
          unfold cached in *. simpl in *. now subst.
        * intros Hr1 Hst1. now apply (Hbranches _ eq_refl).
      + intros Hr1 Hst1. now apply (Hbranches _ eq_refl). }
  rewrite Hr in Hserved. split; [exact Hr|]. split; [exact Hserved|].
  now apply generateRAGResponse_hit.
Qed.

(** "Why OU?" is answered by a template, which stores its answer; a second
    call one second later is served from the cache. *)
Lemma second_call_served_from_cache_witness :
  generateRAGResponse rejectingHost (envAt 0 0.5) "Why OU?" initialState
  = (Resolved Text.why_ou, afterWhyOU) /\
  JSMap.get (cacheKeyOf "Why OU?") (responseCache afterWhyOU)
  = Some {| response := Text.why_ou; timestamp := 0 |} /\
  truthy Text.why_ou = true /\
  (now (envAt 1000 0.9) - 0 < CACHE_TTL)%Z /\
  generateRAGResponse rejectingHost (envAt 1000 0.9) "Why OU?" afterWhyOU
  = (Resolved Text.why_ou, afterWhyOU).
Proof.
  assert (H1 : generateRAGResponse rejectingHost (envAt 0 0.5) "Why OU?" initialState
               = (Resolved Text.why_ou, afterWhyOU)) by (vm_compute; reflexivity).
  assert (H2 : JSMap.get (cacheKeyOf "Why OU?") (responseCache afterWhyOU)
               = Some {| response := Text.why_ou; timestamp := 0 |})
    by (vm_compute; reflexivity).
  assert (H3 : truthy Text.why_ou = true) by reflexivity.
  assert (H4 : (now (envAt 1000 0.9) - 0 < CACHE_TTL)%Z) by (vm_compute; reflexivity).
  repeat (split; [assumption|]).
  exact (proj2 (proj2 (second_call_served_from_cache rejectingHost
                         (envAt 0 0.5) (envAt 1000 0.9) "Why OU?"
                         initialState afterWhyOU Text.why_ou
                         {| response := Text.why_ou; timestamp := 0 |}
                         H1 H2 H3 H4))).
Defined.

(** C2, as claimed, fails.  "what are your skills" is answered by the branch
    on skills, which stores nothing: one second later the cache has no
    answer for it and the second call classifies again (the topics grow).
    And "hello" gets the first greeting, then, one second later with another
    random draw, the third one: the two strings differ. *)
Lemma second_call_not_always_cached :
  responseCache afterSkills = [] /\
  servedFromCache (envAt 1000 0.5) "what are your skills" afterSkills = None /\
  topics (conversationContext afterSkills) = ["skills"; "capabilities"] /\
  topics (conversationContext
            (snd (generateRAGResponse rejectingHost (envAt 1000 0.5)
                    "what are your skills" afterSkills)))
  = ["skills"; "capabilities"; "skills"; "capabilities"] /\
  fst (generateRAGResponse rejectingHost (envAt 0 0.1) "hello" initialState)
  = Resolved (Text.greeting0 (askedAbout_add "intro" initialContext)) /\
  fst (generateRAGResponse rejectingHost (envAt 1000 0.5) "hello" afterHello)
  = Resolved (Text.greeting2 (askedAbout_add "intro" initialContext)) /\
  String.eqb (Text.greeting0 (askedAbout_add "intro" initialContext))
             (Text.greeting2 (askedAbout_add "intro" initialContext)) = false.
Proof. vm_compute. repeat split; reflexivity. Qed.

Section ProjectsQuestion.
Variable host : string -> string -> option nat.

(** A word without syntax characters never makes the host compile a
    pattern: the similarity is then always computed. *)
Lemma prefixScore_plain : forall boost textLower words score,
    forallb isPlain words = true ->
    exists s, prefixScore host boost textLower words score = Some s.
Proof.
  intros boost textLower words. induction words as [|w words IH]; intros score H.
  - now exists score.
  - simpl in H. apply andb_true_iff in H. destruct H as [Hw Hws].
    simpl. unfold wordPrefixCount. rewrite Hw.
    destruct (matchCount _ textLower); now apply IH.
Qed.

Lemma similarity_plain : forall query text boost,
    forallb isPlain
      (filter (fun w => (2 <? String.length w)%nat) (splitSpaces (toLowerCase query)))
    = true ->
    exists s, calculateAdvancedSimilarity host query text boost = Some s.
Proof.
  intros query text boost H. unfold calculateAdvancedSimilarity.
  match goal with
  | |- context [prefixScore host boost ?t ?w ?s] =>
      destruct (prefixScore_plain boost t w s H) as [x Hx]; rewrite Hx
  end.
  eexists. reflexivity.
Qed.

Lemma scoreExperience_plain : forall query queryLower es sections,
    forallb isPlain
      (filter (fun w => (2 <? String.length w)%nat) (splitSpaces (toLowerCase query)))
    = true ->
    exists out, scoreExperience host query queryLower es sections = Some out.
Proof.
  intros query queryLower es. induction es as [|exp es IH]; intros sections H.
  - now exists sections.
  - cbn [scoreExperience].
    destruct (similarity_plain query
                (exp_title exp ++ " " ++ exp_company exp ++ " " ++ exp_description exp)
                1.3%float H) as [sc Hsc].
    rewrite Hsc. now apply IH.
Qed.

Lemma Q_words_plain :
  forallb isPlain
    (filter (fun w => (2 <? String.length w)%nat) (splitSpaces (toLowerCase Q)))
  = true.
Proof. vm_compute. reflexivity. Qed.

Lemma Q_not_intro : test introRegex (toLowerCase Q) = false.
Proof. vm_compute. reflexivity. Qed.

Lemma Q_projects :
  arrIncludes "projects" (detectIntent Q) || includes "project" (toLowerCase Q)
  || includes "built" (toLowerCase Q) = true.
Proof. vm_compute. reflexivity. Qed.

Lemma Q_skills :
  arrIncludes "skills" (detectIntent Q) || includes "skill" (toLowerCase Q)
  || includes "expertise" (toLowerCase Q) = false.
Proof. vm_compute. reflexivity. Qed.

Lemma Q_experience :
  arrIncludes "experience" (detectIntent Q) || includes "experience" (toLowerCase Q)
  || includes "work" (toLowerCase Q) || includes "job" (toLowerCase Q) = true.
Proof. vm_compute. reflexivity. Qed.

Lemma Q_education :
  arrIncludes "education" (detectIntent Q) || includes "education" (toLowerCase Q)
  || includes "degree" (toLowerCase Q) || includes "university" (toLowerCase Q)
  || includes "master" (toLowerCase Q) || includes "bachelor" (toLowerCase Q) = false.
Proof. vm_compute. reflexivity. Qed.

Lemma Q_certifications :
  includes "certification" (toLowerCase Q) || includes "certified" (toLowerCase Q)
  || includes "cert" (toLowerCase Q) = false.
Proof. vm_compute. reflexivity. Qed.

Lemma Q_leadership :
  includes "leadership" (toLowerCase Q) || includes "leader" (toLowerCase Q)
  || includes "honor" (toLowerCase Q) || includes "award" (toLowerCase Q) = false.
Proof. vm_compute. reflexivity. Qed.

(** On a profile without projects the extraction for that question does not
    throw; it asks the profile for its experience only. *)
Lemma extract_projects_question : forall resume ctx,
    projects resume = None ->
    extractRelevantInfo host resume Q ctx
    = let ctx1 := askedAbout_add "experience"
                    (askedAbout_add "projects" (updateContext Q (detectIntent Q) ctx)) in
      match experience resume with
      | None => (Some (combineSections resume []), ctx1)
      | Some es =>
          match scoreExperience host Q (toLowerCase Q) es [] with
          | Some sections =>
              (Some (combineSections resume
                       (if (length (filter (fun s => String.eqb (type s) "experience")
                                           sections) =? 0)%nat
                        then List.app sections
                               (List.map (fun exp =>
                                            {| content := "EXPERIENCE: " ++ exp_title exp
                                                          ++ " at " ++ exp_company exp ++ nl
                                                          ++ exp_description exp;
                                               score := 0.5; type := "experience" |})
                                         (firstn 3 es))
                        else sections)), ctx1)
          | None => (None, ctx1)
          end
      end.
Proof.
  intros resume ctx Hp. unfold extractRelevantInfo.
  rewrite Q_not_intro.
  unfold projectsStep, skillsStep, experienceStep, educationStep,
    certificationsStep, leadershipStep.
  rewrite Q_projects, Q_skills, Q_experience, Q_education, Q_certifications,
    Q_leadership, Hp.
  unfold bind, ret, asked, lift. cbv zeta.
  destruct (experience resume) as [es|]; [|reflexivity].
  destruct (scoreExperience host Q (toLowerCase Q) es []) as [sections|];
    [|reflexivity].
  destruct (length (filter _ sections) =? 0)%nat; reflexivity.
Qed.
End ProjectsQuestion.

(** C6, as amended.  On a profile without a [projects] field the question
    "tell me about your projects" does not throw: the extraction returns a
    text, which is the general overview (name, summary, key skills) when the
    profile lists no experience either; and the call, unless it is served
    from the cache, resolves with the fixed paragraph on projects, whatever
    the profile is. *)
Theorem projects_question_without_projects :
  forall (host : string -> string -> option nat) (env : Env) (st : State)
         (resume : ResumeData) (ctx : ConversationContext),
    projects resume = None ->
    (exists info ctx',
        extractRelevantInfo host resume (normalizeQuery projectsQuestion) ctx
        = (Some info, ctx') /\
        (experience resume = None \/ experience resume = Some [] ->
         info = generalOverview resume)) /\
    match servedFromCache env projectsQuestion st with
    | Some r => generateRAGResponse host env projectsQuestion st = (Resolved r, st)
    | None =>
        fst (generateRAGResponse host env projectsQuestion st)
        = Resolved Text.projectResponse
    end.
Proof.
  intros host env st resume ctx Hp. split.
  - fold Q. rewrite (extract_projects_question host resume ctx Hp). cbv zeta.
    destruct (experience resume) as [es|] eqn:He.
    + destruct (scoreExperience_plain host Q (toLowerCase Q) es [] Q_words_plain)
        as [sections Hs].
      rewrite Hs. eexists _, _. split; [reflexivity|].
      intros [H|H]; [discriminate|]. injection H as ->.
      simpl in Hs. injection Hs as <-. reflexivity.
    + eexists _, _. split; [reflexivity|]. intros _. reflexivity.
  - destruct (servedFromCache env projectsQuestion st) as [r|] eqn:Hs.
    + now apply generateRAGResponse_hit.
    + rewrite (generateRAGResponse_miss host env projectsQuestion st Hs).
      rewrite (answer_afterExtraction host env projectsQuestion st EmptyString).
      reflexivity.
Qed.

(** A profile that lists nothing but skills. *)
Lemma projects_question_without_projects_witness :
  projects bareProfile = None /\
  fst (extractRelevantInfo rejectingHost bareProfile
         (normalizeQuery projectsQuestion) initialContext)
  = Some (generalOverview bareProfile) /\
  fst (generateRAGResponse rejectingHost (envAt 0 0.5) projectsQuestion
         (withProfile bareProfile))
  = Resolved Text.projectResponse.
Proof.
  split; [reflexivity|].
  destruct (projects_question_without_projects rejectingHost (envAt 0 0.5)
              (withProfile bareProfile) bareProfile initialContext eq_refl)
    as [(info & ctx' & He & Hi) Hg].
  split.
  - rewrite He. simpl. f_equal. apply Hi. now left.
  - exact Hg.
Defined.

(** C6, as claimed, fails: on a profile without projects the call answers
    "tell me about your projects" with the fixed paragraph on projects, which
    does not mention skills; and when the profile lists a position, the text
    that the extraction returns is that position, not the general overview. *)
Lemma projects_question_no_skills_summary :
  projects profileWithoutProjects = None /\
  fst (generateRAGResponse rejectingHost (envAt 0 0.5) projectsQuestion
         (withProfile profileWithoutProjects))
  = Resolved Text.projectResponse /\
  includes "skill" (toLowerCase Text.projectResponse) = false /\
  fst (extractRelevantInfo rejectingHost profileWithoutProjects
         (normalizeQuery projectsQuestion) initialContext)
  = Some ("EXPERIENCE: Business Analyst Intern at Love's Travel Stop" ++ nl
          ++ "Built analytics pipelines").
Proof. vm_compute. repeat split; reflexivity. Qed.

(** ** Strings: lower case, trimming, substrings *)

Section StringFacts.

Lemma lowerChar_idem : forall c, lowerChar (lowerChar c) = lowerChar c.
Proof.
  intros [b0 b1 b2 b3 b4 b5 b6 b7].
  destruct b0, b1, b2, b3, b4, b5, b6, b7; reflexivity.
Qed.

Lemma lowered_toLowerCase : forall s, allChars lowered (toLowerCase s) = true.
Proof.
  induction s as [|c s IH]; simpl; [reflexivity|].
  unfold lowered at 1. rewrite lowerChar_idem, Ascii.eqb_refl. exact IH.
Qed.

Lemma toLowerCase_lowered : forall s,
    allChars lowered s = true -> toLowerCase s = s.
Proof.
  induction s as [|c s IH]; simpl; [reflexivity|].
  intros H. apply andb_true_iff in H. destruct H as [Hc Hs].
  apply Ascii.eqb_eq in Hc. unfold toLowerCase in *. simpl. now rewrite Hc, IH.
Qed.

Lemma allChars_app : forall p s t,
    allChars p (s ++ t) = allChars p s && allChars p t.
Proof.
  intros p s t. induction s as [|c s IH]; simpl; [reflexivity|].
  now rewrite IH, andb_assoc.
Qed.

Lemma allChars_trimStart : forall p s,
    allChars p s = true -> allChars p (trimStart s) = true.
Proof.
  intros p s. induction s as [|c s IH]; simpl; [reflexivity|].
  intros H. apply andb_true_iff in H. destruct H as [Hc Hs].
  destruct (isSpace c); [now apply IH|]. simpl. now rewrite Hc, Hs.
Qed.

Lemma allChars_trimEnd : forall p s,
    allChars p s = true -> allChars p (trimEnd s) = true.
Proof.
  intros p s. induction s as [|c s IH]; simpl; [reflexivity|].
  intros H. apply andb_true_iff in H. destruct H as [Hc Hs].
  specialize (IH Hs). destruct (trimEnd s) as [|d t].
  - destruct (isSpace c); simpl; [reflexivity | now rewrite Hc].
  - simpl in *. now rewrite Hc.
Qed.

Lemma allChars_trim : forall p s,
    allChars p s = true -> allChars p (trim s) = true.
Proof. intros. unfold trim. now apply allChars_trimEnd, allChars_trimStart. Qed.

(** [trimEnd] keeps what is in front of a character that is not a space. *)
Lemma trimEnd_cons_nonspace : forall c s,
    isSpace c = false -> trimEnd (String c s) = String c (trimEnd s).
Proof.
  intros c s H. simpl. rewrite H. now destruct (trimEnd s).
Qed.

Lemma trimEnd_idem : forall s, trimEnd (trimEnd s) = trimEnd s.
Proof.
  induction s as [|c s IH]; [reflexivity|]. cbn [trimEnd].
  destruct (trimEnd s) as [|d t] eqn:E.
  - destruct (isSpace c) eqn:Hc; [reflexivity|]. simpl. now rewrite Hc.
  - change (trimEnd (String c (String d t)))
      with (match trimEnd (String d t) with
            | EmptyString => if isSpace c then EmptyString else String c EmptyString
            | String d' t' => String c (String d' t')
            end).
    now rewrite IH.
Qed.

Lemma trimStart_nonspace : forall c s,
    isSpace c = false -> trimStart (String c s) = String c s.
Proof. intros c s H. simpl. now rewrite H. Qed.

(** What [trimStart] returns is empty or starts with a character that is
    not a space. *)
Lemma trimStart_head : forall s,
    trimStart s = EmptyString \/
    exists c t, trimStart s = String c t /\ isSpace c = false.
Proof.
  induction s as [|c s IH]; simpl; [now left|].
  destruct (isSpace c) eqn:Hc; [exact IH|]. right. now exists c, s.
Qed.

Lemma trim_idem : forall s, trim (trim s) = trim s.
Proof.
  intros s. unfold trim.
  destruct (trimStart_head s) as [->|(c & t & -> & Hc)]; [reflexivity|].
  rewrite (trimEnd_cons_nonspace c t Hc).
  rewrite (trimStart_nonspace c (trimEnd t) Hc).
  rewrite (trimEnd_cons_nonspace c (trimEnd t) Hc).
  now rewrite trimEnd_idem.
Qed.

Lemma length_append : forall s t,
    String.length (s ++ t) = String.length s + String.length t.
Proof. induction s as [|c s IH]; intros t; simpl; auto. Qed.

Lemma startsWith_app_l : forall w s t,
    startsWith w s = true -> startsWith w (s ++ t) = true.
Proof.
  induction w as [|a w IH]; intros s t; [reflexivity|].
  destruct s as [|c s]; simpl; [discriminate|].
  destruct (Ascii.eqb a c); simpl; [apply IH | discriminate].
Qed.

Lemma includes_cons : forall w c s,
    includes w s = true -> includes w (String c s) = true.
Proof.
  intros w c s H. cbn [includes]. rewrite H. apply orb_true_r.
Qed.

Lemma includes_of_startsWith : forall w s,
    startsWith w s = true -> includes w s = true.
Proof. intros w s H. destruct s; simpl in *; now rewrite H. Qed.

Lemma includes_app_l : forall w s t,
    includes w s = true -> includes w (s ++ t) = true.
Proof.
  intros w s t. induction s as [|c s IH].
  - simpl. rewrite orb_false_r. intros H.
    destruct w; [|discriminate]. destruct t; reflexivity.
  - cbn [includes]. intros H. apply orb_true_iff in H. destruct H as [H|H].
    + apply includes_of_startsWith.
      now apply (startsWith_app_l w (String c s) t).
    + change (String c s ++ t) with (String c (s ++ t)).
      apply includes_cons. now apply IH.
Qed.
End StringFacts.

(** ** Words and separators *)

Section TokenFacts.

Lemma untok_tokens : forall s, untok (tokens s) = s.
Proof.
  induction s as [|c s IH]; [reflexivity|].
  cbn [tokens]. unfold consChar.
  destruct (isWordChar c).
  - destruct (tokens s) as [|[w|d] ts]; simpl in *; now rewrite IH.
  - simpl. now rewrite IH.
Qed.

Lemma tokens_normal : forall s, normal (tokens s) = true.
Proof.
  induction s as [|c s IH]; [reflexivity|].
  cbn [tokens]. unfold consChar.
  destruct (isWordChar c) eqn:Hc.
  - destruct (tokens s) as [|[w|d] ts]; simpl in *.
    + now rewrite Hc.
    + rewrite Hc. apply andb_true_iff in IH. destruct IH as [IH1 IH4].
      apply andb_true_iff in IH1. destruct IH1 as [IH1 IH3].
      apply andb_true_iff in IH1. destruct IH1 as [_ IH2].
      now rewrite IH2, IH3, IH4.
    + now rewrite Hc, IH.
  - simpl. now rewrite Hc, IH.
Qed.

Lemma startsWord_tokens : forall s,
    startsWord (tokens s) = isWordOpt (headOf s).
Proof.
  intros [|c s]; [reflexivity|]. cbn [tokens headOf isWordOpt]. unfold consChar.
  destruct (isWordChar c); [|reflexivity].
  now destruct (tokens s) as [|[w|d] ts].
Qed.

(** A word in front of something that does not start with a word character
    is one token. *)
Lemma tokens_word_app : forall w s,
    w <> EmptyString -> allChars isWordChar w = true ->
    startsWord (tokens s) = false ->
    tokens (w ++ s) = Word w :: tokens s.
Proof.
  induction w as [|c w IH]; intros s Hne Hall Hs; [congruence|].
  simpl in Hall. apply andb_true_iff in Hall. destruct Hall as [Hc Hw].
  change (String c w ++ s) with (String c (w ++ s)). cbn [tokens]. unfold consChar.
  rewrite Hc. destruct w as [|d w].
  - simpl. destruct (tokens s) as [|[w'|d'] ts]; [reflexivity | discriminate | reflexivity].
  - rewrite IH by (congruence || assumption). reflexivity.
Qed.

Lemma tokens_untok : forall ts, normal ts = true -> tokens (untok ts) = ts.
Proof.
  induction ts as [|[w|c] ts IH]; intros H; [reflexivity| |].
  - simpl in H.
    apply andb_true_iff in H. destruct H as [H H4].
    apply andb_true_iff in H. destruct H as [H H3].
    apply andb_true_iff in H. destruct H as [H1 H2].
    simpl. rewrite tokens_word_app.
    + now rewrite IH.
    + intros ->. discriminate.
    + exact H2.
    + rewrite IH by exact H4. now apply negb_true_iff.
  - simpl in H. apply andb_true_iff in H. destruct H as [Hc Hn].
    simpl. unfold consChar. apply negb_true_iff in Hc. rewrite Hc.
    now rewrite IH.
Qed.

(** A separator in front leaves the words as they are; a word character in
    front extends the first word or starts one. *)
Lemma wordsOf_cons : forall c s,
    wordsOf (String c s)
    = if isWordChar c
      then if isWordOpt (headOf s)
           then match wordsOf s with
                | w :: ws => String c w :: ws
                | [] => [String c EmptyString]
                end
           else String c EmptyString :: wordsOf s
      else wordsOf s.
Proof.
  intros c s. unfold wordsOf. cbn [tokens]. unfold consChar.
  rewrite <- startsWord_tokens.
  destruct (isWordChar c); [|reflexivity].
  now destruct (tokens s) as [|[w|d] ts].
Qed.

Lemma substTok_normal : forall t corr ts,
    corr <> EmptyString -> allChars isWordChar corr = true ->
    normal ts = true -> normal (List.map (substTok t corr) ts) = true.
Proof.
  intros t corr ts Hne Hall. induction ts as [|[w|c] ts IH]; intros H;
    [reflexivity| |].
  - simpl in H.
    apply andb_true_iff in H. destruct H as [H H4].
    apply andb_true_iff in H. destruct H as [H H3].
    apply andb_true_iff in H. destruct H as [H1 H2].
    cbn [List.map substTok normal]. rewrite (IH H4).
    assert (Hs : startsWord (List.map (substTok t corr) ts) = startsWord ts)
      by (now destruct ts as [|[w'|c'] ts']).
    rewrite Hs, H3. unfold substWord.
    destruct (String.eqb w t).
    + rewrite Hall. destruct corr; [congruence | reflexivity].
    + now rewrite H1, H2.
  - simpl in *. apply andb_true_iff in H. destruct H as [Hc Hn].
    now rewrite Hc, IH.
Qed.

Lemma wordsOfTokens_map : forall t corr ts,
    wordsOfTokens (List.map (substTok t corr) ts)
    = List.map (substWord t corr) (wordsOfTokens ts).
Proof.
  intros t corr ts. induction ts as [|[w|c] ts IH]; simpl; congruence.
Qed.
End TokenFacts.

(** ** Regular expressions: runs of a class *)

Section RunFacts.
Variable f : ascii -> bool.

Lemma runLen_le : forall s, runLen f s <= String.length s.
Proof.
  induction s as [|c s IH]; simpl; [lia|]. destruct (f c); simpl; lia.
Qed.

Lemma dropStr_length : forall n s,
    String.length (dropStr n s) = String.length s - n.
Proof.
  induction n as [|n IH]; intros s; simpl; [lia|].
  destruct s as [|c s]; simpl; [reflexivity | apply IH].
Qed.

(** The greedy star over a class takes the whole run when what follows it
    cannot fail. *)
Lemma star_class_loop : forall (A : Type) (k : option ascii -> string -> option A),
    (forall p s', k p s' <> None) ->
    forall n s prev,
      String.length s <= n ->
      (fix loop (n : nat) (prev : option ascii) (s : string) {struct n} : option A :=
         match n with
         | O => k prev s
         | S n' =>
             match rmatch (Class f) prev s
                     (fun p' s' =>
                        if (String.length s' <? String.length s)%nat
                        then loop n' p' s' else None) with
             | Some a => Some a
             | None => k prev s
             end
         end) n prev s
      = k (lastRun f prev s) (dropStr (runLen f s) s).
Proof.
  intros A k Hk. induction n as [|n IH]; intros s prev Hlen.
  - destruct s; [reflexivity | simpl in Hlen; lia].
  - destruct s as [|c s]; [reflexivity|].
    cbn [rmatch lastRun runLen]. destruct (f c) eqn:Hc; [|reflexivity].
    cbn [dropStr].
    replace (String.length s <? String.length (String c s))%nat with true
      by (symmetry; apply Nat.ltb_lt; simpl; lia).
    rewrite IH by (simpl in Hlen; lia).
    destruct (k (lastRun f (Some c) s) (dropStr (runLen f s) s)) eqn:E;
      [reflexivity|]. now apply Hk in E.
Qed.

Lemma rmatch_star_class : forall (A : Type) (k : option ascii -> string -> option A),
    (forall p s', k p s' <> None) ->
    forall s prev,
      rmatch (Star (Class f)) prev s k
      = k (lastRun f prev s) (dropStr (runLen f s) s).
Proof.
  intros A k Hk s prev.
  exact (star_class_loop A k Hk (String.length s) s prev (Nat.le_refl _)).
Qed.

(** [c+] matches, where a character of the class stands, the whole run. *)
Lemma matchAt_plus_class : forall prev s,
    matchAt (Plus (Class f)) prev s
    = match s with
      | String c s' => if f c then Some (S (runLen f s')) else None
      | EmptyString => None
      end.
Proof.
  intros prev s. unfold matchAt, Plus.
  destruct s as [|c s]; [reflexivity|].
  set (k := fun (_ : option ascii) (s' : string) =>
              Some (String.length (String c s) - String.length s')).
  change (rmatch (Seq (Class f) (Star (Class f))) prev (String c s) k)
    with (if f c then rmatch (Star (Class f)) (Some c) s k else None).
  destruct (f c); [|reflexivity].
  rewrite rmatch_star_class by discriminate. unfold k.
  rewrite dropStr_length. pose proof (runLen_le s) as H.
  f_equal. cbn [String.length]. lia.
Qed.

(** The global replacement of the runs of a class by a space. *)
Lemma replaceFrom_squeeze : forall s,
    (forall prev, replaceFrom (Plus (Class f)) " " 0 prev s = squeeze f false s) /\
    (forall prev, replaceFrom (Plus (Class f)) " " (runLen f s) prev s
                  = squeeze f true s).
Proof.
  induction s as [|c s [IH0 IH1]].
  - split; intros prev; reflexivity.
  - assert (H0 : forall prev,
               replaceFrom (Plus (Class f)) " " 0 prev (String c s)
               = squeeze f false (String c s)).
    { intros prev. cbn [replaceFrom]. rewrite matchAt_plus_class.
      cbn [squeeze]. destruct (f c).
      - rewrite IH1. reflexivity.
      - now rewrite IH0. }
    split; [exact H0|].
    intros prev. cbn [runLen squeeze]. destruct (f c) eqn:Hc.
    + cbn [replaceFrom]. apply IH1.
    + specialize (H0 prev). cbn [squeeze] in H0. now rewrite Hc in H0.
Qed.

Lemma replaceAll_squeeze : forall s,
    replaceAll (Plus (Class f)) " " s = squeeze f false s.
Proof. intros s. apply (proj1 (replaceFrom_squeeze s)). Qed.
End RunFacts.

Lemma cleanPunctuation_squeeze : forall s,
    cleanPunctuation s = trim (squeeze isSpace false (squeeze isPunct false s)).
Proof.
  intros s. unfold cleanPunctuation, Space, OneOf.
  now rewrite !replaceAll_squeeze.
Qed.

(** ** The cleaning of punctuation and white space *)

Section SqueezeFacts.
Variable f : ascii -> bool.

Lemma squeeze_flag : forall s,
    match headOf s with Some c => f c | None => false end = false ->
    squeeze f true s = squeeze f false s.
Proof. intros [|c s] H; simpl in *; [reflexivity | now rewrite H]. Qed.

Lemma squeeze_none : forall s b,
    allChars (fun c => negb (f c)) s = true -> squeeze f b s = s.
Proof.
  induction s as [|c s IH]; intros b H; simpl in *; [reflexivity|].
  apply andb_true_iff in H. destruct H as [Hc Hs].
  apply negb_true_iff in Hc. rewrite Hc. now rewrite IH.
Qed.

Lemma allChars_squeeze : forall (p : ascii -> bool) s b,
    p " "%char = true -> allChars p s = true -> allChars p (squeeze f b s) = true.
Proof.
  intros p s. induction s as [|c s IH]; intros b Hsp H; simpl in *; [reflexivity|].
  apply andb_true_iff in H. destruct H as [Hc Hs].
  destruct (f c); [destruct b|]; simpl; rewrite ?Hsp, ?Hc; simpl; now apply IH.
Qed.

Lemma squeeze_no_class : forall s b,
    f " "%char = false ->
    allChars (fun c => negb (f c)) (squeeze f b s) = true.
Proof.
  induction s as [|c s IH]; intros b Hsp; simpl; [reflexivity|].
  destruct (f c) eqn:Hc; [destruct b|]; simpl; rewrite ?Hsp, ?Hc; simpl; now apply IH.
Qed.

Hypothesis class_not_word : forall c, f c = true -> isWordChar c = false.

Lemma squeeze_head_word : forall s,
    isWordOpt (headOf (squeeze f false s)) = isWordOpt (headOf s).
Proof.
  intros [|c s]; [reflexivity|]. simpl.
  destruct (f c) eqn:Hc; [|reflexivity]. simpl. symmetry. now apply class_not_word.
Qed.

(** Squeezing the runs of a class that has no word character leaves the
    words as they are. *)
Lemma wordsOf_squeeze : forall s b, wordsOf (squeeze f b s) = wordsOf s.
Proof.
  induction s as [|c s IH]; intros b; [reflexivity|].
  cbn [squeeze]. destruct (f c) eqn:Hc.
  - rewrite (wordsOf_cons c s), (class_not_word c Hc).
    destruct b; [apply IH|].
    rewrite wordsOf_cons. change (isWordChar " ") with false. apply IH.
  - rewrite !wordsOf_cons, squeeze_head_word, IH. reflexivity.
Qed.

Lemma startsWith_squeeze : forall w s b,
    allChars (fun c => negb (f c)) w = true ->
    startsWith w s = true ->
    w <> EmptyString \/ b = false ->
    startsWith w (squeeze f b s) = true.
Proof.
  induction w as [|a w IH]; intros s b Hw Hs Hb; [reflexivity|].
  destruct s as [|c s]; [discriminate|].
  simpl in Hw, Hs. apply andb_true_iff in Hw, Hs.
  destruct Hw as [Ha Hw], Hs as [Hac Hs].
  apply Ascii.eqb_eq in Hac. subst c. apply negb_true_iff in Ha.
  cbn [squeeze]. rewrite Ha. cbn [startsWith]. rewrite Ascii.eqb_refl.
  apply IH; auto.
Qed.

Lemma includes_squeeze : forall w s b,
    w <> EmptyString ->
    allChars (fun c => negb (f c)) w = true ->
    includes w s = true -> includes w (squeeze f b s) = true.
Proof.
  intros w s. induction s as [|c s IH]; intros b Hne Hw H.
  - simpl in H. rewrite orb_false_r in H. destruct w; [congruence | discriminate].
  - cbn [includes] in H. apply orb_true_iff in H. destruct H as [H|H].
    + apply includes_of_startsWith. apply startsWith_squeeze; auto.
    + cbn [squeeze]. destruct (f c); [destruct b|];
        try apply includes_cons; now apply IH.
Qed.
End SqueezeFacts.

Section CleanFacts.

Lemma space_not_word : forall c, isSpace c = true -> isWordChar c = false.
Proof.
  intros [b0 b1 b2 b3 b4 b5 b6 b7].
  destruct b0, b1, b2, b3, b4, b5, b6, b7; vm_compute; congruence.
Qed.

Lemma punct_not_word : forall c, isPunct c = true -> isWordChar c = false.
Proof.
  intros [b0 b1 b2 b3 b4 b5 b6 b7].
  destruct b0, b1, b2, b3, b4, b5, b6, b7; vm_compute; congruence.
Qed.

Lemma squeeze_space_normal : forall s b,
    spaceNormal (squeeze isSpace b s) = true /\
    (b = true ->
     match headOf (squeeze isSpace true s) with
     | Some d => isSpace d
     | None => false
     end = false).
Proof.
  induction s as [|c s IH]; intros b; [split; reflexivity|].
  cbn [squeeze]. destruct (isSpace c) eqn:Hc.
  - destruct b.
    + destruct (IH true) as [H1 H2]. split; [exact H1 | intros _; now apply H2].
    + destruct (IH true) as [H1 H2]. split; [|discriminate].
      cbn [spaceNormal]. change (isSpace " ") with true.
      rewrite Ascii.eqb_refl, (H2 eq_refl), H1. reflexivity.
  - destruct (IH false) as [H1 _]. split.
    + cbn [spaceNormal]. now rewrite Hc, H1.
    + intros _. simpl. exact Hc.
Qed.

Lemma squeeze_space_id : forall s,
    spaceNormal s = true -> squeeze isSpace false s = s.
Proof.
  induction s as [|c s IH]; intros H; [reflexivity|].
  cbn [spaceNormal] in H. apply andb_true_iff in H. destruct H as [Hc Hs].
  cbn [squeeze]. destruct (isSpace c) eqn:Hsp.
  - apply andb_true_iff in Hc. destruct Hc as [Hc Hh].
    apply Ascii.eqb_eq in Hc. subst c. apply negb_true_iff in Hh.
    rewrite squeeze_flag by exact Hh. now rewrite IH.
  - now rewrite IH.
Qed.

Lemma spaceNormal_trimStart : forall s,
    spaceNormal s = true -> spaceNormal (trimStart s) = true.
Proof.
  induction s as [|c s IH]; intros H; [reflexivity|].
  cbn [trimStart]. destruct (isSpace c); [|exact H].
  cbn [spaceNormal] in H. apply andb_true_iff in H. now apply IH.
Qed.

Lemma trimEnd_head_nonspace : forall s,
    match headOf s with Some d => isSpace d | None => false end = false ->
    match headOf (trimEnd s) with Some d => isSpace d | None => false end = false.
Proof.
  intros [|c s] H; [reflexivity|]. simpl in H.
  rewrite trimEnd_cons_nonspace by exact H. exact H.
Qed.

Lemma spaceNormal_trimEnd : forall s,
    spaceNormal s = true -> spaceNormal (trimEnd s) = true.
Proof.
  induction s as [|c s IH]; intros H; [reflexivity|].
  cbn [spaceNormal] in H. apply andb_true_iff in H. destruct H as [Hc Hs].
  specialize (IH Hs). cbn [trimEnd].
  destruct (trimEnd s) as [|d t] eqn:E.
  - destruct (isSpace c) eqn:Hsp; [reflexivity|]. simpl. now rewrite Hsp.
  - cbn [spaceNormal] in *. rewrite IH, andb_true_r.
    destruct (isSpace c) eqn:Hsp; [|reflexivity].
    apply andb_true_iff in Hc. destruct Hc as [Hc Hh]. rewrite Hc. simpl.
    apply negb_true_iff in Hh. apply trimEnd_head_nonspace in Hh.
    rewrite E in Hh. simpl in Hh. now rewrite Hh.
Qed.

(** What the cleaning returns: no punctuation, single spaces, trimmed. *)
Lemma cleanPunctuation_shape : forall s,
    allChars notPunct (cleanPunctuation s) = true /\
    spaceNormal (cleanPunctuation s) = true /\
    trim (cleanPunctuation s) = cleanPunctuation s.
Proof.
  intros s. rewrite cleanPunctuation_squeeze. split; [|split].
  - apply allChars_trim. apply allChars_squeeze; [reflexivity|].
    apply (squeeze_no_class isPunct). reflexivity.
  - unfold trim. apply spaceNormal_trimEnd, spaceNormal_trimStart.
    apply squeeze_space_normal.
  - apply trim_idem.
Qed.

(** A string of that shape is left as it is. *)
Lemma cleanPunctuation_fixed : forall s,
    allChars notPunct s = true -> spaceNormal s = true -> trim s = s ->
    cleanPunctuation s = s.
Proof.
  intros s H1 H2 H3. rewrite cleanPunctuation_squeeze.
  rewrite (squeeze_none isPunct s false H1).
  now rewrite (squeeze_space_id s H2).
Qed.

Lemma cleanPunctuation_idem : forall s,
    cleanPunctuation (cleanPunctuation s) = cleanPunctuation s.
Proof.
  intros s. destruct (cleanPunctuation_shape s) as (H1 & H2 & H3).
  now apply cleanPunctuation_fixed.
Qed.

Lemma cleanPunctuation_lowered : forall s,
    allChars lowered s = true -> allChars lowered (cleanPunctuation s) = true.
Proof.
  intros s H. rewrite cleanPunctuation_squeeze.
  apply allChars_trim. repeat apply allChars_squeeze; auto.
Qed.
End CleanFacts.

Section CleanWords.

Lemma wordsOf_trimStart : forall s, wordsOf (trimStart s) = wordsOf s.
Proof.
  induction s as [|c s IH]; [reflexivity|].
  cbn [trimStart]. destruct (isSpace c) eqn:Hc; [|reflexivity].
  now rewrite wordsOf_cons, (space_not_word c Hc).
Qed.

Lemma wordsOf_trimEnd : forall s,
    wordsOf (trimEnd s) = wordsOf s /\
    isWordOpt (headOf (trimEnd s)) = isWordOpt (headOf s).
Proof.
  induction s as [|c s [IHw IHh]]; [split; reflexivity|].
  cbn [trimEnd]. destruct (trimEnd s) as [|d t] eqn:E.
  - destruct (isSpace c) eqn:Hc.
    + rewrite wordsOf_cons, (space_not_word c Hc). split; [exact IHw|].
      simpl. symmetry. now apply space_not_word.
    + split; [|reflexivity].
      rewrite (wordsOf_cons c EmptyString), (wordsOf_cons c s), <- IHh, <- IHw.
      reflexivity.
  - split; [|reflexivity].
    rewrite (wordsOf_cons c (String d t)), (wordsOf_cons c s), <- IHh, <- IHw.
    reflexivity.
Qed.

(** The cleaning leaves the words of a string as they are. *)
Lemma wordsOf_cleanPunctuation : forall s, wordsOf (cleanPunctuation s) = wordsOf s.
Proof.
  intros s. rewrite cleanPunctuation_squeeze. unfold trim.
  rewrite (proj1 (wordsOf_trimEnd _)), wordsOf_trimStart.
  rewrite (wordsOf_squeeze isSpace space_not_word).
  apply (wordsOf_squeeze isPunct punct_not_word).
Qed.

Lemma includes_empty : forall w, includes w EmptyString = true -> w = EmptyString.
Proof. intros [|a w]; [reflexivity | discriminate]. Qed.

Lemma includes_trimStart : forall w s,
    w <> EmptyString -> allChars (fun c => negb (isSpace c)) w = true ->
    includes w s = true -> includes w (trimStart s) = true.
Proof.
  intros w s Hne Hw. induction s as [|c s IH]; intros H; [exact H|].
  cbn [trimStart]. destruct (isSpace c) eqn:Hc; [|exact H].
  cbn [includes] in H. apply orb_true_iff in H. destruct H as [H|H]; [|now apply IH].
  destruct w as [|a w]; [congruence|]. simpl in H, Hw.
  apply andb_true_iff in H. destruct H as [Hac _]. apply Ascii.eqb_eq in Hac. subst a.
  rewrite Hc in Hw. discriminate.
Qed.

Lemma startsWith_trimEnd : forall w s,
    allChars (fun c => negb (isSpace c)) w = true ->
    startsWith w s = true -> startsWith w (trimEnd s) = true.
Proof.
  induction w as [|a w IH]; intros s Hw Hs; [reflexivity|].
  destruct s as [|c s]; [discriminate|].
  simpl in Hw, Hs. apply andb_true_iff in Hw, Hs.
  destruct Hw as [Ha Hw], Hs as [Hac Hs].
  apply Ascii.eqb_eq in Hac. subst c. apply negb_true_iff in Ha.
  rewrite (trimEnd_cons_nonspace a s Ha). cbn [startsWith].
  rewrite Ascii.eqb_refl. now apply IH.
Qed.

Lemma includes_trimEnd : forall w s,
    w <> EmptyString -> allChars (fun c => negb (isSpace c)) w = true ->
    includes w s = true -> includes w (trimEnd s) = true.
Proof.
  intros w s Hne Hw. induction s as [|c s IH]; intros H; [exact H|].
  cbn [includes] in H. apply orb_true_iff in H. destruct H as [H|H].
  - apply includes_of_startsWith. now apply startsWith_trimEnd.
  - specialize (IH H). cbn [trimEnd].
    destruct (trimEnd s) as [|d t]; [now apply includes_empty in IH|].
    now apply includes_cons.
Qed.

Lemma solid_parts : forall w,
    allChars solid w = true ->
    allChars (fun c => negb (isSpace c)) w = true /\
    allChars (fun c => negb (isPunct c)) w = true.
Proof.
  induction w as [|a w IH]; intros H; [split; reflexivity|].
  simpl in H. apply andb_true_iff in H. destruct H as [Ha Hw].
  unfold solid in Ha. apply andb_true_iff in Ha. destruct Ha as [H1 H2].
  destruct (IH Hw) as [IH1 IH2]. simpl. now rewrite H1, H2, IH1, IH2.
Qed.

(** A word without white space or punctuation that occurs in a string
    occurs in the cleaned string. *)
Lemma includes_cleanPunctuation : forall w s,
    w <> EmptyString -> allChars solid w = true ->
    includes w s = true -> includes w (cleanPunctuation s) = true.
Proof.
  intros w s Hne Hw H. destruct (solid_parts w Hw) as [Hsp Hpu].
  rewrite cleanPunctuation_squeeze. unfold trim.
  apply includes_trimEnd; auto. apply includes_trimStart; auto.
  apply includes_squeeze; auto. apply includes_squeeze; auto.
Qed.
End CleanWords.

(** ** Regular expressions: a whole word *)

Lemma dropStr_app_length : forall w v, dropStr (String.length w) (w ++ v) = v.
Proof. induction w as [|c w IH]; intros v; simpl; auto. Qed.

Lemma lastOf_word : forall w prev,
    w <> EmptyString -> allChars isWordChar w = true ->
    isWordOpt (lastOf prev w) = true.
Proof.
  induction w as [|c w IH]; intros prev Hne Hw; [congruence|].
  simpl in Hw. apply andb_true_iff in Hw. destruct Hw as [Hc Hw].
  cbn [lastOf]. destruct w as [|d w]; [exact Hc|].
  apply IH; [discriminate | exact Hw].
Qed.

Lemma word_char_neq : forall a d,
    isWordChar a = true -> isWordChar d = false -> Ascii.eqb a d = false.
Proof.
  intros a d Ha Hd. destruct (Ascii.eqb_spec a d); [congruence | reflexivity].
Qed.

(** At the start of a word, a word [u] is matched as a whole word when the
    word is [u]. *)
Lemma typo_at_word : forall u w v,
    allChars isWordChar u = true -> allChars isWordChar w = true ->
    isWordOpt (headOf v) = false ->
    startsWith u (w ++ v)
    && negb (isWordOpt (headOf (dropStr (String.length u) (w ++ v))))
    = String.eqb w u.
Proof.
  induction u as [|a u IH]; intros w v Hu Hw Hv.
  - simpl. destruct w as [|c w]; simpl.
    + now rewrite Hv.
    + simpl in Hw. apply andb_true_iff in Hw. destruct Hw as [Hc _]. now rewrite Hc.
  - simpl in Hu. apply andb_true_iff in Hu. destruct Hu as [Ha Hu].
    destruct w as [|c w].
    + simpl. destruct v as [|d v]; [reflexivity|]. simpl in Hv.
      now rewrite (word_char_neq a d Ha Hv).
    + simpl in Hw. apply andb_true_iff in Hw. destruct Hw as [Hc Hw].
      change (String c w ++ v) with (String c (w ++ v)).
      cbn [startsWith String.length dropStr String.eqb].
      rewrite <- andb_assoc, (IH w v Hu Hw Hv). now rewrite Ascii.eqb_sym.
Qed.

Lemma startsWith_word_sep : forall u c v,
    u <> EmptyString -> allChars isWordChar u = true -> isWordChar c = false ->
    startsWith u (String c v) = false.
Proof.
  intros [|a u] c v Hne Hu Hc; [congruence|].
  simpl in Hu. apply andb_true_iff in Hu. destruct Hu as [Ha _].
  cbn [startsWith]. now rewrite (word_char_neq a c Ha Hc).
Qed.

Lemma startsWith_nonempty_end : forall u,
    u <> EmptyString -> startsWith u EmptyString = false.
Proof. intros [|a u] H; [congruence | reflexivity]. Qed.

Section WholeWord.
Variables t corr : string.
Hypothesis t_nonempty : t <> EmptyString.
Hypothesis t_word : allChars isWordChar t = true.

(** [\bt\b] at a position: the word boundary, the literal, the word
    boundary. *)
Lemma matchAt_typo : forall prev s,
    matchAt (typoRegex t) prev s
    = if xorb (isWordOpt prev) (isWordOpt (headOf s))
         && startsWith t s
         && negb (isWordOpt (headOf (dropStr (String.length t) s)))
      then Some (String.length s - String.length (dropStr (String.length t) s))
      else None.
Proof.
  intros prev s. unfold matchAt, typoRegex.
  change (Seqs [WordB; Str t; WordB]) with (Seq WordB (Seq (Str t) WordB)).
  cbn [rmatch].
  destruct (xorb (isWordOpt prev) (isWordOpt (headOf s))); [|reflexivity].
  rewrite rmatch_Str. destruct (startsWith t s); [|reflexivity].
  rewrite (lastOf_word t prev t_nonempty t_word). simpl xorb.
  destruct (isWordOpt (headOf (dropStr (String.length t) s))); reflexivity.
Qed.

Lemma matchAt_typo_word : forall prev w v,
    isWordOpt prev = false ->
    w <> EmptyString -> allChars isWordChar w = true ->
    isWordOpt (headOf v) = false ->
    matchAt (typoRegex t) prev (w ++ v)
    = if String.eqb w t then Some (String.length t) else None.
Proof.
  intros prev w v Hp Hne Hw Hv. rewrite matchAt_typo, Hp.
  assert (Hh : isWordOpt (headOf (w ++ v)) = true).
  { destruct w as [|c w]; [congruence|]. simpl in *.
    apply andb_true_iff in Hw. tauto. }
  rewrite Hh. simpl xorb. rewrite andb_true_l.
  rewrite (typo_at_word t w v t_word Hw Hv).
  destruct (String.eqb_spec w t) as [->|]; [|reflexivity].
  rewrite dropStr_app_length, length_append. f_equal. lia.
Qed.

Lemma matchAt_typo_sep : forall prev c v,
    isWordChar c = false -> matchAt (typoRegex t) prev (String c v) = None.
Proof.
  intros prev c v Hc. rewrite matchAt_typo.
  rewrite (startsWith_word_sep t c v t_nonempty t_word Hc).
  now rewrite andb_false_r.
Qed.

Lemma matchAt_typo_end : forall prev, matchAt (typoRegex t) prev EmptyString = None.
Proof.
  intros prev. rewrite matchAt_typo.
  rewrite (startsWith_nonempty_end t t_nonempty). now rewrite andb_false_r.
Qed.

Lemma matchAt_typo_inside : forall p c v,
    isWordChar p = true -> isWordChar c = true ->
    matchAt (typoRegex t) (Some p) (String c v) = None.
Proof. intros p c v Hp Hc. rewrite matchAt_typo. simpl. now rewrite Hp, Hc. Qed.

(** Inside a word nothing is replaced. *)
Lemma replaceFrom_inside : forall w p v,
    isWordChar p = true -> allChars isWordChar w = true ->
    replaceFrom (typoRegex t) corr 0 (Some p) (w ++ v)
    = w ++ replaceFrom (typoRegex t) corr 0 (lastOf (Some p) w) v.
Proof.
  induction w as [|c w IH]; intros p v Hp Hw; [reflexivity|].
  simpl in Hw. apply andb_true_iff in Hw. destruct Hw as [Hc Hw].
  change (String c w ++ v) with (String c (w ++ v)).
  cbn [replaceFrom]. rewrite (matchAt_typo_inside p c (w ++ v) Hp Hc).
  rewrite (IH c v Hc Hw). reflexivity.
Qed.

Lemma replaceFrom_skip : forall w prev v,
    replaceFrom (typoRegex t) corr (String.length w) prev (w ++ v)
    = replaceFrom (typoRegex t) corr 0 (lastOf prev w) v.
Proof.
  induction w as [|c w IH]; intros prev v; [reflexivity|].
  change (String c w ++ v) with (String c (w ++ v)).
  cbn [String.length replaceFrom lastOf]. apply IH.
Qed.

Lemma untok_head : forall ts,
    normal ts = true -> isWordOpt (headOf (untok ts)) = startsWord ts.
Proof.
  intros ts H. rewrite <- startsWord_tokens. now rewrite tokens_untok.
Qed.

(** The global replacement of [\bt\b], word by word. *)
Lemma replaceFrom_tokens : forall ts prev,
    normal ts = true ->
    isWordOpt prev = false \/ startsWord ts = false ->
    replaceFrom (typoRegex t) corr 0 prev (untok ts)
    = untok (List.map (substTok t corr) ts).
Proof.
  induction ts as [|[w|c] ts IH]; intros prev Hn Hp.
  - simpl. now rewrite matchAt_typo_end.
  - destruct Hp as [Hp|Hp]; [|discriminate].
    simpl in Hn.
    apply andb_true_iff in Hn. destruct Hn as [Hn H4].
    apply andb_true_iff in Hn. destruct Hn as [Hn H3].
    apply andb_true_iff in Hn. destruct Hn as [H1 H2].
    apply negb_true_iff in H3.
    assert (Hne : w <> EmptyString) by (intros ->; discriminate).
    assert (Hv : isWordOpt (headOf (untok ts)) = false)
      by (now rewrite untok_head).
    cbn [untok List.map substTok]. unfold substWord.
    pose proof (matchAt_typo_word prev w (untok ts) Hp Hne H2 Hv) as Hm.
    destruct w as [|a w]; [congruence|].
    simpl in H2. apply andb_true_iff in H2. destruct H2 as [Ha Hw].
    change (String a w ++ untok ts) with (String a (w ++ untok ts)) in *.
    cbn [replaceFrom]. rewrite Hm.
    destruct (String.eqb_spec (String a w) t) as [E|E].
    + replace (String.length t) with (S (String.length w))
        by (rewrite <- E; reflexivity).
      rewrite replaceFrom_skip. now rewrite IH by auto.
    + rewrite (replaceFrom_inside w a (untok ts) Ha Hw).
      now rewrite IH by auto.
  - simpl in Hn. apply andb_true_iff in Hn. destruct Hn as [Hc Hn].
    apply negb_true_iff in Hc.
    cbn [untok List.map substTok replaceFrom].
    rewrite (matchAt_typo_sep prev c (untok ts) Hc).
    rewrite IH; auto.
Qed.

Lemma replaceAll_typo : forall s,
    replaceAll (typoRegex t) corr s = untok (List.map (substTok t corr) (tokens s)).
Proof.
  intros s. unfold replaceAll. rewrite <- (untok_tokens s) at 1.
  apply replaceFrom_tokens; [apply tokens_normal | now left].
Qed.
End WholeWord.

(** What a global replacement returns is made of the characters of the
    input and of the replacement. *)
Lemma allChars_replaceFrom : forall (p : ascii -> bool) r rep s skip prev,
    allChars p rep = true -> allChars p s = true ->
    allChars p (replaceFrom r rep skip prev s) = true.
Proof.
  intros p r rep s. induction s as [|c s IH]; intros skip prev Hrep Hs.
  - destruct skip; simpl; [|reflexivity].
    destruct (matchAt r prev EmptyString) as [[|k]|]; simpl;
      rewrite ?allChars_app, ?Hrep; reflexivity.
  - simpl in Hs. apply andb_true_iff in Hs. destruct Hs as [Hc Hs].
    destruct skip as [|k]; cbn [replaceFrom]; [|now apply IH].
    destruct (matchAt r prev (String c s)) as [[|k]|];
      rewrite ?allChars_app, ?Hrep; simpl; rewrite ?Hc; simpl; now apply IH.
Qed.

(** ** The normaliser *)

Section TypoTable.

Lemma typo_table_wordy : forallb wordyPair TYPO_CORRECTIONS = true.
Proof. vm_compute. reflexivity. Qed.

Lemma corrections_lowered :
  forallb (fun tc : string * string => allChars lowered (snd tc)) TYPO_CORRECTIONS = true.
Proof. vm_compute. reflexivity. Qed.

Lemma corrections_not_typos :
  forallb (fun tc : string * string =>
             negb (existsb (String.eqb (snd tc)) (List.map fst TYPO_CORRECTIONS)))
          TYPO_CORRECTIONS = true.
Proof. vm_compute. reflexivity. Qed.

Lemma synonym_roots_solid :
  forallb (fun ws : string * list string =>
             negb (String.eqb (fst ws) EmptyString) && allChars solid (fst ws))
          SYNONYMS = true.
Proof. vm_compute. reflexivity. Qed.

Lemma wordyPair_parts : forall tc,
    wordyPair tc = true ->
    fst tc <> EmptyString /\ allChars isWordChar (fst tc) = true /\
    snd tc <> EmptyString /\ allChars isWordChar (snd tc) = true.
Proof.
  intros [t c]. unfold wordyPair. simpl. intros H.
  apply andb_true_iff in H. destruct H as [H H4].
  apply andb_true_iff in H. destruct H as [H H3].
  apply andb_true_iff in H. destruct H as [H1 H2].
  repeat split; auto; intros ->; discriminate.
Qed.

(** The corrections of a table of words, one global replacement each, are
    the corrections applied word by word. *)
Lemma fold_typos_tokens : forall table ts,
    forallb wordyPair table = true -> normal ts = true ->
    fold_left (fun normalized tc => replaceAll (typoRegex (fst tc)) (snd tc) normalized)
              table (untok ts)
    = untok (fixTokens table ts)
    /\ normal (fixTokens table ts) = true.
Proof.
  induction table as [|tc table IH]; intros ts Hw Hn; [now split|].
  simpl in Hw. apply andb_true_iff in Hw. destruct Hw as [Htc Hw].
  destruct (wordyPair_parts tc Htc) as (H1 & H2 & H3 & H4).
  cbn [fold_left fixTokens].
  rewrite (replaceAll_typo (fst tc) (snd tc) H1 H2 (untok ts)).
  rewrite (tokens_untok ts Hn).
  apply IH; [exact Hw|]. now apply substTok_normal.
Qed.

Lemma fixTypos_tokens : forall s,
    fixTypos s = untok (fixTokens TYPO_CORRECTIONS (tokens s)).
Proof.
  intros s. unfold fixTypos. rewrite <- (untok_tokens s) at 1.
  apply fold_typos_tokens; [exact typo_table_wordy | apply tokens_normal].
Qed.

Lemma wordsOfTokens_fixTokens : forall table ts,
    wordsOfTokens (fixTokens table ts)
    = List.map (fun w => fold_left (fun w tc => substWord (fst tc) (snd tc) w) table w)
               (wordsOfTokens ts).
Proof.
  induction table as [|tc table IH]; intros ts.
  - simpl. now rewrite map_id.
  - cbn [fixTokens fold_left]. fold (fixTokens table).
    change (fold_left (fun ts0 tc0 => List.map (substTok (fst tc0) (snd tc0)) ts0) table
                      (List.map (substTok (fst tc) (snd tc)) ts))
      with (fixTokens table (List.map (substTok (fst tc) (snd tc)) ts)).
    rewrite IH, wordsOfTokens_map, map_map. reflexivity.
Qed.

Lemma substTok_other : forall t corr ts,
    ~ In t (wordsOfTokens ts) -> List.map (substTok t corr) ts = ts.
Proof.
  intros t corr ts. induction ts as [|[w|c] ts IH]; intros H; simpl in *;
    [reflexivity| |].
  - unfold substWord. destruct (String.eqb_spec w t) as [->|_]; [tauto|].
    rewrite IH; tauto.
  - now rewrite IH.
Qed.

Lemma fixTokens_fixed : forall table ts,
    (forall w, In w (wordsOfTokens ts) -> ~ In w (List.map fst table)) ->
    fixTokens table ts = ts.
Proof.
  induction table as [|tc table IH]; intros ts H; [reflexivity|].
  cbn [fixTokens fold_left].
  rewrite substTok_other by (intros Hin; apply (H _ Hin); now left).
  apply IH. intros w Hw Hin. apply (H w Hw). now right.
Qed.

(** A word that went through the corrections of a table none of whose
    corrections is a typo is not a typo. *)
Lemma fold_subst_avoids : forall table done w,
    (forall tc, In tc table -> ~ In (snd tc) (done ++ List.map fst table)) ->
    ~ In w done ->
    ~ In (fold_left (fun w tc => substWord (fst tc) (snd tc) w) table w)
         (done ++ List.map fst table).
Proof.
  induction table as [|[t c] table IH]; intros done w Hc Hw.
  - simpl. now rewrite app_nil_r.
  - cbn [fold_left List.map fst snd].
    replace (done ++ t :: List.map fst table)%list
      with ((done ++ [t]) ++ List.map fst table)%list
      by (now rewrite <- app_assoc).
    apply IH.
    + intros tc Htc. rewrite <- app_assoc. apply (Hc tc). now right.
    + unfold substWord. destruct (String.eqb_spec w t) as [->|Hne].
      * intros Hin. apply (Hc (t, c)); [now left|].
        simpl. apply in_app_iff in Hin. apply in_app_iff.
        destruct Hin as [Hin|[<-|[]]]; [now left|].
        (* the correction would be its own typo *)
        right. now left.
      * intros Hin. apply in_app_iff in Hin.
        destruct Hin as [Hin|[E|[]]]; [tauto | congruence].
Qed.

Lemma fixWord_not_typo : forall w, ~ In (fixWord w) (List.map fst TYPO_CORRECTIONS).
Proof.
  intros w.
  apply (fold_subst_avoids TYPO_CORRECTIONS [] w); [|tauto].
  intros tc Htc. simpl app.
  pose proof corrections_not_typos as H. rewrite forallb_forall in H.
  specialize (H tc Htc). apply negb_true_iff in H.
  intros Hin. assert (Hex : existsb (String.eqb (snd tc)) (List.map fst TYPO_CORRECTIONS) = true).
  { apply existsb_exists. exists (snd tc). split; [exact Hin | apply String.eqb_refl]. }
  congruence.
Qed.

Lemma wordsOf_fixTypos : forall s,
    wordsOf (fixTypos s) = List.map fixWord (wordsOf s).
Proof.
  intros s. rewrite fixTypos_tokens. unfold wordsOf.
  destruct (fold_typos_tokens TYPO_CORRECTIONS (tokens s) typo_table_wordy
              (tokens_normal s)) as [_ Hn].
  rewrite (tokens_untok _ Hn). apply wordsOfTokens_fixTokens.
Qed.

(** A string none of whose words is a typo is left as it is. *)
Lemma fixTypos_fixed : forall s,
    (forall w, In w (wordsOf s) -> ~ In w (List.map fst TYPO_CORRECTIONS)) ->
    fixTypos s = s.
Proof.
  intros s H. rewrite fixTypos_tokens, fixTokens_fixed by exact H.
  apply untok_tokens.
Qed.

Lemma fixTypos_lowered : forall s,
    allChars lowered s = true -> allChars lowered (fixTypos s) = true.
Proof.
  intros s. unfold fixTypos. pose proof corrections_lowered as H.
  revert s H. generalize TYPO_CORRECTIONS as table.
  induction table as [|tc table IH]; intros s H Hs; [exact Hs|].
  simpl in H. apply andb_true_iff in H. destruct H as [Hc H].
  cbn [fold_left]. apply IH; [exact H|].
  unfold replaceAll. now apply allChars_replaceFrom.
Qed.
End TypoTable.

Section Synonyms.

(** When no root word occurs in what the expansion returns, nothing was
    appended. *)
Lemma fold_synonyms_fixed : forall table s,
    (forall ws, In ws table ->
       includes (fst ws)
         (fold_left (fun normalized ws =>
                       if includes (fst ws) normalized
                       then normalized ++ " " ++ join " " (snd ws)
                       else normalized) table s) = false) ->
    fold_left (fun normalized ws =>
                 if includes (fst ws) normalized
                 then normalized ++ " " ++ join " " (snd ws)
                 else normalized) table s = s.
Proof.
  induction table as [|ws table IH]; intros s H; [reflexivity|].
  cbn [fold_left] in *.
  assert (Hrest : fold_left (fun normalized ws =>
                               if includes (fst ws) normalized
                               then normalized ++ " " ++ join " " (snd ws)
                               else normalized) table
                            (if includes (fst ws) s
                             then s ++ " " ++ join " " (snd ws) else s)
                  = (if includes (fst ws) s
                     then s ++ " " ++ join " " (snd ws) else s)).
  { apply IH. intros ws' Hin. apply H. now right. }
  specialize (H ws (or_introl eq_refl)). rewrite Hrest in H |- *.
  destruct (includes (fst ws) s) eqn:Hi; [|reflexivity].
  rewrite (includes_app_l _ _ _ Hi) in H. discriminate.
Qed.

Lemma noSynonymRoot_spec : forall s,
    noSynonymRoot s = true ->
    forall ws, In ws SYNONYMS -> includes (fst ws) s = false.
Proof.
  intros s H ws Hin. unfold noSynonymRoot in H. rewrite forallb_forall in H.
  specialize (H ws Hin). now apply negb_true_iff in H.
Qed.

Lemma expandSynonyms_fixed : forall s,
    noSynonymRoot (expandSynonyms s) = true -> expandSynonyms s = s.
Proof.
  intros s H. unfold expandSynonyms in *. apply fold_synonyms_fixed.
  intros ws Hin. now apply (noSynonymRoot_spec _ H).
Qed.

Lemma expandSynonyms_none : forall s,
    noSynonymRoot s = true -> expandSynonyms s = s.
Proof.
  intros s H. unfold expandSynonyms.
  pose proof (noSynonymRoot_spec s H) as Hs. revert Hs.
  generalize SYNONYMS as table.
  induction table as [|ws table IH]; intros Hs; [reflexivity|].
  cbn [fold_left]. rewrite (Hs ws (or_introl eq_refl)).
  apply IH. intros ws' Hin. apply Hs. now right.
Qed.

(** A root word that occurs before the cleaning occurs after it. *)
Lemma noSynonymRoot_before_cleaning : forall s,
    noSynonymRoot (cleanPunctuation s) = true -> noSynonymRoot s = true.
Proof.
  intros s H. unfold noSynonymRoot in *. rewrite forallb_forall in *.
  intros ws Hin. specialize (H ws Hin). apply negb_true_iff in H.
  apply negb_true_iff.
  pose proof synonym_roots_solid as Hsolid. rewrite forallb_forall in Hsolid.
  specialize (Hsolid ws Hin). apply andb_true_iff in Hsolid.
  destruct Hsolid as [Hne Hso].
  destruct (includes (fst ws) s) eqn:Hi; [|reflexivity].
  rewrite includes_cleanPunctuation in H; auto.
  intros E. rewrite E in Hne. discriminate.
Qed.
End Synonyms.

(** C3, as amended.  For every question whose normal form contains none of
    the six root words of the synonym table, a second pass of the
    normaliser returns the normal form unchanged: no correction, no
    expansion and no cleaning applies to it. *)
Theorem normalizeQuery_idempotent_without_synonyms :
  forall query : string,
    noSynonymRoot (normalizeQuery query) = true ->
    normalizeQuery (normalizeQuery query) = normalizeQuery query.
Proof.
  intros query H.
  set (a := trim (toLowerCase query)).
  set (b := fixTypos a).
  assert (Hn : normalizeQuery query = cleanPunctuation (expandSynonyms b))
    by reflexivity.
  assert (Hc : expandSynonyms b = b).
  { apply expandSynonyms_fixed. apply noSynonymRoot_before_cleaning.
    now rewrite <- Hn. }
  rewrite Hc in Hn.
  assert (Hlow : allChars lowered (normalizeQuery query) = true).
  { rewrite Hn. apply cleanPunctuation_lowered, fixTypos_lowered.
    apply allChars_trim, lowered_toLowerCase. }
  destruct (cleanPunctuation_shape b) as (_ & _ & Htrim). rewrite <- Hn in Htrim.
  assert (Htypos : fixTypos (normalizeQuery query) = normalizeQuery query).
  { apply fixTypos_fixed. intros w Hw.
    rewrite Hn, wordsOf_cleanPunctuation in Hw. unfold b in Hw.
    rewrite wordsOf_fixTypos in Hw. apply in_map_iff in Hw.
    destruct Hw as (w0 & <- & _). apply fixWord_not_typo. }
  unfold normalizeQuery at 1.
  rewrite (toLowerCase_lowered _ Hlow), Htrim, Htypos.
  rewrite (expandSynonyms_none _ H).
  rewrite Hn. apply cleanPunctuation_idem.
Qed.

(** "What is your resum?" is corrected and cleaned to "what is your
    resume", which a second pass leaves as it is. *)
Lemma normalizeQuery_idempotent_without_synonyms_witness :
  normalizeQuery "What is your resum?" = "what is your resume" /\
  noSynonymRoot (normalizeQuery "What is your resum?") = true /\
  normalizeQuery (normalizeQuery "What is your resum?")
  = normalizeQuery "What is your resum?".
Proof.
  split; [vm_compute; reflexivity|].
  split; [vm_compute; reflexivity|].
  apply normalizeQuery_idempotent_without_synonyms. vm_compute. reflexivity.
Defined.

(** C3, as claimed, fails: "job" is a root word of the synonym table; its
    normal form still contains it, and the second pass appends the synonyms
    once more. *)
Lemma normalizeQuery_not_idempotent :
  normalizeQuery "job" = "job work employment position role career" /\
  normalizeQuery (normalizeQuery "job")
  = "job work employment position role career work employment position role career" /\
  String.eqb (normalizeQuery (normalizeQuery "job")) (normalizeQuery "job") = false.
Proof. vm_compute. repeat split; reflexivity. Qed.

(* ================================================================== *)
(** * Further properties *)

(** ** The conversation history and [getEnhancedAnswer] *)

Section HistoryFacts.

Lemma sliceLast_all : forall (A : Type) (n : nat) (l : list A),
    length l <= n -> sliceLast n l = l.
Proof.
  intros A n l H. unfold sliceLast.
  replace (length l - n) with 0 by lia. reflexivity.
Qed.

Lemma sliceLast_slice_snoc : forall (A : Type) (n : nat) (l : list A) (x : A),
    sliceLast n (sliceLast n l ++ [x]) = sliceLast n (l ++ [x]).
Proof.
  intros A n l x. destruct (Nat.lt_ge_cases (length l) n) as [Hlt|Hge].
  - rewrite (sliceLast_all A n l) by lia. reflexivity.
  - destruct n as [|n].
    + unfold sliceLast. rewrite !Nat.sub_0_r, !skipn_all. reflexivity.
    + rewrite (sliceLast_snoc_full A l x (S n)) by lia.
      rewrite (sliceLast_snoc_full A (sliceLast (S n) l) x (S n))
        by (rewrite ?sliceLast_length; lia).
      rewrite (sliceLast_all A (S n) (sliceLast (S n) l))
        by (rewrite sliceLast_length; lia).
      reflexivity.
Qed.

Lemma sliceLast_slice_app : forall (A : Type) (n : nat) (l l' : list A),
    sliceLast n (sliceLast n l ++ l') = sliceLast n (l ++ l').
Proof.
  intros A n l l'. revert l. induction l' as [|x l' IH]; intros l.
  - rewrite !app_nil_r. apply sliceLast_all. rewrite sliceLast_length. lia.
  - replace (sliceLast n l ++ x :: l')%list
      with ((sliceLast n l ++ [x]) ++ l')%list by (now rewrite <- app_assoc).
    replace (l ++ x :: l')%list with ((l ++ [x]) ++ l')%list
      by (now rewrite <- app_assoc).
    rewrite <- (IH (sliceLast n l ++ [x])%list), <- (IH (l ++ [x])%list).
    now rewrite sliceLast_slice_snoc.
Qed.

(** A message is added at the end and the last twelve are kept. *)
Lemma addToConversationHistory_slice : forall date role content h,
    addToConversationHistory date role content h
    = sliceLast 12
        (h ++ [{| msg_role := role; msg_content := content; msg_timestamp := date |}]).
Proof.
  intros date role content h. unfold addToConversationHistory.
  destruct (Nat.ltb_spec 12
              (length (h ++ [{| msg_role := role; msg_content := content;
                                msg_timestamp := date |}]))) as [H|H];
    [reflexivity|].
  symmetry. now apply sliceLast_all.
Qed.

Lemma runHistory_sliced : forall ops acc,
    runHistory ops (sliceLast 12 acc) = sliceLast 12 (sinceClear ops acc).
Proof.
  induction ops as [|[date role content|] ops IH]; intros acc; [reflexivity| |].
  - cbn [runHistory fold_left runHistoryOp sinceClear].
    rewrite addToConversationHistory_slice, sliceLast_slice_snoc.
    apply IH.
  - cbn [runHistory fold_left runHistoryOp sinceClear].
    unfold clearConversationHistory. exact (IH []).
Qed.

Variable host : string -> string -> option nat.

(** One call of [getEnhancedAnswer]: the answer is the one of
    [generateRAGResponse], and the question and the answer go to the
    history of localRAG. *)
Lemma getEnhancedAnswer_step : forall env question m,
    exists answer st,
      generateRAGResponse host (ragEnv env) question (localRAG m) = (Resolved answer, st) /\
      truthy answer = true /\
      getEnhancedAnswer host env question m
      = (Resolved answer,
         {| localRAG := st;
            localRAG_conversationHistory :=
              sliceLast 12
                (localRAG_conversationHistory m
                 ++ [ {| msg_role := user; msg_content := question;
                         msg_timestamp := askedAt env |};
                      {| msg_role := assistant; msg_content := answer;
                         msg_timestamp := answeredAt env |} ]);
            enhancedChat_conversationHistory :=
              enhancedChat_conversationHistory m |}).
Proof.
  intros env question m.
  destruct (generateRAGResponse_resolves host (ragEnv env) question (localRAG m))
    as (answer & st & Hgen & Ht).
  exists answer, st. split; [exact Hgen|]. split; [exact Ht|].
  unfold getEnhancedAnswer. rewrite Hgen.
  rewrite !addToConversationHistory_slice.
  rewrite (sliceLast_slice_snoc ChatMessage 12).
  now rewrite <- app_assoc.
Qed.

Lemma runChat_histories : forall calls m acc,
    localRAG_conversationHistory m = sliceLast 12 acc ->
    let m' := runChat host calls m in
    enhancedChat_conversationHistory m' = enhancedChat_conversationHistory m /\
    localRAG_conversationHistory m'
    = sliceLast 12 (acc ++ transcript host calls (localRAG m)) /\
    localRAG m'
    = runCalls host (List.map (fun c => (ragEnv (fst c), snd c)) calls) (localRAG m).
Proof.
  induction calls as [|[env question] calls IH]; intros m acc Hm.
  - simpl. rewrite app_nil_r. auto.
  - destruct (getEnhancedAnswer_step env question m) as (answer & st & Hgen & _ & Hstep).
    cbn [runChat fold_left fst snd List.map transcript runCalls].
    rewrite Hstep, Hgen. cbn [snd].
    rewrite Hm, (sliceLast_slice_app ChatMessage 12).
    match goal with
    | |- context [fold_left _ calls ?m1] =>
        specialize (IH m1
                      (acc ++ [ {| msg_role := user; msg_content := question;
                                   msg_timestamp := askedAt env |};
                                {| msg_role := assistant; msg_content := answer;
                                   msg_timestamp := answeredAt env |} ])%list
                      eq_refl)
    end.
    cbv zeta in IH.
    cbn [localRAG localRAG_conversationHistory enhancedChat_conversationHistory] in IH.
    destruct IH as (H1 & H2 & H3).
    unfold runChat in *. rewrite H1, H2. unfold runCalls in *. rewrite H3.
    rewrite <- app_assoc. auto.
Qed.

Lemma transcript_length : forall calls st,
    length (transcript host calls st) = 2 * length calls.
Proof.
  induction calls as [|[env question] calls IH]; intros st; [reflexivity|].
  cbn [transcript].
  destruct (generateRAGResponse host (ragEnv env) question st) as [[answer|] st'];
    cbn [length]; rewrite IH; lia.
Qed.

End HistoryFacts.

(** X1. The history keeps the last twelve messages: after any sequence of
    additions and clearings, what [getConversationHistory] returns is the
    last twelve of the messages added since the last clearing, in the order
    they were added; it never holds more than twelve. *)
Theorem history_keeps_last_twelve :
  forall ops : list HistoryOp,
    let history := getConversationHistory (runHistory ops []) in
    history = sliceLast 12 (sinceClear ops []) /\
    length history <= 12.
Proof.
  intros ops history. unfold history, getConversationHistory.
  pose proof (runHistory_sliced ops []) as H.
  change (sliceLast 12 (@nil ChatMessage)) with (@nil ChatMessage) in H.
  rewrite H. split; [reflexivity|].
  rewrite sliceLast_length. lia.
Qed.

(** X2. [getEnhancedAnswer] resolves with the answer of
    [generateRAGResponse], which always resolves, with a text that is not
    empty, so that the fallback text of its [catch] is not used; it adds the
    question and then the answer to the history of localRAG, which keeps
    the last twelve messages, and it leaves the history of the chat module
    as it is. *)
Theorem getEnhancedAnswer_returns_rag_answer :
  forall (host : string -> string -> option nat) (env : ChatEnv)
         (question : string) (m : Modules),
    exists answer st,
      generateRAGResponse host (ragEnv env) question (localRAG m) = (Resolved answer, st) /\
      truthy answer = true /\
      getEnhancedAnswer host env question m
      = (Resolved answer,
         {| localRAG := st;
            localRAG_conversationHistory :=
              sliceLast 12
                (localRAG_conversationHistory m
                 ++ [ {| msg_role := user; msg_content := question;
                         msg_timestamp := askedAt env |};
                      {| msg_role := assistant; msg_content := answer;
                         msg_timestamp := answeredAt env |} ]);
            enhancedChat_conversationHistory :=
              enhancedChat_conversationHistory m |}).
Proof. intros. apply getEnhancedAnswer_step. Qed.

(** X3. After any sequence of calls of [getEnhancedAnswer] from the initial
    state, the history that the chat module exports is still empty: the
    messages are in the history of localRAG, which holds the last twelve of
    the questions and answers exchanged, two messages for each call; and
    localRAG is in the state that the same questions put to
    [generateRAGResponse] leave. *)
Theorem chat_history_kept_by_localRAG :
  forall (host : string -> string -> option nat) (calls : list (ChatEnv * string)),
    let m := runChat host calls initialModules in
    getConversationHistory (enhancedChat_conversationHistory m) = [] /\
    getConversationHistory (localRAG_conversationHistory m)
    = sliceLast 12 (transcript host calls initialState) /\
    length (getConversationHistory (localRAG_conversationHistory m))
    = Nat.min 12 (2 * length calls) /\
    localRAG m
    = runCalls host (List.map (fun c => (ragEnv (fst c), snd c)) calls) initialState.
Proof.
  intros host calls m.
  destruct (runChat_histories host calls initialModules [] eq_refl) as (H1 & H2 & H3).
  fold m in H1, H2, H3. cbn [app] in H2. unfold getConversationHistory.
  split; [exact H1|]. split; [exact H2|]. split; [|exact H3].
  rewrite H2, sliceLast_length, transcript_length. reflexivity.
Qed.

(** ** The response cache: look-ups after writes, keys, expiry *)

Section CacheMore.
Import JSMapFacts.

Lemma delete_In : forall (V : Type) (k : string) (m : JSMap.t V) (x : string * V),
    In x (JSMap.delete k m) -> In x m.
Proof.
  intros V k m x. induction m as [|[k' v'] m IH]; simpl; [tauto|].
  destruct (String.eqb k k'); simpl; tauto.
Qed.

Lemma delete_size_le : forall (V : Type) (k : string) (m : JSMap.t V),
    JSMap.size (JSMap.delete k m) <= JSMap.size m.
Proof.
  intros V k m. unfold JSMap.size. induction m as [|[k' v'] m IH]; simpl; [lia|].
  destruct (String.eqb k k'); simpl; lia.
Qed.

Lemma delete_size_lt : forall (V : Type) (k : string) (m : JSMap.t V),
    JSMap.has k m = true -> JSMap.size (JSMap.delete k m) < JSMap.size m.
Proof.
  intros V k m. unfold JSMap.size, JSMap.has.
  induction m as [|[k' v'] m IH]; simpl; [discriminate|].
  destruct (String.eqb k k'); simpl.
  - intros _. pose proof (delete_size_le V k m). unfold JSMap.size in *. lia.
  - intros H. specialize (IH H). lia.
Qed.

Lemma delete_keys_NoDup : forall (V : Type) (k : string) (m : JSMap.t V),
    NoDup (JSMap.keys m) -> NoDup (JSMap.keys (JSMap.delete k m)).
Proof.
  intros V k m. induction m as [|[k' v'] m IH]; simpl; intros H; [constructor|].
  inversion H as [|? ? Hnotin Hnd]; subst.
  destruct (String.eqb k k'); simpl; [now apply IH|].
  constructor; [|now apply IH].
  intros Hin. apply Hnotin. unfold JSMap.keys in *.
  apply in_map_iff in Hin. destruct Hin as (x & Hx & Hin).
  apply in_map_iff. exists x. split; [exact Hx | now apply delete_In in Hin].
Qed.

Lemma set_In : forall (V : Type) (k : string) (v : V) (m : JSMap.t V) (x : string * V),
    In x (JSMap.set k v m) -> In x m \/ x = (k, v).
Proof.
  intros V k v m x. induction m as [|[k' v'] m IH]; simpl.
  - intros [<-|[]]. now right.
  - destruct (String.eqb_spec k k') as [->|Hne]; simpl.
    + intros [<-|H]; [now right | left; now right].
    + intros [<-|H]; [left; now left|].
      destruct (IH H); [left; now right | now right].
Qed.

(** The entry that [cacheResponse] writes is the one found under its key. *)
Lemma get_cacheResponse_same : forall t q r c,
    JSMap.size c <= 50 ->
    JSMap.get (cacheKeyOf q) (cacheResponse t q r c)
    = Some {| response := r; timestamp := t |}.
Proof.
  intros t q r c Hsz. unfold cacheResponse.
  set (key := cacheKeyOf q). set (e := {| response := r; timestamp := t |}).
  destruct (JSMap.has key c) eqn:Hhas.
  - rewrite (set_size_present CacheEntry key e c Hhas).
    destruct (Nat.ltb_spec 50 (JSMap.size c)); [lia|].
    apply get_set_same.
  - rewrite (set_absent CacheEntry key e c Hhas).
    destruct (Nat.ltb_spec 50 (JSMap.size (List.app c [(key, e)]))) as [Hbig|Hsmall].
    + destruct c as [|[k0 e0] rest].
      * simpl in Hbig. lia.
      * assert (Hne : key <> k0).
        { intros E. unfold JSMap.has in Hhas. simpl in Hhas.
          rewrite E, String.eqb_refl in Hhas. discriminate. }
        rewrite <- (set_absent CacheEntry key e ((k0, e0) :: rest) Hhas).
        replace (JSMap.firstKey (JSMap.set key e ((k0, e0) :: rest))) with (Some k0)
          by (rewrite (set_absent CacheEntry key e ((k0, e0) :: rest) Hhas); reflexivity).
        rewrite (get_delete_other CacheEntry key k0 _ Hne).
        apply get_set_same.
    + rewrite <- (set_absent CacheEntry key e c Hhas). apply get_set_same.
Qed.

Lemma cacheResponse_In : forall t q r c x,
    In x (cacheResponse t q r c) ->
    In x c \/ x = (cacheKeyOf q, {| response := r; timestamp := t |}).
Proof.
  intros t q r c x. unfold cacheResponse.
  set (c1 := JSMap.set (cacheKeyOf q) {| response := r; timestamp := t |} c).
  intros H. apply (set_In CacheEntry).
  destruct (50 <? JSMap.size c1)%nat; [|exact H].
  destruct (JSMap.firstKey c1); [now apply delete_In in H | exact H].
Qed.

Lemma cacheResponse_ok : forall t q r c, cacheOk c -> cacheOk (cacheResponse t q r c).
Proof.
  intros t q r c H.
  exact (put_ok {| put_now := t; put_query := q; put_response := r |} c H).
Qed.

Lemma delete_ok : forall k c, cacheOk c -> cacheOk (JSMap.delete k c).
Proof.
  intros k c [Hsz Hnd]. split.
  - pose proof (delete_size_le CacheEntry k c). lia.
  - now apply delete_keys_NoDup.
Qed.

(** *** Letter case and white space *)

Lemma isSpace_lowerChar : forall c, isSpace (lowerChar c) = isSpace c.
Proof. intros [[] [] [] [] [] [] [] []]; reflexivity. Qed.

Lemma lowerChar_upperChar : forall c, lowerChar (upperChar c) = lowerChar c.
Proof. intros [[] [] [] [] [] [] [] []]; reflexivity. Qed.

Lemma toLowerCase_toUpperCase : forall s, toLowerCase (toUpperCase s) = toLowerCase s.
Proof.
  induction s as [|c s IH]; [reflexivity|].
  unfold toLowerCase, toUpperCase in *. simpl. now rewrite IH, lowerChar_upperChar.
Qed.

Lemma toLowerCase_idem : forall s, toLowerCase (toLowerCase s) = toLowerCase s.
Proof.
  induction s as [|c s IH]; [reflexivity|].
  unfold toLowerCase in *. simpl. now rewrite IH, lowerChar_idem.
Qed.

Lemma toLowerCase_app : forall s t,
    toLowerCase (s ++ t) = toLowerCase s ++ toLowerCase t.
Proof.
  induction s as [|c s IH]; intros t; [reflexivity|].
  unfold toLowerCase in *. simpl. now rewrite IH.
Qed.

Lemma toLowerCase_trimStart : forall s,
    toLowerCase (trimStart s) = trimStart (toLowerCase s).
Proof.
  induction s as [|c s IH]; [reflexivity|].
  unfold toLowerCase in *. cbn [trimStart JSString.map].
  rewrite isSpace_lowerChar. destruct (isSpace c); [exact IH | reflexivity].
Qed.

Lemma toLowerCase_trimEnd : forall s,
    toLowerCase (trimEnd s) = trimEnd (toLowerCase s).
Proof.
  induction s as [|c s IH]; [reflexivity|].
  unfold toLowerCase in *. cbn [trimEnd JSString.map].
  rewrite <- IH, isSpace_lowerChar.
  destruct (trimEnd s) as [|d t]; [destruct (isSpace c)|]; reflexivity.
Qed.

Lemma toLowerCase_trim : forall s, toLowerCase (trim s) = trim (toLowerCase s).
Proof.
  intros s. unfold trim. now rewrite toLowerCase_trimEnd, toLowerCase_trimStart.
Qed.

Lemma allSpaces_toLowerCase : forall s,
    allChars isSpace s = true -> allChars isSpace (toLowerCase s) = true.
Proof.
  induction s as [|c s IH]; [reflexivity|].
  unfold toLowerCase in *. simpl. rewrite isSpace_lowerChar.
  intros H. apply andb_true_iff in H. destruct H as [-> H]. now apply IH.
Qed.

Lemma trimStart_spaces_app : forall pre s,
    allChars isSpace pre = true -> trimStart (pre ++ s) = trimStart s.
Proof.
  induction pre as [|c pre IH]; intros s H; [reflexivity|].
  simpl in H. apply andb_true_iff in H. destruct H as [Hc H].
  simpl. rewrite Hc. now apply IH.
Qed.

Lemma trimEnd_spaces : forall post,
    allChars isSpace post = true -> trimEnd post = EmptyString.
Proof.
  induction post as [|c post IH]; intros H; [reflexivity|].
  simpl in H. apply andb_true_iff in H. destruct H as [Hc H].
  simpl. now rewrite (IH H), Hc.
Qed.

Lemma trimEnd_app_spaces : forall s post,
    allChars isSpace post = true -> trimEnd (s ++ post) = trimEnd s.
Proof.
  induction s as [|c s IH]; intros post H.
  - simpl. now apply trimEnd_spaces.
  - simpl. now rewrite (IH post H).
Qed.

Lemma trimStart_app_nonspace : forall s t,
    trimStart s <> EmptyString -> trimStart (s ++ t) = trimStart s ++ t.
Proof.
  induction s as [|c s IH]; intros t H; [now contradiction H|].
  simpl in *. destruct (isSpace c); [now apply IH | reflexivity].
Qed.

Lemma trim_padded : forall pre s post,
    allChars isSpace pre = true -> allChars isSpace post = true ->
    trim (pre ++ s ++ post) = trim s.
Proof.
  intros pre s post Hpre Hpost. unfold trim.
  rewrite (trimStart_spaces_app pre _ Hpre).
  destruct (trimStart s) as [|c u] eqn:E.
  - assert (Hs : allChars isSpace s = true).
    { clear -E. induction s as [|c s IH]; [reflexivity|].
      simpl in *. destruct (isSpace c); [now apply IH | discriminate]. }
    assert (Hall : allChars isSpace (s ++ post) = true)
      by (rewrite allChars_app; now rewrite Hs, Hpost).
    assert (Ht : forall u, allChars isSpace u = true -> trimStart u = EmptyString).
    { clear. induction u as [|c u IH]; [reflexivity|].
      simpl. intros H. apply andb_true_iff in H. destruct H as [-> H]. now apply IH. }
    now rewrite (Ht _ Hall).
  - rewrite trimStart_app_nonspace by (rewrite E; discriminate).
    rewrite E. now apply trimEnd_app_spaces.
Qed.

Lemma cacheKeyOf_variant : forall q q' pre post,
    toLowerCase q' = toLowerCase q ->
    allChars isSpace pre = true -> allChars isSpace post = true ->
    cacheKeyOf (pre ++ q' ++ post) = cacheKeyOf q.
Proof.
  intros q q' pre post Hq Hpre Hpost. unfold cacheKeyOf.
  rewrite !toLowerCase_app, Hq.
  apply trim_padded; now apply allSpaces_toLowerCase.
Qed.

Lemma cacheKeyOf_idem : forall q, cacheKeyOf (cacheKeyOf q) = cacheKeyOf q.
Proof.
  intros q. unfold cacheKeyOf.
  now rewrite toLowerCase_trim, toLowerCase_idem, trim_idem.
Qed.

End CacheMore.

(** X4. A response that is written to the cache is found again: after
    [cacheResponse] for a question, [getCachedResponse] for a question with
    the same key, less than the time to live later, returns that response
    and leaves the cache as it is (the cache holding at most 50 entries, as
    it always does). *)
Theorem cached_response_is_found :
  forall (t0 t1 : Z) (q q' r : string) (c : Cache),
    JSMap.size c <= 50 ->
    cacheKeyOf q' = cacheKeyOf q ->
    (t1 - t0 < CACHE_TTL)%Z ->
    getCachedResponse t1 q' (cacheResponse t0 q r c)
    = (Some r, cacheResponse t0 q r c).
Proof.
  intros t0 t1 q q' r c Hsz Hk Hlive. unfold getCachedResponse.
  rewrite Hk, (get_cacheResponse_same t0 q r c Hsz). cbn [timestamp response].
  destruct (Z.ltb_spec (t1 - t0) CACHE_TTL); [reflexivity | lia].
Qed.

(** Written at 1000, read four minutes later under another spelling. *)
Lemma cached_response_is_found_witness :
  getCachedResponse 241000 "  WHY ou? " (cacheResponse 1000 "Why OU?" "answer" [])
  = (Some "answer", cacheResponse 1000 "Why OU?" "answer" []).
Proof.
  apply cached_response_is_found; [simpl; lia | reflexivity | reflexivity].
Defined.

(** X5. The key of the cache does not see letter case or surrounding white
    space: a question that differs from another only in the case of its
    letters, with white space added before and after, reads and writes the
    same entry; and a key is its own key. *)
Theorem cache_key_ignores_case_and_padding :
  forall (q q' pre post : string),
    toLowerCase q' = toLowerCase q ->
    allChars isSpace pre = true ->
    allChars isSpace post = true ->
    cacheKeyOf (pre ++ q' ++ post) = cacheKeyOf q /\
    cacheKeyOf (cacheKeyOf q) = cacheKeyOf q /\
    (forall t c, getCachedResponse t (pre ++ q' ++ post) c = getCachedResponse t q c) /\
    (forall t r c, cacheResponse t (pre ++ q' ++ post) r c = cacheResponse t q r c).
Proof.
  intros q q' pre post Hq Hpre Hpost.
  pose proof (cacheKeyOf_variant q q' pre post Hq Hpre Hpost) as Hk.
  split; [exact Hk|]. split; [apply cacheKeyOf_idem|]. split.
  - intros t c. unfold getCachedResponse. now rewrite Hk.
  - intros t r c. unfold cacheResponse. now rewrite Hk.
Qed.

Lemma cache_key_ignores_case_and_padding_witness :
  cacheKeyOf ("  " ++ "WHY ou?" ++ " ") = cacheKeyOf "Why OU?" /\
  cacheKeyOf (cacheKeyOf "Why OU?") = cacheKeyOf "Why OU?" /\
  (forall t c, getCachedResponse t ("  " ++ "WHY ou?" ++ " ") c
               = getCachedResponse t "Why OU?" c) /\
  (forall t r c, cacheResponse t ("  " ++ "WHY ou?" ++ " ") r c
                 = cacheResponse t "Why OU?" r c).
Proof.
  apply cache_key_ignores_case_and_padding; reflexivity.
Defined.

(** X6. An entry that is as old as the time to live, or older, is not
    served: [getCachedResponse] returns nothing and removes the entry; the
    other entries stay as they are and the cache gets smaller. *)
Theorem stale_entry_is_dropped :
  forall (t : Z) (q : string) (c : Cache) (e : CacheEntry),
    JSMap.get (cacheKeyOf q) c = Some e ->
    (CACHE_TTL <= t - timestamp e)%Z ->
    fst (getCachedResponse t q c) = None /\
    JSMap.has (cacheKeyOf q) (snd (getCachedResponse t q c)) = false /\
    (forall k, k <> cacheKeyOf q ->
               JSMap.get k (snd (getCachedResponse t q c)) = JSMap.get k c) /\
    JSMap.size (snd (getCachedResponse t q c)) < JSMap.size c.
Proof.
  intros t q c e Hget Hold. unfold getCachedResponse. rewrite Hget.
  destruct (Z.ltb_spec (t - timestamp e) CACHE_TTL); [lia|]. cbn [fst snd].
  split; [reflexivity|]. split; [|split].
  - unfold JSMap.has. now rewrite JSMapFacts.get_delete_same.
  - intros k Hk. now apply JSMapFacts.get_delete_other.
  - apply delete_size_lt. unfold JSMap.has. now rewrite Hget.
Qed.

(** An entry written at 0 is dropped by a look-up at 300000, five minutes
    later to the millisecond. *)
Lemma stale_entry_is_dropped_witness :
  fst (getCachedResponse 300000 "why ou?" twoEntries) = None /\
  JSMap.has (cacheKeyOf "why ou?") (snd (getCachedResponse 300000 "why ou?" twoEntries))
  = false /\
  (forall k, k <> cacheKeyOf "why ou?" ->
             JSMap.get k (snd (getCachedResponse 300000 "why ou?" twoEntries))
             = JSMap.get k twoEntries) /\
  JSMap.size (snd (getCachedResponse 300000 "why ou?" twoEntries))
  < JSMap.size twoEntries.
Proof.
  apply (stale_entry_is_dropped 300000 "why ou?" twoEntries
           {| response := "answer"; timestamp := 0 |}).
  - reflexivity.
  - vm_compute. discriminate.
Defined.

(** ** What a call changes in the state *)

Section Frames.
Variable host : string -> string -> option nat.

Lemma extractOrEmpty_frame : forall resume q st,
    responseCache (snd (extractOrEmpty host resume q st)) = responseCache st /\
    cachedResumeData (snd (extractOrEmpty host resume q st)) = cachedResumeData st.
Proof.
  intros resume q st. unfold extractOrEmpty.
  destruct (extractRelevantInfo host resume q (conversationContext st)) as [[info|] ctx];
    split; reflexivity.
Qed.

Lemma resumeOrFallback_frame : forall env st,
    responseCache (snd (resumeOrFallback env st)) = responseCache st /\
    cachedResumeData (snd (resumeOrFallback env st))
    = match cachedResumeData st with
      | Some r => Some r
      | None => fetched env
      end.
Proof.
  intros env st. unfold resumeOrFallback, loadResumeData.
  destruct (cachedResumeData st) as [r|] eqn:E;
    [simpl; split; [reflexivity | exact E]|].
  destruct (fetched env) as [r|]; simpl; [split; reflexivity|].
  split; [reflexivity | exact E].
Qed.

Lemma afterExtraction_frame : forall env q st,
    responseCache (afterExtraction host env q st)
    = snd (getCachedResponse (now env) q (responseCache st)) /\
    cachedResumeData (afterExtraction host env q st)
    = match cachedResumeData st with
      | Some r => Some r
      | None => fetched env
      end.
Proof.
  intros env q st. unfold afterExtraction.
  set (st0 := withCache (snd (getCachedResponse (now env) q (responseCache st))) st).
  pose proof (resumeOrFallback_frame env st0) as [H1 H2].
  destruct (resumeOrFallback env st0) as [resume st1]. cbn [snd] in *.
  pose proof (extractOrEmpty_frame resume (normalizeQuery q) st1) as [H3 H4].
  rewrite H3, H4, H1, H2. split; reflexivity.
Qed.

Lemma intentBranches_frame : forall env q intents st,
    cachedResumeData (snd (intentBranches env q intents st)) = cachedResumeData st /\
    (responseCache (snd (intentBranches env q intents st)) = responseCache st \/
     responseCache (snd (intentBranches env q intents st))
     = cacheResponse (now env) q (fst (intentBranches env q intents st))
                     (responseCache st)).
Proof.
  intros. unfold intentBranches, cached, asking.
  repeat match goal with
         | |- context [if ?b then _ else _] => destruct b
         end; simpl; auto.
Qed.

(** The cascade leaves the profile alone; it leaves the cache alone or
    writes the response it returns under the question. *)
Lemma respond_frame : forall env q intents info st,
    cachedResumeData (snd (respond env q intents info st)) = cachedResumeData st /\
    (responseCache (snd (respond env q intents info st)) = responseCache st \/
     responseCache (snd (respond env q intents info st))
     = cacheResponse (now env) q (fst (respond env q intents info st))
                     (responseCache st)).
Proof.
  intros. unfold respond.
  destruct (includes "project" (toLowerCase q)); [simpl; auto|].
  destruct (matchQuestionPattern q) as [p|];
    [destruct (truthy p); [simpl; auto|]|];
    apply intentBranches_frame.
Qed.

(** A call that is not served from the cache: its response and the state it
    leaves, by way of the state after the extraction. *)
Lemma generateRAGResponse_miss_respond : forall env q st,
    servedFromCache env q st = None ->
    generateRAGResponse host env q st
    = (Resolved (fst (respond env q (detectIntent (normalizeQuery q)) EmptyString
                              (afterExtraction host env q st))),
       snd (respond env q (detectIntent (normalizeQuery q)) EmptyString
                    (afterExtraction host env q st))).
Proof.
  intros env q st Hs. rewrite (generateRAGResponse_miss host env q st Hs).
  now rewrite (answer_afterExtraction host env q st EmptyString).
Qed.

Lemma generateRAGResponse_frame : forall env q st,
    let c0 := snd (getCachedResponse (now env) q (responseCache st)) in
    let st' := snd (generateRAGResponse host env q st) in
    match servedFromCache env q st with
    | Some r => st' = st
    | None =>
        cachedResumeData st'
        = match cachedResumeData st with
          | Some r => Some r
          | None => fetched env
          end /\
        exists r, fst (generateRAGResponse host env q st) = Resolved r /\
                  truthy r = true /\
                  (responseCache st' = c0 \/
                   responseCache st' = cacheResponse (now env) q r c0)
    end.
Proof.
  intros env q st c0 st'. unfold st'.
  destruct (servedFromCache env q st) as [r|] eqn:Hs.
  - now rewrite (generateRAGResponse_hit host env q st r Hs).
  - rewrite (generateRAGResponse_miss_respond env q st Hs). cbn [fst snd].
    destruct (afterExtraction_frame env q st) as [Hc Hr].
    destruct (respond_frame env q (detectIntent (normalizeQuery q)) EmptyString
                (afterExtraction host env q st)) as [Hr' Hc'].
    rewrite Hr', Hr. split; [reflexivity|].
    eexists. split; [reflexivity|]. split; [apply respond_truthy|].
    rewrite Hc in Hc'. exact Hc'.
Qed.

(** *** The cache over a run *)

Lemma getCachedResponse_In : forall t q c x,
    In x (snd (getCachedResponse t q c)) -> In x c.
Proof.
  intros t q c x. unfold getCachedResponse.
  destruct (JSMap.get (cacheKeyOf q) c) as [e|]; [|auto].
  destruct (t - timestamp e <? CACHE_TTL)%Z; [auto|].
  apply delete_In.
Qed.

Lemma getCachedResponse_ok : forall t q c,
    cacheOk c -> cacheOk (snd (getCachedResponse t q c)).
Proof.
  intros t q c H. unfold getCachedResponse.
  destruct (JSMap.get (cacheKeyOf q) c) as [e|]; [|exact H].
  destruct (t - timestamp e <? CACHE_TTL)%Z; [exact H|].
  now apply delete_ok.
Qed.

Lemma runCalls_cache : forall calls st,
    cacheOk (responseCache st) ->
    Forall (fun e : string * CacheEntry =>
              truthy (response (snd e)) = true /\ cacheKeyOf (fst e) = fst e)
           (responseCache st) ->
    cacheOk (responseCache (runCalls host calls st)) /\
    Forall (fun e : string * CacheEntry =>
              truthy (response (snd e)) = true /\ cacheKeyOf (fst e) = fst e)
           (responseCache (runCalls host calls st)).
Proof.
  induction calls as [|[env q] calls IH]; intros st Hok Hall; [split; assumption|].
  cbn [runCalls fold_left fst snd]. apply IH.
  - pose proof (generateRAGResponse_frame env q st) as H. cbv zeta in H.
    destruct (servedFromCache env q st) as [r|]; [now rewrite H|].
    destruct H as (_ & r & _ & _ & [E|E]); rewrite E.
    + now apply getCachedResponse_ok.
    + now apply cacheResponse_ok, getCachedResponse_ok.
  - pose proof (generateRAGResponse_frame env q st) as H. cbv zeta in H.
    destruct (servedFromCache env q st) as [r|]; [now rewrite H|].
    rewrite Forall_forall in *.
    destruct H as (_ & r & _ & Ht & [E|E]); rewrite E; intros x Hx.
    + apply Hall. now apply getCachedResponse_In in Hx.
    + apply cacheResponse_In in Hx. destruct Hx as [Hx| ->].
      * apply Hall. now apply getCachedResponse_In in Hx.
      * cbn [fst snd response]. split; [exact Ht | apply cacheKeyOf_idem].
Qed.

(** *** The profile over a run *)

Lemma runCalls_profile : forall calls st r,
    cachedResumeData st = Some r ->
    cachedResumeData (runCalls host calls st) = Some r.
Proof.
  induction calls as [|[env q] calls IH]; intros st r H; [exact H|].
  cbn [runCalls fold_left fst snd]. apply IH.
  pose proof (generateRAGResponse_frame env q st) as Hf. cbv zeta in Hf.
  destruct (servedFromCache env q st) as [r'|]; [now rewrite Hf|].
  destruct Hf as [Hf _]. now rewrite Hf, H.
Qed.

End Frames.

(** X7. The cache over a run: after any sequence of calls of
    [generateRAGResponse] from the initial state, the cache holds at most
    50 entries, no key twice; every key is a question in lower case,
    trimmed; and no cached response is empty, so that a live entry is
    always served. *)
Theorem cache_invariant_over_calls :
  forall (host : string -> string -> option nat) (calls : list (Env * string)),
    let c := responseCache (runCalls host calls initialState) in
    JSMap.size c <= 50 /\
    NoDup (JSMap.keys c) /\
    Forall (fun e : string * CacheEntry =>
              truthy (response (snd e)) = true /\ cacheKeyOf (fst e) = fst e) c.
Proof.
  intros host calls c.
  destruct (runCalls_cache host calls initialState empty_ok (Forall_nil _))
    as [[Hsz Hnd] Hall].
  split; [exact Hsz|]. split; [exact Hnd | exact Hall].
Qed.

(** X8. The profile is loaded once: when nothing is loaded yet, a call that
    is served from the cache loads nothing, and any other call keeps what
    its fetch returns, nothing when the fetch fails, so that the next such
    call fetches again; once a profile is loaded, no call replaces it, and
    [loadResumeData] resolves with it whatever a fetch would return. *)
Theorem profile_loaded_once :
  forall (host : string -> string -> option nat) (env : Env) (question : string)
         (st : State),
    cachedResumeData (snd (generateRAGResponse host env question st))
    = match cachedResumeData st with
      | Some r => Some r
      | None =>
          match servedFromCache env question st with
          | Some _ => None
          | None => fetched env
          end
      end /\
    (forall r calls env',
        cachedResumeData st = Some r ->
        cachedResumeData (runCalls host calls st) = Some r /\
        loadResumeData env' (runCalls host calls st)
        = (Resolved r, runCalls host calls st)).
Proof.
  intros host env question st. split.
  - pose proof (generateRAGResponse_frame host env question st) as Hf. cbv zeta in Hf.
    destruct (servedFromCache env question st) as [r'|].
    + rewrite Hf. now destruct (cachedResumeData st).
    + destruct Hf as [Hf _]. exact Hf.
  - intros r calls env' H.
    pose proof (runCalls_profile host calls st r H) as Hr.
    split; [exact Hr|]. unfold loadResumeData. now rewrite Hr.
Qed.

(** A profile that was loaded stays through a greeting, and a later load
    resolves with it though its fetch would fail. *)
Lemma profile_loaded_once_witness :
  cachedResumeData (withProfile bareProfile) = Some bareProfile /\
  cachedResumeData (runCalls rejectingHost [(envAt 0 0.5, "hello")]
                             (withProfile bareProfile)) = Some bareProfile /\
  loadResumeData (envAt 1 0.5)
                 (runCalls rejectingHost [(envAt 0 0.5, "hello")]
                           (withProfile bareProfile))
  = (Resolved bareProfile,
     runCalls rejectingHost [(envAt 0 0.5, "hello")] (withProfile bareProfile)).
Proof.
  split; [reflexivity|].
  apply (proj2 (profile_loaded_once rejectingHost (envAt 0 0.5) "hello"
                  (withProfile bareProfile))
               bareProfile [(envAt 0 0.5, "hello")] (envAt 1 0.5)).
  reflexivity.
Defined.

(** ** The conversation context over a run *)

Lemma JSSet_has_In : forall k s, JSSet.has k s = true <-> In k s.
Proof.
  intros k s. induction s as [|k' s IH]; simpl.
  - split; [discriminate | tauto].
  - rewrite orb_true_iff, IH. destruct (String.eqb_spec k k') as [->|Hne].
    + split; auto.
    + split; [intros [H|H]; [discriminate | now right]
             | intros [H|H]; [congruence | now right]].
Qed.

Lemma askedExtends_refl : forall ctx, askedExtends ctx ctx.
Proof.
  intros ctx. split; [exists []; now rewrite app_nil_r | split; auto].
Qed.

Lemma askedExtends_trans : forall a b c,
    askedExtends a b -> askedExtends b c -> askedExtends a c.
Proof.
  intros a b c ([x Hx] & H1 & H2) ([y Hy] & H3 & H4).
  split; [|split; auto].
  exists (x ++ y)%list. now rewrite Hy, Hx, app_assoc.
Qed.

Lemma askedExtends_eq : forall ctx ctx',
    askedAbout ctx' = askedAbout ctx -> askedExtends ctx ctx'.
Proof.
  intros ctx ctx' E. unfold askedExtends. rewrite E.
  split; [exists []; now rewrite app_nil_r | split; auto].
Qed.

Lemma askedExtends_add : forall k ctx,
    In k ASKED_TOPICS -> askedExtends ctx (askedAbout_add k ctx).
Proof.
  intros k ctx Hk. unfold askedExtends, askedAbout_add, JSSet.add. cbn [askedAbout].
  destruct (JSSet.has k (askedAbout ctx)) eqn:Hhas.
  - split; [exists []; now rewrite app_nil_r | split; auto].
  - assert (Hnotin : ~ In k (askedAbout ctx)).
    { intros Hin. apply JSSet_has_In in Hin. congruence. }
    split; [now exists [k]|]. split.
    + intros Hnd. apply NoDup_app; [exact Hnd | repeat constructor; simpl; tauto|].
      intros x Hx [<-|[]]. now apply Hnotin.
    + intros Hincl x Hx. apply in_app_or in Hx.
      destruct Hx as [Hx|[<-|[]]]; [now apply Hincl | exact Hk].
Qed.

Lemma onlyExtends_ret : forall (A : Type) (a : A), onlyExtends (ret a).
Proof. intros A a ctx. apply askedExtends_refl. Qed.

Lemma onlyExtends_lift : forall (A : Type) (o : option A), onlyExtends (lift o).
Proof. intros A o ctx. apply askedExtends_refl. Qed.

Lemma onlyExtends_asked : forall k, In k ASKED_TOPICS -> onlyExtends (asked k).
Proof. intros k Hk ctx. now apply askedExtends_add. Qed.

Lemma onlyExtends_bind : forall (A B : Type) (m : M A) (f : A -> M B),
    onlyExtends m -> (forall a, onlyExtends (f a)) -> onlyExtends (bind m f).
Proof.
  intros A B m f Hm Hf ctx. unfold bind.
  specialize (Hm ctx). destruct (m ctx) as [[a|] ctx']; simpl in *; auto.
  eapply askedExtends_trans; [exact Hm | apply Hf].
Qed.

Ltac extends :=
  repeat first
    [ apply onlyExtends_ret | apply onlyExtends_lift
    | apply onlyExtends_asked; simpl; tauto
    | apply onlyExtends_bind; [|intros ?]
    | match goal with
      | |- onlyExtends (if ?b then _ else _) => destruct b
      | |- onlyExtends (match ?o with Some _ => _ | None => _ end) => destruct o
      end ].

Lemma intentBranches_extends : forall env question intents st,
    askedExtends (conversationContext st)
      (conversationContext (snd (intentBranches env question intents st))).
Proof.
  intros. unfold intentBranches, cached, asking.
  repeat match goal with
         | |- context [if ?b then _ else _] => destruct b
         end; simpl;
    first [apply askedExtends_refl | apply askedExtends_add; simpl; tauto].
Qed.

Lemma respond_extends : forall env question intents info st,
    askedExtends (conversationContext st)
      (conversationContext (snd (respond env question intents info st))).
Proof.
  intros. unfold respond.
  destruct (includes "project" (toLowerCase question));
    [apply askedExtends_refl|].
  destruct (matchQuestionPattern question) as [p|];
    [destruct (truthy p); [apply askedExtends_refl|]|];
    apply intentBranches_extends.
Qed.

Lemma detectIntent_names : forall q i, In i (detectIntent q) -> In i INTENT_ORDER.
Proof.
  intros q i H. unfold detectIntent in H.
  apply in_map_iff in H. destruct H as (e & <- & He).
  apply (Permutation_in _ (stableSort_perm _ higherScore (intentScores q))) in He.
  assert (Hk : In (fst e) (JSMap.keys (intentScores q)))
    by (unfold JSMap.keys; now apply in_map).
  rewrite keys_intentScores in Hk. apply filter_In in Hk. tauto.
Qed.

Lemma last_In_or_default : forall (l : list string) (d : string),
    last l d = d \/ In (last l d) l.
Proof.
  induction l as [|x l IH]; intros d; [now left|].
  destruct l as [|y l]; [right; now left|].
  destruct (IH d) as [H|H].
  - change (last (x :: y :: l) d) with (last (y :: l) d). rewrite H.
    destruct (IH d) as [H'|H']; [now left | right; right; now rewrite <- H].
  - right. right. exact H.
Qed.

Section ContextMore.
Variable host : string -> string -> option nat.

Lemma extractRelevantInfo_extends : forall resume query ctx,
    askedExtends ctx (snd (extractRelevantInfo host resume query ctx)).
Proof.
  intros resume query ctx. unfold extractRelevantInfo.
  apply (askedExtends_trans _ (updateContext query (detectIntent query) ctx));
    [now apply askedExtends_eq|].
  destruct (test introRegex (toLowerCase query)); cbn [snd].
  - apply askedExtends_add. simpl. tauto.
  - match goal with |- askedExtends ?c (snd (?m ?c)) =>
      assert (H : onlyExtends m); [|exact (H c)] end.
    apply onlyExtends_bind; [unfold projectsStep; extends|intros ?].
    apply onlyExtends_bind; [unfold skillsStep; extends|intros ?].
    apply onlyExtends_bind; [unfold experienceStep; extends|intros ?].
    apply onlyExtends_bind; [unfold educationStep; extends|intros ?].
    apply onlyExtends_bind; [unfold certificationsStep; extends|intros ?].
    apply onlyExtends_bind; [unfold leadershipStep; extends|intros ?].
    apply onlyExtends_ret.
Qed.

Lemma afterExtraction_extends : forall env question st,
    askedExtends (conversationContext st)
      (conversationContext (afterExtraction host env question st)).
Proof.
  intros env question st. unfold afterExtraction.
  set (st0 := withCache (snd (getCachedResponse (now env) question (responseCache st))) st).
  pose proof (resumeOrFallback_context env st0) as Hr.
  destruct (resumeOrFallback env st0) as [resume st1]. cbn [snd] in Hr.
  change (conversationContext st0) with (conversationContext st) in Hr.
  rewrite <- Hr. unfold extractOrEmpty.
  pose proof (extractRelevantInfo_extends resume (normalizeQuery question)
                (conversationContext st1)) as He.
  destruct (extractRelevantInfo host resume (normalizeQuery question)
              (conversationContext st1)) as [[info|] ctx]; exact He.
Qed.

Lemma generateRAGResponse_extends : forall env question st,
    askedExtends (conversationContext st)
      (conversationContext (snd (generateRAGResponse host env question st))).
Proof.
  intros env question st.
  destruct (servedFromCache env question st) as [r|] eqn:Hs.
  - rewrite (generateRAGResponse_hit host env question st r Hs).
    apply askedExtends_refl.
  - rewrite (generateRAGResponse_miss_respond host env question st Hs). cbn [snd].
    eapply askedExtends_trans;
      [apply afterExtraction_extends | apply respond_extends].
Qed.

Lemma runCalls_asked : forall calls st,
    NoDup (askedAbout (conversationContext st)) ->
    incl (askedAbout (conversationContext st)) ASKED_TOPICS ->
    NoDup (askedAbout (conversationContext (runCalls host calls st))) /\
    incl (askedAbout (conversationContext (runCalls host calls st))) ASKED_TOPICS.
Proof.
  induction calls as [|[env q] calls IH]; intros st Hnd Hincl; [split; assumption|].
  cbn [runCalls fold_left fst snd].
  destruct (generateRAGResponse_extends env q st) as (_ & H1 & H2).
  apply IH; auto.
Qed.

Lemma generateRAGResponse_topics : forall env question st,
    Forall (fun t => In t INTENT_ORDER) (topics (conversationContext st)) ->
    Forall (fun t => In t INTENT_ORDER)
           (topics (conversationContext (snd (generateRAGResponse host env question st)))).
Proof.
  intros env question st H.
  destruct (generateRAGResponse_context host env question st) as [E|(E & _)];
    cbv zeta in E; rewrite E; [exact H|].
  cbn [topics updateContext]. rewrite Forall_forall in *. intros t Ht.
  apply sliceLast_incl in Ht. apply in_app_or in Ht.
  destruct Ht as [Ht|Ht]; [now apply H | now apply detectIntent_names in Ht].
Qed.

Lemma runCalls_topic_names : forall calls st,
    Forall (fun t => In t INTENT_ORDER) (topics (conversationContext st)) ->
    Forall (fun t => In t INTENT_ORDER)
           (topics (conversationContext (runCalls host calls st))).
Proof.
  induction calls as [|[env q] calls IH]; intros st H; [exact H|].
  cbn [runCalls fold_left fst snd]. apply IH.
  now apply generateRAGResponse_topics.
Qed.

Lemma generateRAGResponse_tone : forall env question st,
    let ctx := conversationContext st in
    let ctx' := conversationContext (snd (generateRAGResponse host env question st)) in
    (depth ctx' = depth ctx \/ depth ctx' = overview \/ depth ctx' = detailed) /\
    (sentiment ctx' = sentiment ctx \/ sentiment ctx' = professional
     \/ sentiment ctx' = casual).
Proof.
  intros env question st ctx ctx'. unfold ctx, ctx'.
  destruct (generateRAGResponse_context host env question st) as [E|(_ & Es & Ed)];
    cbv zeta in *.
  - rewrite E. auto.
  - rewrite Es, Ed. cbn [depth sentiment updateContext].
    split.
    + destruct (test_i _ (normalizeQuery question)); [auto|].
      destruct (test_i _ (normalizeQuery question)); auto.
    + destruct (test_i (wholeWord ["cool"; "awesome"; "interesting"; "great"; "amazing"])
                       (normalizeQuery question)); [auto|].
      destruct (test_i _ (normalizeQuery question)); auto.
Qed.

Lemma runCalls_depth : forall calls st,
    depth (conversationContext st) = overview
    \/ depth (conversationContext st) = detailed ->
    depth (conversationContext (runCalls host calls st)) = overview
    \/ depth (conversationContext (runCalls host calls st)) = detailed.
Proof.
  induction calls as [|[env q] calls IH]; intros st H; [exact H|].
  cbn [runCalls fold_left fst snd]. apply IH.
  destruct (generateRAGResponse_tone env q st) as [[E|E] _]; cbv zeta in E;
    [rewrite E; exact H | exact E].
Qed.

Lemma runCalls_sentiment : forall calls st,
    sentiment (conversationContext st) = professional
    \/ sentiment (conversationContext st) = casual ->
    sentiment (conversationContext (runCalls host calls st)) = professional
    \/ sentiment (conversationContext (runCalls host calls st)) = casual.
Proof.
  induction calls as [|[env q] calls IH]; intros st H; [exact H|].
  cbn [runCalls fold_left fst snd]. apply IH.
  destruct (generateRAGResponse_tone env q st) as [_ [E|E]]; cbv zeta in E;
    [rewrite E; exact H | exact E].
Qed.

End ContextMore.

(** X9. [askedAbout] only grows: a call adds names at the end of the set and
    removes none; after any sequence of calls from the initial state it
    holds no name twice and only names among "intro", "projects", "skills",
    "experience", "education", "certifications", "achievements", "ai" and
    "contact", hence at most nine. *)
Theorem askedAbout_only_grows :
  forall (host : string -> string -> option nat) (calls : list (Env * string))
         (env : Env) (question : string),
    let st := runCalls host calls initialState in
    let st' := snd (generateRAGResponse host env question st) in
    (exists added,
        askedAbout (conversationContext st')
        = (askedAbout (conversationContext st) ++ added)%list) /\
    NoDup (askedAbout (conversationContext st')) /\
    incl (askedAbout (conversationContext st')) ASKED_TOPICS /\
    JSSet.size (askedAbout (conversationContext st')) <= 9.
Proof.
  intros host calls env question st st'.
  assert (Hst : NoDup (askedAbout (conversationContext st))
                /\ incl (askedAbout (conversationContext st)) ASKED_TOPICS).
  { apply runCalls_asked; [constructor | intros x []]. }
  destruct Hst as [Hnd Hincl].
  destruct (generateRAGResponse_extends host env question st) as (Hadd & H1 & H2).
  fold st' in Hadd, H1, H2.
  split; [exact Hadd|]. split; [now apply H1|]. split; [now apply H2|].
  change 9 with (length ASKED_TOPICS). unfold JSSet.size.
  apply NoDup_incl_length; auto.
Qed.

(** X10. The topics are names of intents: after any sequence of calls from
    the initial state every entry of the topic list is one of the 18 intents
    of the taxonomy or of the 5 further intents of the battery of patterns;
    "project" is not among them, so the last topic is never "project" (the
    second name that the follow-up branch compares it with). *)
Theorem topics_are_intent_names :
  forall (host : string -> string -> option nat) (calls : list (Env * string)),
    let ctx := conversationContext (runCalls host calls initialState) in
    Forall (fun t => In t INTENT_ORDER) (topics ctx) /\
    String.eqb (lastTopic ctx) "project" = false.
Proof.
  intros host calls ctx.
  assert (H : Forall (fun t => In t INTENT_ORDER) (topics ctx)).
  { apply runCalls_topic_names. constructor. }
  split; [exact H|]. unfold lastTopic.
  destruct (last_In_or_default (topics ctx) EmptyString) as [E|Hin].
  - rewrite E. reflexivity.
  - rewrite Forall_forall in H. specialize (H _ Hin).
    apply String.eqb_neq. intros E. rewrite E in H.
    vm_compute in H. intuition discriminate.
Qed.

(** X11. The tone that the context records: after any sequence of calls
    from the initial state the depth is "overview" or "detailed", never
    "deep-dive"; and a sentiment that has become "professional" or "casual"
    never returns to "curious". *)
Theorem depth_and_sentiment_over_calls :
  forall (host : string -> string -> option nat) (calls more : list (Env * string)),
    let st := runCalls host calls initialState in
    (depth (conversationContext st) = overview
     \/ depth (conversationContext st) = detailed) /\
    (sentiment (conversationContext st) = professional
     \/ sentiment (conversationContext st) = casual ->
     sentiment (conversationContext (runCalls host more st)) = professional
     \/ sentiment (conversationContext (runCalls host more st)) = casual).
Proof.
  intros host calls more st. split.
  - apply runCalls_depth. now left.
  - apply runCalls_sentiment.
Qed.

(** "That is great" makes the sentiment casual; a greeting leaves it so. *)
Lemma depth_and_sentiment_over_calls_witness :
  sentiment (conversationContext
               (runCalls rejectingHost [(envAt 0 0.5, "That is great")] initialState))
  = casual /\
  (sentiment (conversationContext
                (runCalls rejectingHost [(envAt 1 0.5, "hello")]
                   (runCalls rejectingHost [(envAt 0 0.5, "That is great")]
                             initialState))) = professional \/
   sentiment (conversationContext
                (runCalls rejectingHost [(envAt 1 0.5, "hello")]
                   (runCalls rejectingHost [(envAt 0 0.5, "That is great")]
                             initialState))) = casual).
Proof.
  split; [vm_compute; reflexivity|].
  apply (proj2 (depth_and_sentiment_over_calls rejectingHost
                  [(envAt 0 0.5, "That is great")] [(envAt 1 0.5, "hello")])).
  right. vm_compute. reflexivity.
Defined.

(** ** Regular expressions: the matcher finds a match when there is one *)

Section RegexSemantics.

Lemma rmatch_Star : forall (A : Type) (r : regex) (prev : option ascii) (s : string)
                           (k : option ascii -> string -> option A),
    rmatch (Star r) prev s k = starLoop r k (String.length s) prev s.
Proof. reflexivity. Qed.

Lemma starLoop_sound : forall (A : Type) (r : regex)
                              (k : option ascii -> string -> option A),
    (forall prev s (k' : option ascii -> string -> option A) a,
        rmatch r prev s k' = Some a ->
        exists p' s', Matches r prev s p' s' /\ k' p' s' = Some a) ->
    forall n prev s a,
      starLoop r k n prev s = Some a ->
      exists p' s', Matches (Star r) prev s p' s' /\ k p' s' = Some a.
Proof.
  intros A r k IHr. induction n as [|n IHn]; intros prev s a H; cbn [starLoop] in H.
  - exists prev, s. split; [constructor | exact H].
  - match type of H with
    | match ?m with _ => _ end = _ => destruct m as [a0|] eqn:E
    end.
    + inversion H; subst a0. apply IHr in E.
      destruct E as (p1 & s1 & M1 & Hc).
      destruct (Nat.ltb_spec (String.length s1) (String.length s)) as [Hlt|];
        [|discriminate].
      apply IHn in Hc. destruct Hc as (p' & s' & M2 & Hk).
      exists p', s'. split; [|exact Hk].
      eapply M_StarS; eauto.
    + exists prev, s. split; [constructor | exact H].
Qed.

(** What the matcher returns comes from a match. *)
Lemma rmatch_sound : forall (r : regex) (A : Type) (prev : option ascii) (s : string)
                            (k : option ascii -> string -> option A) (a : A),
    rmatch r prev s k = Some a ->
    exists p' s', Matches r prev s p' s' /\ k p' s' = Some a.
Proof.
  induction r as [| c | f | r1 IH1 r2 IH2 | r1 IH1 r2 IH2 | r IH | | |];
    intros A prev s k a H.
  - exists prev, s. split; [constructor | exact H].
  - cbn [rmatch] in H. destruct s as [|d s']; [discriminate|].
    destruct (Ascii.eqb_spec c d) as [->|]; [|discriminate].
    exists (Some d), s'. split; [constructor | exact H].
  - cbn [rmatch] in H. destruct s as [|d s']; [discriminate|].
    destruct (f d) eqn:Hf; [|discriminate].
    exists (Some d), s'. split; [now constructor | exact H].
  - cbn [rmatch] in H. apply IH1 in H. destruct H as (p1 & s1 & M1 & H).
    apply IH2 in H. destruct H as (p2 & s2 & M2 & H).
    exists p2, s2. split; [eapply M_Seq; eauto | exact H].
  - cbn [rmatch] in H. destruct (rmatch r1 prev s k) as [a0|] eqn:E.
    + inversion H; subst a0. apply IH1 in E. destruct E as (p' & s' & M & Hk).
      exists p', s'. split; [now apply M_AltL | exact Hk].
    + apply IH2 in H. destruct H as (p' & s' & M & Hk).
      exists p', s'. split; [now apply M_AltR | exact Hk].
  - rewrite rmatch_Star in H. eapply starLoop_sound; [|exact H].
    intros prev0 s0 k' a0. apply IH.
  - cbn [rmatch] in H. destruct prev; [discriminate|].
    exists None, s. split; [constructor | exact H].
  - cbn [rmatch] in H. destruct s; [|discriminate].
    exists prev, EmptyString. split; [constructor | exact H].
  - cbn [rmatch] in H.
    destruct (xorb (isWordOpt prev) (isWordOpt (headOf s))) eqn:E; [|discriminate].
    exists prev, s. split; [now constructor | exact H].
Qed.

Lemma starLoop_complete : forall (A : Type) (r : regex)
                                 (k : option ascii -> string -> option A),
    (forall prev s p' s' (k' : option ascii -> string -> option A) a,
        Matches r prev s p' s' -> k' p' s' = Some a ->
        exists a', rmatch r prev s k' = Some a') ->
    forall n prev s p' s' a,
      String.length s <= n ->
      Matches (Star r) prev s p' s' -> k p' s' = Some a ->
      exists a', starLoop r k n prev s = Some a'.
Proof.
  intros A r k IHr. induction n as [|n IHn]; intros prev s p' s' a Hlen M Hk.
  - inversion M; subst.
    + cbn [starLoop]. eauto.
    + lia.
  - inversion M; subst.
    + cbn [starLoop].
      match goal with |- context [rmatch r ?p ?t ?c] => destruct (rmatch r p t c) end;
        eauto.
    + match goal with
      | M1 : Matches r ?p ?t ?p1 ?s1, M2 : Matches (Star r) ?p1 ?s1 _ _,
        Hlt : String.length ?s1 < String.length ?t |- _ =>
          destruct (IHn p1 s1 p' s' a ltac:(lia) M2 Hk) as [a2 Hloop];
          cbn [starLoop];
          destruct (IHr p t p1 s1
                      (fun p0 s0 =>
                         if (String.length s0 <? String.length t)%nat
                         then starLoop r k n p0 s0 else None) a2 M1) as [a3 Hstep];
          [destruct (Nat.ltb_spec (String.length s1) (String.length t));
             [exact Hloop | lia]
          |rewrite Hstep; eauto]
      end.
Qed.

(** Where there is a match after which the continuation succeeds, the
    matcher succeeds. *)
Lemma rmatch_complete : forall (r : regex) (A : Type) (prev : option ascii) (s : string)
                               (p' : option ascii) (s' : string)
                               (k : option ascii -> string -> option A) (a : A),
    Matches r prev s p' s' -> k p' s' = Some a ->
    exists a', rmatch r prev s k = Some a'.
Proof.
  induction r as [| c | f | r1 IH1 r2 IH2 | r1 IH1 r2 IH2 | r IH | | |];
    intros A prev s p' s' k a M Hk.
  - inversion M; subst. cbn [rmatch]. eauto.
  - inversion M; subst. cbn [rmatch]. rewrite Ascii.eqb_refl. eauto.
  - inversion M as [| | f0 c0 p0 s0 Hf | | | | | | | | ]; subst.
    cbn [rmatch]. rewrite Hf. eauto.
  - inversion M as [| | | r1' r2' p0 s0 p1 s1 p2 s2 M1 M2 | | | | | | | ]; subst.
    cbn [rmatch]. destruct (IH2 A p1 s1 p' s' k a M2 Hk) as [a2 H2].
    exact (IH1 A prev s p1 s1 (fun p0 s0 => rmatch r2 p0 s0 k) a2 M1 H2).
  - inversion M as [| | | | r1' r2' p0 s0 p1 s1 M1 | r1' r2' p0 s0 p1 s1 M2 | | | | | ];
      subst; cbn [rmatch].
    + destruct (IH1 A prev s p' s' k a M1 Hk) as [a1 ->]. eauto.
    + destruct (rmatch r1 prev s k); [eauto|].
      exact (IH2 A prev s p' s' k a M2 Hk).
  - rewrite rmatch_Star.
    eapply starLoop_complete; [|apply Nat.le_refl | exact M | exact Hk].
    intros prev0 s0 p0 s0' k' a0. apply IH.
  - inversion M; subst. cbn [rmatch]. eauto.
  - inversion M; subst. cbn [rmatch]. eauto.
  - inversion M as [| | | | | | | | | | p0 s0 Hx]; subst.
    cbn [rmatch]. rewrite Hx. eauto.
Qed.

Lemma search_unfold : forall r prev s,
    search r prev s
    = match matchAt r prev s with
      | Some _ => true
      | None =>
          match s with
          | EmptyString => false
          | String c s' => search r (Some c) s'
          end
      end.
Proof. intros r prev [|c s]; reflexivity. Qed.

(** A search succeeds exactly when the pattern matches somewhere. *)
Lemma search_sound : forall r s prev,
    search r prev s = true ->
    exists x y p' s', s = x ++ y /\ Matches r (lastOf prev x) y p' s'.
Proof.
  intros r. induction s as [|c s IH]; intros prev H; rewrite search_unfold in H.
  - destruct (matchAt r prev EmptyString) as [n|] eqn:E; [|discriminate].
    unfold matchAt in E. apply rmatch_sound in E. destruct E as (p' & s' & M & _).
    now exists EmptyString, EmptyString, p', s'.
  - destruct (matchAt r prev (String c s)) as [n|] eqn:E.
    + unfold matchAt in E. apply rmatch_sound in E. destruct E as (p' & s' & M & _).
      now exists EmptyString, (String c s), p', s'.
    + apply IH in H. destruct H as (x & y & p' & s' & -> & M).
      now exists (String c x), y, p', s'.
Qed.

Lemma search_complete : forall r x y prev p' s',
    Matches r (lastOf prev x) y p' s' -> search r prev (x ++ y) = true.
Proof.
  intros r. induction x as [|c x IH]; intros y prev p' s' M; rewrite search_unfold.
  - cbn [lastOf] in M. change (EmptyString ++ y) with y. unfold matchAt.
    destruct (rmatch_complete r nat prev y p' s'
                (fun _ s0 => Some (String.length y - String.length s0))
                _ M eq_refl) as [a' ->].
    reflexivity.
  - destruct (matchAt r prev (String c x ++ y)); [reflexivity|].
    cbn [lastOf] in M. exact (IH y (Some c) p' s' M).
Qed.

(** *** Literals and [.*] *)

Lemma append_assoc' : forall s t u : string, (s ++ t) ++ u = s ++ t ++ u.
Proof. induction s as [|c s IH]; intros; simpl; [reflexivity | now rewrite IH]. Qed.

Lemma Matches_Str_intro : forall w p s, Matches (Str w) p (w ++ s) (lastOf p w) s.
Proof.
  induction w as [|c w IH]; intros p s; [constructor|].
  destruct w as [|d w].
  - constructor.
  - change (Str (String c (String d w))) with (Seq (Lit c) (Str (String d w))).
    eapply M_Seq; [constructor|]. exact (IH (Some c) s).
Qed.

Lemma Matches_Str_elim : forall w p s p' s',
    Matches (Str w) p s p' s' -> s = w ++ s' /\ p' = lastOf p w.
Proof.
  induction w as [|c w IH]; intros p s p' s' M.
  - inversion M; subst. now split.
  - destruct w as [|d w].
    + inversion M; subst. now split.
    + change (Str (String c (String d w))) with (Seq (Lit c) (Str (String d w))) in M.
      inversion M as [| | | r1' r2' p0 s0 p1 s1 p2 s2 M1 M2 | | | | | | | ]; subst.
      inversion M1; subst. apply IH in M2. destruct M2 as [-> ->]. now split.
Qed.

Lemma Matches_Any_intro : forall y p t,
    noLineTerminator y = true -> Matches Any p (y ++ t) (lastOf p y) t.
Proof.
  induction y as [|c y IH]; intros p t H; [constructor|].
  unfold noLineTerminator in H. simpl in H. apply andb_true_iff in H.
  destruct H as [Hc Hy].
  eapply (@M_StarS Dot p (String c y ++ t) (Some c) (y ++ t)).
  - now constructor.
  - simpl. lia.
  - exact (IH (Some c) t Hy).
Qed.

Lemma Matches_Any_elim : forall p s p' s',
    Matches Any p s p' s' ->
    exists y, s = y ++ s' /\ noLineTerminator y = true /\ p' = lastOf p y.
Proof.
  intros p s p' s' M. unfold Any in M.
  remember (Star Dot) as r eqn:Er.
  induction M as [| | | | | | r0 p0 s0 | r0 p0 s0 p1 s1 p2 s2 M1 _ Hlt M2 IH2 | | | ];
    try discriminate.
  - now exists EmptyString.
  - inversion Er; subst r0. destruct (IH2 eq_refl) as (y & -> & Hy & ->).
    inversion M1 as [| | f0 c0 p3 s3 Hf | | | | | | | | ]; subst.
    exists (String c0 y). split; [reflexivity|]. split; [|reflexivity].
    unfold noLineTerminator in *. simpl. now rewrite Hf, Hy.
Qed.

(** [a.*r]: the literal, anything on the line, then [r]. *)
Lemma Matches_then_elim : forall a r p s p' s',
    Matches (Seq (Str a) (Seq Any r)) p s p' s' ->
    exists y t p1,
      s = a ++ y ++ t /\ noLineTerminator y = true /\ Matches r p1 t p' s'.
Proof.
  intros a r p s p' s' M.
  inversion M as [| | | r1' r2' p0 s0 p1 s1 p2 s2 M1 M2 | | | | | | | ]; subst.
  inversion M2 as [| | | r1' r2' p0 s0 p3 s3 p4 s4 M3 M4 | | | | | | | ]; subst.
  apply Matches_Str_elim in M1. destruct M1 as [-> ->].
  apply Matches_Any_elim in M3. destruct M3 as (y & -> & Hy & ->).
  now exists y, s3, (lastOf (lastOf p a) y).
Qed.

Lemma Matches_then_intro : forall a r p y t p' s',
    noLineTerminator y = true ->
    Matches r (lastOf (lastOf p a) y) t p' s' ->
    Matches (Seq (Str a) (Seq Any r)) p (a ++ y ++ t) p' s'.
Proof.
  intros a r p y t p' s' Hy M.
  eapply M_Seq; [apply Matches_Str_intro|].
  eapply M_Seq; [now apply Matches_Any_intro | exact M].
Qed.

Lemma noLineTerminator_app : forall s t,
    noLineTerminator (s ++ t) = noLineTerminator s && noLineTerminator t.
Proof. intros. apply allChars_app. Qed.

(** An alternation is found when one of its sides is. *)
Lemma search_Alt : forall r1 r2 prev s,
    search (Alt r1 r2) prev s = search r1 prev s || search r2 prev s.
Proof.
  intros r1 r2 prev s.
  destruct (search (Alt r1 r2) prev s) eqn:E.
  - apply search_sound in E. destruct E as (x & y & p' & s' & -> & M).
    inversion M; subst.
    + now rewrite (search_complete r1 x y prev p' s').
    + rewrite (search_complete r2 x y prev p' s') by assumption.
      symmetry. apply orb_true_r.
  - destruct (search r1 prev s) eqn:E1.
    + apply search_sound in E1. destruct E1 as (x & y & p' & s' & -> & M).
      rewrite (search_complete (Alt r1 r2) x y prev p' s') in E; [discriminate|].
      now apply M_AltL.
    + destruct (search r2 prev s) eqn:E2; [|reflexivity].
      apply search_sound in E2. destruct E2 as (x & y & p' & s' & -> & M).
      rewrite (search_complete (Alt r1 r2) x y prev p' s') in E; [discriminate|].
      now apply M_AltR.
Qed.

End RegexSemantics.

(** ** The templates: a rule that never fires *)

Section Templates.

Lemma distinct_NoDup : forall l, distinct l = true -> NoDup l.
Proof.
  induction l as [|x l IH]; intros H; [constructor|].
  simpl in H. apply andb_true_iff in H. destruct H as [Hx Hl].
  constructor; [|now apply IH].
  intros Hin. apply JSSet_has_In in Hin. rewrite Hin in Hx. discriminate.
Qed.

Lemma template_names_NoDup : NoDup (List.map snd QUESTION_PATTERNS).
Proof. apply distinct_NoDup. vm_compute. reflexivity. Qed.

Lemma firstMatching_app_hit : forall pre rule rest question,
    forallb (fun r => test_i r question) (fst rule) = true ->
    exists pattern,
      firstMatching (pre ++ rule :: rest) question = Some pattern /\
      In pattern (List.map snd pre ++ [snd rule]).
Proof.
  induction pre as [|[conds name] pre IH]; intros [c n] rest question H.
  - cbn [app firstMatching fst snd List.map] in *. rewrite H.
    exists n. split; [reflexivity | now left].
  - cbn [app firstMatching List.map snd].
    destruct (forallb (fun r => test_i r question) conds).
    + exists name. split; [reflexivity | now left].
    + destruct (IH (c, n) rest question H) as (p & Hp & Hin).
      exists p. split; [exact Hp | now right].
Qed.

(** The rule that fires is one whose patterns all match. *)
Lemma firstMatching_conds : forall rules question pattern,
    NoDup (List.map snd rules) ->
    firstMatching rules question = Some pattern ->
    forallb (fun r => test_i r question)
            (match find (fun rule : list regex * string => String.eqb (snd rule) pattern)
                        rules with
             | Some rule => fst rule
             | None => []
             end) = true.
Proof.
  induction rules as [|[conds name] rules IH]; intros question pattern Hnd H;
    [discriminate|].
  inversion Hnd as [|? ? Hnotin Hnd']; subst.
  cbn [firstMatching] in H. cbn [find snd fst].
  destruct (forallb (fun r => test_i r question) conds) eqn:Hc.
  - inversion H; subst. now rewrite String.eqb_refl.
  - pose proof (firstMatching_In rules question pattern H) as Hin.
    destruct (String.eqb_spec name pattern) as [->|Hne]; [contradiction|].
    now apply IH.
Qed.

Lemma conditionsOf_why_hire :
  conditionsOf "why_hire"
  = [Alts [chain ["why"; "hire"; "you"]; chain ["why"; "should"; "we"]]].
Proof. reflexivity. Qed.

Lemma conditionsOf_why_ou :
  conditionsOf "why_ou"
  = [Alts [chain ["why"; "university of oklahoma"]; chain ["why"; "ou"]]].
Proof. reflexivity. Qed.

Lemma rules_before_why_hire :
  QUESTION_PATTERNS
  = (firstn 2 QUESTION_PATTERNS
     ++ (conditionsOf "why_ou", "why_ou") :: skipn 3 QUESTION_PATTERNS)%list.
Proof. reflexivity. Qed.

Lemma names_up_to_why_ou :
  (List.map snd (firstn 2 QUESTION_PATTERNS) ++ ["why_ou"])%list
  = ["resume_overview"; "education_motivation"; "why_ou"].
Proof. reflexivity. Qed.

(** What matches [why.*hire.*you|why.*should.*we] matches [why.*ou]: there
    is an "ou" in "you" and in "should". *)
Lemma why_hire_implies_why_ou : forall s,
    test (Alts [chain ["why"; "hire"; "you"]; chain ["why"; "should"; "we"]]) s = true ->
    test (Alts [chain ["why"; "university of oklahoma"]; chain ["why"; "ou"]]) s = true.
Proof.
  intros s H. unfold test in *. apply search_sound in H.
  destruct H as (x & y & p' & s' & -> & M).
  inversion M as [| | | | r1' r2' p0 s0 p1 s1 M1 | r1' r2' p0 s0 p1 s1 M1 | | | | | ];
    subst; clear M.
  - apply (Matches_then_elim "why" (chain ["hire"; "you"])) in M1.
    destruct M1 as (y1 & t1 & p1 & -> & Hy1 & M1).
    apply (Matches_then_elim "hire" (Str "you")) in M1.
    destruct M1 as (y2 & t2 & p2 & -> & Hy2 & M2).
    apply (Matches_Str_elim "you") in M2. destruct M2 as [-> _].
    replace ("why" ++ y1 ++ "hire" ++ y2 ++ "you" ++ s')
      with ("why" ++ (y1 ++ "hire" ++ y2 ++ "y") ++ "ou" ++ s')
      by (now rewrite !append_assoc').
    eapply search_complete. apply M_AltR.
    apply (Matches_then_intro "why" (Str "ou")).
    + rewrite !noLineTerminator_app, Hy1, Hy2. reflexivity.
    + apply (Matches_Str_intro "ou").
  - apply (Matches_then_elim "why" (chain ["should"; "we"])) in M1.
    destruct M1 as (y1 & t1 & p1 & -> & Hy1 & M1).
    apply (Matches_then_elim "should" (Str "we")) in M1.
    destruct M1 as (y2 & t2 & p2 & -> & Hy2 & M2).
    apply (Matches_Str_elim "we") in M2. destruct M2 as [-> _].
    replace ("why" ++ y1 ++ "should" ++ y2 ++ "we" ++ s')
      with ("why" ++ (y1 ++ "sh") ++ "ou" ++ ("ld" ++ y2 ++ "we" ++ s'))
      by (now rewrite !append_assoc').
    eapply search_complete. apply M_AltR.
    apply (Matches_then_intro "why" (Str "ou")).
    + rewrite !noLineTerminator_app, Hy1. reflexivity.
    + apply (Matches_Str_intro "ou").
Qed.

Lemma why_hire_shadowed : forall question,
    templateMatches "why_hire" question = true ->
    matchQuestionPattern question = Some "resume_overview" \/
    matchQuestionPattern question = Some "education_motivation" \/
    matchQuestionPattern question = Some "why_ou".
Proof.
  intros question H. unfold templateMatches in H.
  rewrite conditionsOf_why_hire in H. cbn [forallb] in H.
  rewrite andb_true_r in H. unfold test_i in H.
  apply why_hire_implies_why_ou in H.
  assert (Hou : forallb (fun r => test_i r question)
                        (fst (conditionsOf "why_ou", "why_ou")) = true).
  { cbn [fst]. rewrite conditionsOf_why_ou. cbn [forallb].
    rewrite andb_true_r. exact H. }
  destruct (firstMatching_app_hit (firstn 2 QUESTION_PATTERNS)
              (conditionsOf "why_ou", "why_ou") (skipn 3 QUESTION_PATTERNS)
              question Hou) as (p & Hp & Hin).
  rewrite <- rules_before_why_hire in Hp. fold (matchQuestionPattern question) in Hp.
  cbn [snd] in Hin. rewrite names_up_to_why_ou in Hin.
  rewrite Hp. destruct Hin as [<-|[<-|[<-|[]]]]; auto.
Qed.

End Templates.

(** X12. The template "why_hire" never fires: a question that matches its
    pattern, [why.*hire.*you|why.*should.*we], also matches the pattern
    [why.*ou] of the template "why_ou", which is tried before it, so the
    matcher returns "why_ou" or one of the two templates before that; for no
    question does [matchQuestionPattern] return "why_hire". *)
Theorem why_hire_template_never_fires :
  forall question : string,
    (templateMatches "why_hire" question = true ->
     matchQuestionPattern question = Some "resume_overview" \/
     matchQuestionPattern question = Some "education_motivation" \/
     matchQuestionPattern question = Some "why_ou") /\
    returnsPattern "why_hire" question = false.
Proof.
  intros question. split; [apply why_hire_shadowed|].
  unfold returnsPattern.
  destruct (matchQuestionPattern question) as [p|] eqn:E; [|reflexivity].
  destruct (String.eqb_spec p "why_hire") as [->|]; [|reflexivity].
  exfalso.
  pose proof (firstMatching_conds QUESTION_PATTERNS question "why_hire"
                template_names_NoDup E) as Hc.
  fold (conditionsOf "why_hire") in Hc. fold (templateMatches "why_hire" question) in Hc.
  destruct (why_hire_shadowed question Hc) as [H|[H|H]]; rewrite H in E; discriminate.
Qed.

(** "Why should we hire you?" matches the pattern of "why_hire" and is
    answered as "why_ou". *)
Lemma why_hire_template_never_fires_witness :
  templateMatches "why_hire" "Why should we hire you?" = true /\
  matchQuestionPattern "Why should we hire you?" = Some "why_ou" /\
  (matchQuestionPattern "Why should we hire you?" = Some "resume_overview" \/
   matchQuestionPattern "Why should we hire you?" = Some "education_motivation" \/
   matchQuestionPattern "Why should we hire you?" = Some "why_ou").
Proof.
  split; [vm_compute; reflexivity|]. split; [vm_compute; reflexivity|].
  apply (proj1 (why_hire_template_never_fires "Why should we hire you?")).
  vm_compute. reflexivity.
Defined.

(** ** The extraction: introductions, and when it throws *)

Lemma search_Bol_after : forall r c s, search (Seq Bol r) (Some c) s = false.
Proof.
  intros r c s. revert c. induction s as [|d s IH]; intros c; rewrite search_unfold.
  - reflexivity.
  - cbn [matchAt rmatch]. unfold matchAt. cbn [rmatch]. apply IH.
Qed.

(** An alternation of literals, tried at a position, succeeds when one of
    the literals is a prefix of the input there. *)
Lemma rmatch_Alts_Str : forall (A : Type) (l : list string) (p : option ascii)
                               (s : string) (k : option ascii -> string -> option A),
    (forall p' s', k p' s' <> None) ->
    match rmatch (Alts (List.map Str l)) p s k with
    | Some _ => true
    | None => false
    end = existsb (fun w => startsWith w s) l.
Proof.
  intros A l p s k Hk. induction l as [|w l IH].
  - cbn [List.map Alts existsb rmatch]. now destruct s.
  - destruct l as [|w' l].
    + cbn [List.map Alts existsb]. rewrite rmatch_Str, orb_false_r.
      destruct (startsWith w s); [|reflexivity].
      destruct (k (lastOf p w) (dropStr (String.length w) s)) eqn:E;
        [reflexivity | now apply Hk in E].
    + change (Alts (List.map Str (w :: w' :: l)))
        with (Alt (Str w) (Alts (List.map Str (w' :: l)))).
      cbn [rmatch]. rewrite rmatch_Str.
      change (existsb (fun w0 => startsWith w0 s) (w :: w' :: l))
        with (startsWith w s || existsb (fun w0 => startsWith w0 s) (w' :: l)).
      destruct (startsWith w s).
      * destruct (k (lastOf p w) (dropStr (String.length w) s)) eqn:E;
          [reflexivity | now apply Hk in E].
      * exact IH.
Qed.

(** The pattern that opens [extractRelevantInfo] tests for a prefix. *)
Lemma test_introRegex : forall s,
    test introRegex s = existsb (fun w => startsWith w s) INTRO_PHRASES.
Proof.
  intros s. unfold test, introRegex. rewrite search_unfold. unfold matchAt.
  cbn [rmatch].
  rewrite <- (rmatch_Alts_Str nat INTRO_PHRASES None s
                (fun _ s' => Some (String.length s - String.length s')))
    by discriminate.
  fold INTRO_PHRASES.
  destruct (rmatch (Alts (List.map Str INTRO_PHRASES)) None s _); [reflexivity|].
  destruct s as [|c s]; [reflexivity | apply search_Bol_after].
Qed.

(** X13. A query is taken for an introduction when it begins with one of
    "hi", "hey", "hello", "howdy", "who are you", "tell me about yourself"
    or "about you", whatever follows, a letter included ("history",
    "higher"): the extraction then returns the block of name, location,
    contact, bio and summary, records "intro" and looks at no section of
    the profile. *)
Theorem introduction_is_a_prefix_test :
  forall (host : string -> string -> option nat) (resume : ResumeData)
         (query : string) (ctx : ConversationContext),
    test introRegex (toLowerCase query)
    = existsb (fun phrase => startsWith phrase (toLowerCase query)) INTRO_PHRASES /\
    (existsb (fun phrase => startsWith phrase (toLowerCase query)) INTRO_PHRASES = true ->
     extractRelevantInfo host resume query ctx
     = (Some (introBlock resume),
        askedAbout_add "intro" (updateContext query (detectIntent query) ctx))).
Proof.
  intros host resume query ctx. split; [apply test_introRegex|].
  intros H. unfold extractRelevantInfo. now rewrite test_introRegex, H.
Qed.

(** "History of your projects" begins with "hi". *)
Lemma introduction_is_a_prefix_test_witness :
  existsb (fun phrase => startsWith phrase (toLowerCase "History of your projects"))
          INTRO_PHRASES = true /\
  extractRelevantInfo rejectingHost bareProfile "History of your projects" initialContext
  = (Some (introBlock bareProfile),
     askedAbout_add "intro"
       (updateContext "History of your projects"
                      (detectIntent "History of your projects") initialContext)).
Proof.
  split; [reflexivity|].
  apply (proj2 (introduction_is_a_prefix_test rejectingHost bareProfile
                  "History of your projects" initialContext)).
  reflexivity.
Defined.





Section Similarity.
Variable host : string -> string -> option nat.

(** The second loop of [calculateAdvancedSimilarity] throws when the host
    rejects the pattern of one of the words, and only then. *)
Lemma prefixScore_None : forall boost textLower words score,
    prefixScore host boost textLower words score = None <->
    exists word, In word words /\ wordPrefixCount host word textLower = None.
Proof.
  intros boost textLower words. induction words as [|w words IH]; intros score.
  - split; [discriminate | intros (word & [] & _)].
  - cbn [prefixScore]. destruct (wordPrefixCount host w textLower) as [[|n]|] eqn:E.
    + rewrite IH. split.
      * intros (word & Hin & Hw). exists word. split; [now right | exact Hw].
      * intros (word & [<-|Hin] & Hw); [congruence|]. now exists word.
    + rewrite IH. split.
      * intros (word & Hin & Hw). exists word. split; [now right | exact Hw].
      * intros (word & [<-|Hin] & Hw); [congruence|]. now exists word.
    + split; [|reflexivity]. intros _. exists w. split; [now left | exact E].
Qed.

Lemma wordPrefixCount_None : forall word textLower,
    wordPrefixCount host word textLower = None <->
    isPlain word = false /\ host ("\b" ++ word ++ "\w*") textLower = None.
Proof.
  intros word textLower. unfold wordPrefixCount.
  destruct (isPlain word); split; try discriminate; try tauto.
  intros [H _]. discriminate.
Qed.

Lemma calculateAdvancedSimilarity_None : forall query text boost,
    calculateAdvancedSimilarity host query text boost = None <->
    exists word,
      In word (queryWordsOf query) /\ isPlain word = false /\
      host ("\b" ++ word ++ "\w*") (toLowerCase text) = None.
Proof.
  intros query text boost. unfold calculateAdvancedSimilarity.
  fold (queryWordsOf query).
  match goal with
  | |- context [prefixScore host boost ?t ?w ?s] =>
      pose proof (prefixScore_None boost t w s) as H;
      destruct (prefixScore host boost t w s) as [x|]
  end.
  - split; [discriminate|]. intros (word & Hin & Hp & Hh).
    assert (E : Some x = None); [|discriminate].
    apply H. exists word. split; [exact Hin|]. now apply wordPrefixCount_None.
  - split; [|reflexivity]. intros _. destruct (proj1 H eq_refl) as (word & Hin & Hw).
    apply wordPrefixCount_None in Hw. now exists word.
Qed.



End Similarity.

(** X14. [calculateAdvancedSimilarity] throws exactly when the host rejects
    the pattern [\b<word>\w*] that it builds from one of the words of the
    query that are longer than two characters; the host is asked only for
    words that contain a character of the syntax of patterns, so a query
    without such characters always gets a score. *)
Theorem similarity_throws_on_rejected_pattern_only :
  forall (host : string -> string -> option nat) (query text : string) (boost : float),
    (calculateAdvancedSimilarity host query text boost = None <->
     exists word,
       In word (queryWordsOf query) /\ isPlain word = false /\
       host ("\b" ++ word ++ "\w*") (toLowerCase text) = None) /\
    (forallb isPlain (queryWordsOf query) = true ->
     exists score, calculateAdvancedSimilarity host query text boost = Some score).
Proof.
  intros host query text boost. split.
  - apply calculateAdvancedSimilarity_None.
  - intros H. now apply similarity_plain.
Qed.

(** With a host that rejects every pattern: "c++ developer" throws on the
    word "c++", "python developer" gets a score. *)
Lemma similarity_throws_on_rejected_pattern_only_witness :
  calculateAdvancedSimilarity rejectingHost "c++ developer" "Python developer" 1
  = None /\
  forallb isPlain (queryWordsOf "python developer") = true /\
  exists score,
    calculateAdvancedSimilarity rejectingHost "python developer" "Python developer" 1
    = Some score.
Proof.
  split.
  - apply (proj1 (similarity_throws_on_rejected_pattern_only rejectingHost
                    "c++ developer" "Python developer" 1)).
    exists "c++". split; [now left|]. split; reflexivity.
  - split; [reflexivity|].
    apply (proj2 (similarity_throws_on_rejected_pattern_only rejectingHost
                    "python developer" "Python developer" 1)).
    reflexivity.
Defined.


(** ** The pipeline: letter case, questions on projects *)

Lemma In_allCodeUnits : forall c, In c allCodeUnits.
Proof.
  intros c. unfold allCodeUnits. rewrite <- (ascii_nat_embedding c).
  apply in_map. apply in_seq. pose proof (nat_ascii_bounded c). lia.
Qed.

Lemma forall_code_units : forall P : ascii -> bool,
    forallb P allCodeUnits = true -> forall c, P c = true.
Proof. intros P H c. rewrite forallb_forall in H. apply H, In_allCodeUnits. Qed.

(** A literal that is no capital letter meets, canonicalised, the
    characters whose small letter it is. *)
Lemma canonicalize_lower : forall c d,
    isUpper c = false ->
    Ascii.eqb (canonicalize c) (canonicalize d) = Ascii.eqb c (lowerChar d).
Proof.
  intros c d Hc.
  assert (H : forallb (fun c => forallb (fun d =>
                implb (negb (isUpper c))
                      (Bool.eqb (Ascii.eqb (canonicalize c) (canonicalize d))
                                (Ascii.eqb c (lowerChar d)))) allCodeUnits)
                allCodeUnits = true) by (vm_compute; reflexivity).
  pose proof (forall_code_units _ (forall_code_units _ H c) d) as E.
  cbv beta in E. rewrite Hc in E. simpl in E. now apply eqb_prop in E.
Qed.

Lemma isWordChar_lowerChar : forall c, isWordChar (lowerChar c) = isWordChar c.
Proof.
  intros c.
  assert (H : forallb (fun c => Bool.eqb (isWordChar (lowerChar c)) (isWordChar c))
                      allCodeUnits = true) by (vm_compute; reflexivity).
  apply eqb_prop. exact (forall_code_units _ H c).
Qed.

Lemma isWordOpt_lower : forall p, isWordOpt (option_map lowerChar p) = isWordOpt p.
Proof. intros [c|]; [apply isWordChar_lowerChar | reflexivity]. Qed.

Lemma headOf_toLowerCase : forall s,
    headOf (toLowerCase s) = option_map lowerChar (headOf s).
Proof. now intros [|c s]. Qed.

Lemma length_toLowerCase : forall s,
    String.length (toLowerCase s) = String.length s.
Proof. induction s as [|c s IH]; [reflexivity | simpl; f_equal; exact IH]. Qed.

Lemma rmatch_ci_Star : forall (A : Type) (r : regex) (prev : option ascii) (s : string)
                              (k : option ascii -> string -> option A),
    rmatch_ci (Star r) prev s k = starLoop_ci r k (String.length s) prev s.
Proof. reflexivity. Qed.

(** Matching with the flag [i] is matching the lower-cased input, for a
    pattern written in lower case. *)
Lemma rmatch_ci_lower : forall r : regex,
    lowerCased r = true ->
    forall (A : Type) (k k' : option ascii -> string -> option A),
      (forall p s, k p s = k' (option_map lowerChar p) (toLowerCase s)) ->
      forall prev s,
        rmatch_ci r prev s k
        = rmatch r (option_map lowerChar prev) (toLowerCase s) k'.
Proof.
  induction r as [|c|f|r1 IH1 r2 IH2|r1 IH1 r2 IH2|r IH| | |];
    intros Hr A k k' Hk prev s.
  - apply Hk.
  - destruct s as [|d s]; [reflexivity|]. cbn [rmatch_ci rmatch toLowerCase JSString.map].
    cbn [lowerCased] in Hr. apply negb_true_iff in Hr.
    rewrite (canonicalize_lower c d Hr).
    destruct (Ascii.eqb c (lowerChar d)); [apply (Hk (Some d) s) | reflexivity].
  - destruct s as [|d s]; [reflexivity|]. cbn [rmatch_ci rmatch toLowerCase JSString.map].
    cbn [lowerCased] in Hr.
    pose proof (forall_code_units _ Hr d) as E. cbv beta in E.
    apply eqb_prop in E. rewrite E.
    destruct (f (lowerChar d)); [apply (Hk (Some d) s) | reflexivity].
  - cbn [lowerCased] in Hr. apply andb_true_iff in Hr. destruct Hr as [H1 H2].
    cbn [rmatch_ci rmatch]. apply IH1; [exact H1|].
    intros p s'. now apply IH2.
  - cbn [lowerCased] in Hr. apply andb_true_iff in Hr. destruct Hr as [H1 H2].
    cbn [rmatch_ci rmatch].
    rewrite (IH1 H1 A k k' Hk prev s), (IH2 H2 A k k' Hk prev s). reflexivity.
  - cbn [lowerCased] in Hr.
    rewrite rmatch_ci_Star, rmatch_Star, length_toLowerCase.
    generalize (String.length s) as n. intros n. revert prev s.
    induction n as [|n IHn]; intros prev s; cbn [starLoop_ci starLoop]; [apply Hk|].
    rewrite (IH Hr A
               (fun p' s' => if (String.length s' <? String.length s)%nat
                             then starLoop_ci r k n p' s' else None)
               (fun p' s' => if (String.length s' <? String.length (toLowerCase s))%nat
                             then starLoop r k' n p' s' else None)).
    + now rewrite (Hk prev s).
    + intros p s'. rewrite !length_toLowerCase.
      destruct (String.length s' <? String.length s)%nat; [apply IHn | reflexivity].
  - destruct prev; [reflexivity | apply (Hk None s)].
  - destruct s; [apply (Hk prev EmptyString) | reflexivity].
  - cbn [rmatch_ci rmatch]. rewrite isWordOpt_lower, headOf_toLowerCase, isWordOpt_lower.
    destruct (xorb (isWordOpt prev) (isWordOpt (headOf s))); [apply Hk | reflexivity].
Qed.

Lemma matchAt_ci_lower : forall r prev s,
    lowerCased r = true ->
    matchAt_ci r prev s = matchAt r (option_map lowerChar prev) (toLowerCase s).
Proof.
  intros r prev s Hr. unfold matchAt_ci, matchAt.
  apply rmatch_ci_lower; [exact Hr|].
  intros p s'. now rewrite !length_toLowerCase.
Qed.

Lemma search_ci_lower : forall r s prev,
    lowerCased r = true ->
    search_ci r prev s = search r (option_map lowerChar prev) (toLowerCase s).
Proof.
  intros r s. induction s as [|c s IH]; intros prev Hr.
  - cbn [search_ci search toLowerCase JSString.map].
    now rewrite (matchAt_ci_lower r prev EmptyString Hr).
  - cbn [search_ci search toLowerCase JSString.map].
    rewrite (matchAt_ci_lower r prev (String c s) Hr).
    cbn [toLowerCase JSString.map].
    destruct (matchAt r (option_map lowerChar prev) (String (lowerChar c) (JSString.map lowerChar s)));
      [reflexivity|].
    exact (IH (Some c) Hr).
Qed.

(** The rendering of the flag [i] by [test_i] is the flag of the language,
    for a pattern written in lower case. *)
Lemma test_ci_test_i : forall r s,
    lowerCased r = true -> test_ci r s = test_i r s.
Proof. intros r s Hr. unfold test_ci, test_i, test. exact (search_ci_lower r s None Hr). Qed.

Lemma firstMatching_ci_firstMatching : forall rules question,
    forallb (fun rule : list regex * string => forallb lowerCased (fst rule)) rules = true ->
    firstMatching_ci rules question = firstMatching rules question.
Proof.
  intros rules question. induction rules as [|[conds name] rules IH]; intros H;
    [reflexivity|].
  cbn [forallb fst] in H. apply andb_true_iff in H. destruct H as [Hc Hrest].
  cbn [firstMatching_ci firstMatching].
  replace (forallb (fun r => test_ci r question) conds)
    with (forallb (fun r => test_i r question) conds).
  - now rewrite (IH Hrest).
  - clear -Hc. induction conds as [|r conds IHc]; [reflexivity|].
    cbn [forallb] in *. apply andb_true_iff in Hc. destruct Hc as [Hr Hc].
    now rewrite (test_ci_test_i r question Hr), (IHc Hc).
Qed.

Lemma QUESTION_PATTERNS_lowerCased :
  forallb (fun rule : list regex * string => forallb lowerCased (fst rule))
          QUESTION_PATTERNS = true.
Proof. vm_compute. reflexivity. Qed.

Lemma matchQuestionPattern_ci_model : forall question,
    matchQuestionPattern_ci question = matchQuestionPattern question.
Proof.
  intros question.
  exact (firstMatching_ci_firstMatching QUESTION_PATTERNS question
           QUESTION_PATTERNS_lowerCased).
Qed.

(** ** The pipeline: letter case, questions on projects *)

Lemma firstMatching_case : forall rules q1 q2,
    toLowerCase q1 = toLowerCase q2 ->
    firstMatching rules q1 = firstMatching rules q2.
Proof.
  intros rules q1 q2 H. induction rules as [|[conds name] rules IH]; [reflexivity|].
  cbn [firstMatching]. unfold test_i. now rewrite H, IH.
Qed.

Lemma normalizeQuery_case : forall q1 q2,
    toLowerCase q1 = toLowerCase q2 -> normalizeQuery q1 = normalizeQuery q2.
Proof. intros q1 q2 H. unfold normalizeQuery. now rewrite H. Qed.

Lemma getCachedResponse_case : forall t q1 q2 c,
    toLowerCase q1 = toLowerCase q2 ->
    getCachedResponse t q1 c = getCachedResponse t q2 c.
Proof. intros t q1 q2 c H. unfold getCachedResponse, cacheKeyOf. now rewrite H. Qed.

Lemma respond_case : forall env q1 q2 intents info st,
    toLowerCase q1 = toLowerCase q2 ->
    respond env q1 intents info st = respond env q2 intents info st.
Proof.
  intros env q1 q2 intents info st H.
  unfold respond, matchQuestionPattern.
  rewrite (firstMatching_case QUESTION_PATTERNS q1 q2 H).
  unfold intentBranches, cached, cacheResponse, cacheKeyOf, test_i.
  now rewrite H.
Qed.

Section PipelineMore.
Variable host : string -> string -> option nat.

Lemma generateRAGResponse_case : forall env q1 q2 st,
    toLowerCase q1 = toLowerCase q2 ->
    generateRAGResponse host env q1 st = generateRAGResponse host env q2 st.
Proof.
  intros env q1 q2 st H. unfold generateRAGResponse, answer.
  rewrite (getCachedResponse_case (now env) q1 q2 (responseCache st) H).
  rewrite (normalizeQuery_case q1 q2 H).
  destruct (getCachedResponse (now env) q2 (responseCache st)) as [[r|] c];
    [destruct (truthy r); [reflexivity|]|];
    destruct (resumeOrFallback env (withCache c st)) as [resume st0];
    destruct (extractOrEmpty host resume (normalizeQuery q2) st0) as [info st1];
    now rewrite (respond_case env q1 q2 _ info st1 H).
Qed.

Lemma respond_project : forall env question intents info st,
    includes "project" (toLowerCase question) = true ->
    respond env question intents info st
    = cached env question Text.projectResponse st.
Proof. intros env question intents info st H. unfold respond. now rewrite H. Qed.

End PipelineMore.

(** X16. Letter case does not matter, for questions over the ASCII range:
    two such questions that are the same in lower case get the same normal
    form; every pattern written in lower case, tried on the questions as
    they were typed with the flag [i] as the language defines it (each
    character canonicalised), gives the same verdict on both, which is the
    verdict of [test_i]; so [matchQuestionPattern] returns the same
    template for both; and from the same state, with the same readings
    from outside, the two calls return the same response and leave the
    same state. *)
Theorem answer_ignores_letter_case :
  forall (host : string -> string -> option nat) (env : Env)
         (q1 q2 : string) (st : State),
    allChars isAscii q1 = true ->
    allChars isAscii q2 = true ->
    toLowerCase q1 = toLowerCase q2 ->
    normalizeQuery q1 = normalizeQuery q2 /\
    (forall r : regex,
        lowerCased r = true ->
        test_ci r q1 = test_ci r q2 /\ test_i r q1 = test_ci r q1) /\
    matchQuestionPattern_ci q1 = matchQuestionPattern_ci q2 /\
    matchQuestionPattern q1 = matchQuestionPattern_ci q1 /\
    matchQuestionPattern q2 = matchQuestionPattern_ci q2 /\
    generateRAGResponse host env q1 st = generateRAGResponse host env q2 st.
Proof.
  intros host env q1 q2 st _ _ H. split; [now apply normalizeQuery_case|].
  split; [|split; [|split; [|split]]].
  - intros r Hr. rewrite !(test_ci_test_i r _ Hr). unfold test_i.
    now rewrite H.
  - rewrite !matchQuestionPattern_ci_model. now apply firstMatching_case.
  - symmetry. apply matchQuestionPattern_ci_model.
  - symmetry. apply matchQuestionPattern_ci_model.
  - now apply generateRAGResponse_case.
Qed.

(** "Walk Me Through Your RESUME" and "walk me through your resume". *)
Lemma answer_ignores_letter_case_witness :
  normalizeQuery "Walk Me Through Your RESUME" = normalizeQuery "walk me through your resume" /\
  (forall r : regex,
      lowerCased r = true ->
      test_ci r "Walk Me Through Your RESUME" = test_ci r "walk me through your resume" /\
      test_i r "Walk Me Through Your RESUME" = test_ci r "Walk Me Through Your RESUME") /\
  matchQuestionPattern_ci "Walk Me Through Your RESUME"
  = matchQuestionPattern_ci "walk me through your resume" /\
  matchQuestionPattern "Walk Me Through Your RESUME"
  = matchQuestionPattern_ci "Walk Me Through Your RESUME" /\
  matchQuestionPattern "walk me through your resume"
  = matchQuestionPattern_ci "walk me through your resume" /\
  generateRAGResponse rejectingHost (envAt 0 0.5) "Walk Me Through Your RESUME" initialState
  = generateRAGResponse rejectingHost (envAt 0 0.5) "walk me through your resume" initialState.
Proof.
  apply (answer_ignores_letter_case rejectingHost (envAt 0 0.5)
           "Walk Me Through Your RESUME" "walk me through your resume" initialState);
    reflexivity.
Defined.

(** X17. A question with "project" in it, in any letter case, is answered
    by the direct handler: unless a live cache entry serves it, the call
    resolves with the fixed paragraph on projects and writes it to the
    cache under the question, in the state that the extraction leaves; no
    template and no branch by intent is tried. *)
Theorem project_questions_get_the_fixed_paragraph :
  forall (host : string -> string -> option nat) (env : Env)
         (question : string) (st : State),
    includes "project" (toLowerCase question) = true ->
    servedFromCache env question st = None ->
    let st1 := afterExtraction host env question st in
    generateRAGResponse host env question st
    = (Resolved Text.projectResponse,
       withCache (cacheResponse (now env) question Text.projectResponse
                                (responseCache st1)) st1).
Proof.
  intros host env question st Hp Hs st1.
  rewrite (generateRAGResponse_miss_respond host env question st Hs).
  fold st1. now rewrite (respond_project env question _ _ st1 Hp).
Qed.

(** "How do you manage time across each PROJECT?" matches the template
    "time_management" and is answered with the paragraph on projects. *)
Lemma project_questions_get_the_fixed_paragraph_witness :
  matchQuestionPattern "How do you manage time across each PROJECT?"
  = Some "time_management" /\
  generateRAGResponse rejectingHost (envAt 0 0.5)
                      "How do you manage time across each PROJECT?" initialState
  = (Resolved Text.projectResponse,
     withCache
       (cacheResponse 0 "How do you manage time across each PROJECT?"
                      Text.projectResponse
                      (responseCache
                         (afterExtraction rejectingHost (envAt 0 0.5)
                            "How do you manage time across each PROJECT?" initialState)))
       (afterExtraction rejectingHost (envAt 0 0.5)
          "How do you manage time across each PROJECT?" initialState)).
Proof.
  split; [vm_compute; reflexivity|].
  apply (project_questions_get_the_fixed_paragraph rejectingHost (envAt 0 0.5)
           "How do you manage time across each PROJECT?" initialState);
    vm_compute; reflexivity.
Defined.

(** ** The normaliser: the shape of what it returns *)

Section NormalizeMore.

Lemma fold_synonyms_allChars : forall (p : ascii -> bool) table s,
    forallb (fun ws : string * list string =>
               allChars p (" " ++ join " " (snd ws))) table = true ->
    allChars p s = true ->
    allChars p (fold_left (fun normalized ws =>
                             if includes (fst ws) normalized
                             then normalized ++ " " ++ join " " (snd ws)
                             else normalized) table s) = true.
Proof.
  intros p table. induction table as [|ws table IH]; intros s Ht Hs; [exact Hs|].
  cbn [forallb] in Ht. apply andb_true_iff in Ht. destruct Ht as [Hw Ht].
  cbn [fold_left]. apply IH; [exact Ht|].
  destruct (includes (fst ws) s); [|exact Hs].
  rewrite allChars_app, Hs. exact Hw.
Qed.

Lemma synonyms_lowered :
  forallb (fun ws : string * list string =>
             allChars lowered (" " ++ join " " (snd ws))) SYNONYMS = true.
Proof. vm_compute. reflexivity. Qed.

Lemma normalizeQuery_lowered : forall query,
    allChars lowered (normalizeQuery query) = true.
Proof.
  intros query. unfold normalizeQuery.
  apply cleanPunctuation_lowered. unfold expandSynonyms.
  apply fold_synonyms_allChars; [exact synonyms_lowered|].
  apply fixTypos_lowered, allChars_trim, lowered_toLowerCase.
Qed.

(** *** Words *)

Lemma wordsOf_nonempty : forall s,
    isWordOpt (headOf s) = true -> wordsOf s <> [].
Proof.
  intros [|c s] H; [discriminate|]. cbn [headOf isWordOpt] in H.
  rewrite wordsOf_cons, H.
  destruct (isWordOpt (headOf s)); [destruct (wordsOf s)|]; discriminate.
Qed.

(** The words of two strings with a separator between them. *)
Lemma wordsOf_app_sep : forall s c t,
    isWordChar c = false ->
    wordsOf (s ++ String c t) = (wordsOf s ++ wordsOf t)%list.
Proof.
  induction s as [|d s IH]; intros c t Hc.
  - change (EmptyString ++ String c t) with (String c t).
    rewrite (wordsOf_cons c t), Hc. reflexivity.
  - change (String d s ++ String c t) with (String d (s ++ String c t)).
    rewrite (wordsOf_cons d (s ++ String c t)), (wordsOf_cons d s), (IH c t Hc).
    assert (Hh : isWordOpt (headOf (s ++ String c t)) = isWordOpt (headOf s)).
    { destruct s; simpl; [now rewrite Hc | reflexivity]. }
    rewrite Hh. destruct (isWordChar d); [|reflexivity].
    destruct (isWordOpt (headOf s)) eqn:Hs; [|reflexivity].
    pose proof (wordsOf_nonempty s Hs) as Hne.
    destruct (wordsOf s) as [|w ws]; [congruence | reflexivity].
Qed.

Lemma fold_synonyms_words : forall (P : string -> Prop) table s,
    (forall ws, In ws table -> Forall P (wordsOf (join " " (snd ws)))) ->
    Forall P (wordsOf s) ->
    Forall P (wordsOf (fold_left (fun normalized ws =>
                                    if includes (fst ws) normalized
                                    then normalized ++ " " ++ join " " (snd ws)
                                    else normalized) table s)).
Proof.
  intros P table. induction table as [|ws table IH]; intros s Ht Hs; [exact Hs|].
  cbn [fold_left]. apply IH; [intros ws' Hin; apply Ht; now right|].
  destruct (includes (fst ws) s); [|exact Hs].
  change (s ++ " " ++ join " " (snd ws)) with (s ++ String " " (join " " (snd ws))).
  rewrite wordsOf_app_sep by reflexivity.
  apply Forall_app. split; [exact Hs | apply Ht; now left].
Qed.

Lemma synonyms_not_typos :
  forallb (fun ws : string * list string =>
             forallb (fun w => negb (isTypo w)) (wordsOf (join " " (snd ws))))
          SYNONYMS = true.
Proof. vm_compute. reflexivity. Qed.

Lemma normalizeQuery_words : forall query,
    Forall (fun w => isTypo w = false) (wordsOf (normalizeQuery query)).
Proof.
  intros query. unfold normalizeQuery.
  rewrite wordsOf_cleanPunctuation. unfold expandSynonyms.
  apply fold_synonyms_words.
  - intros ws Hin. pose proof synonyms_not_typos as H.
    rewrite forallb_forall in H. specialize (H ws Hin).
    rewrite forallb_forall in H. apply Forall_forall. intros w Hw.
    specialize (H w Hw). now apply negb_true_iff in H.
  - rewrite wordsOf_fixTypos. apply Forall_forall. intros w Hw.
    apply in_map_iff in Hw. destruct Hw as (w0 & <- & _).
    unfold isTypo. apply JSMapFacts.has_false_notin. apply fixWord_not_typo.
Qed.

(** *** What the normaliser drops *)

Lemma blank_lowerChar : forall c, blank (lowerChar c) = blank c.
Proof. intros [[] [] [] [] [] [] [] []]; reflexivity. Qed.

Lemma word_not_blank : forall c, isWordChar c = true -> blank c = false.
Proof. intros [[] [] [] [] [] [] [] []]; vm_compute; congruence. Qed.

Lemma space_blank : forall c, isSpace c = true -> blank c = true.
Proof. intros c H. unfold blank. now rewrite H. Qed.

Lemma punct_blank : forall c, isPunct c = true -> blank c = true.
Proof. intros c H. unfold blank. rewrite H. apply orb_true_r. Qed.

Lemma blank_toLowerCase : forall s,
    allChars blank (toLowerCase s) = allChars blank s.
Proof.
  induction s as [|c s IH]; [reflexivity|].
  unfold toLowerCase in *. simpl. now rewrite IH, blank_lowerChar.
Qed.

Lemma blank_trimStart : forall s, allChars blank (trimStart s) = allChars blank s.
Proof.
  induction s as [|c s IH]; [reflexivity|]. cbn [trimStart].
  destruct (isSpace c) eqn:Hc; [|reflexivity].
  cbn [allChars]. now rewrite (space_blank c Hc), IH.
Qed.

Lemma blank_trimEnd : forall s, allChars blank (trimEnd s) = allChars blank s.
Proof.
  induction s as [|c s IH]; [reflexivity|]. cbn [trimEnd allChars].
  rewrite <- IH. destruct (trimEnd s) as [|d t].
  - destruct (isSpace c) eqn:Hc; [|reflexivity].
    cbn [allChars]. now rewrite (space_blank c Hc).
  - reflexivity.
Qed.

Lemma blank_trim : forall s, allChars blank (trim s) = allChars blank s.
Proof. intros s. unfold trim. now rewrite blank_trimEnd, blank_trimStart. Qed.

Lemma blank_squeeze : forall (f : ascii -> bool) s b,
    (forall c, f c = true -> blank c = true) ->
    allChars blank (squeeze f b s) = allChars blank s.
Proof.
  intros f s. induction s as [|c s IH]; intros b Hf; [reflexivity|].
  cbn [squeeze allChars]. destruct (f c) eqn:Hc.
  - rewrite (Hf c Hc). destruct b; cbn [allChars andb]; now apply IH.
  - cbn [allChars]. now rewrite IH.
Qed.

Lemma blank_untok : forall ts,
    normal ts = true -> allChars blank (untok ts) = forallb tokBlank ts.
Proof.
  induction ts as [|[w|c] ts IH]; intros H; [reflexivity| |].
  - cbn [normal] in H.
    apply andb_true_iff in H. destruct H as [H H4].
    apply andb_true_iff in H. destruct H as [H H3].
    apply andb_true_iff in H. destruct H as [H1 H2].
    cbn [untok forallb tokBlank andb]. rewrite allChars_app.
    destruct w as [|d w]; [discriminate|].
    cbn [allChars] in *. apply andb_true_iff in H2. destruct H2 as [Hd _].
    now rewrite (word_not_blank d Hd).
  - cbn [normal] in H. apply andb_true_iff in H. destruct H as [_ Hn].
    cbn [untok forallb tokBlank allChars]. now rewrite (IH Hn).
Qed.

Lemma tokBlank_fixTokens : forall table ts,
    forallb tokBlank (fixTokens table ts) = forallb tokBlank ts.
Proof.
  induction table as [|tc table IH]; intros ts; [reflexivity|].
  cbn [fixTokens fold_left]. fold (fixTokens table (List.map (substTok (fst tc) (snd tc)) ts)).
  rewrite IH. induction ts as [|[w|c] ts IHts]; [reflexivity| |];
    cbn [List.map forallb substTok tokBlank]; now rewrite ?IHts.
Qed.

Lemma blank_fixTypos : forall s, allChars blank (fixTypos s) = allChars blank s.
Proof.
  intros s.
  destruct (fold_typos_tokens TYPO_CORRECTIONS (tokens s) typo_table_wordy
              (tokens_normal s)) as [_ Hn].
  rewrite fixTypos_tokens, (blank_untok _ Hn), tokBlank_fixTokens.
  rewrite <- (blank_untok _ (tokens_normal s)). now rewrite untok_tokens.
Qed.

Lemma startsWith_allChars : forall (p : ascii -> bool) w s,
    startsWith w s = true -> allChars p s = true -> allChars p w = true.
Proof.
  intros p w. induction w as [|c w IH]; intros s Hw Hs; [reflexivity|].
  destruct s as [|d s]; [discriminate|]. cbn [startsWith allChars] in *.
  apply andb_true_iff in Hw. destruct Hw as [Hc Hw].
  apply andb_true_iff in Hs. destruct Hs as [Hd Hs].
  apply Ascii.eqb_eq in Hc. subst d. now rewrite Hd, (IH s Hw Hs).
Qed.

Lemma includes_allChars : forall (p : ascii -> bool) w s,
    includes w s = true -> allChars p s = true -> allChars p w = true.
Proof.
  intros p w s. induction s as [|d s IH]; intros Hw Hs.
  - cbn [includes] in Hw. rewrite orb_false_r in Hw.
    now apply (startsWith_allChars p w EmptyString).
  - cbn [includes] in Hw. apply orb_true_iff in Hw. destruct Hw as [Hw|Hw].
    + now apply (startsWith_allChars p w (String d s)).
    + cbn [allChars] in Hs. apply andb_true_iff in Hs. now apply IH.
Qed.

Lemma synonym_roots_not_blank :
  forallb (fun ws : string * list string => negb (allChars blank (fst ws))) SYNONYMS
  = true.
Proof. vm_compute. reflexivity. Qed.

Lemma blank_expandSynonyms : forall s,
    allChars blank (expandSynonyms s) = allChars blank s.
Proof.
  intros s. destruct (allChars blank s) eqn:Hs.
  - rewrite expandSynonyms_none; [exact Hs|].
    unfold noSynonymRoot. apply forallb_forall. intros ws Hin.
    apply negb_true_iff. destruct (includes (fst ws) s) eqn:Hi; [|reflexivity].
    pose proof (includes_allChars blank (fst ws) s Hi Hs) as Hb.
    pose proof synonym_roots_not_blank as Ht. rewrite forallb_forall in Ht.
    specialize (Ht ws Hin). rewrite Hb in Ht. discriminate.
  - unfold expandSynonyms. revert s Hs. generalize SYNONYMS as table.
    induction table as [|ws table IH]; intros s Hs; [exact Hs|].
    cbn [fold_left]. apply IH.
    destruct (includes (fst ws) s); [|exact Hs].
    now rewrite allChars_app, Hs.
Qed.

Lemma blank_cleanPunctuation : forall s,
    allChars blank (cleanPunctuation s) = allChars blank s.
Proof.
  intros s. rewrite cleanPunctuation_squeeze, blank_trim.
  rewrite (blank_squeeze isSpace _ false space_blank).
  apply (blank_squeeze isPunct _ false punct_blank).
Qed.

(** The normaliser neither drops all of a question that has something to
    keep nor makes something of one that has not. *)
Lemma blank_normalizeQuery : forall query,
    allChars blank (normalizeQuery query) = allChars blank query.
Proof.
  intros query. unfold normalizeQuery.
  now rewrite blank_cleanPunctuation, blank_expandSynonyms, blank_fixTypos,
    blank_trim, blank_toLowerCase.
Qed.

Lemma trimStart_all_spaces : forall s,
    allChars isSpace s = true -> trimStart s = EmptyString.
Proof.
  induction s as [|c s IH]; [reflexivity|]. cbn [allChars trimStart].
  intros H. apply andb_true_iff in H. destruct H as [-> H]. now apply IH.
Qed.

Lemma blank_not_punct_space : forall s,
    allChars blank s = true -> allChars notPunct s = true ->
    allChars isSpace s = true.
Proof.
  induction s as [|c s IH]; [reflexivity|]. cbn [allChars].
  intros Hb Hp. apply andb_true_iff in Hb. destruct Hb as [Hc Hb].
  apply andb_true_iff in Hp. destruct Hp as [Hn Hp].
  rewrite (IH Hb Hp), andb_true_r.
  unfold blank, notPunct in *. apply negb_true_iff in Hn. rewrite Hn in Hc.
  now rewrite orb_false_r in Hc.
Qed.

End NormalizeMore.

(** X18. What the normaliser returns is in lower case, holds none of [?],
    [!] and [.], has single spaces for white space, and neither begins nor
    ends with white space, whatever the question. *)
Theorem normalizeQuery_shape :
  forall query : string,
    toLowerCase (normalizeQuery query) = normalizeQuery query /\
    allChars notPunct (normalizeQuery query) = true /\
    spaceNormal (normalizeQuery query) = true /\
    trim (normalizeQuery query) = normalizeQuery query.
Proof.
  intros query.
  split; [apply toLowerCase_lowered, normalizeQuery_lowered|].
  unfold normalizeQuery. apply cleanPunctuation_shape.
Qed.

(** X19. No misspelling of the table survives the normaliser: no word of
    what it returns is one of the 13 listed misspellings (the words that
    the expansion by synonyms appends are none of them either), so that
    correcting the result again changes nothing. *)
Theorem normalizeQuery_leaves_no_listed_typo :
  forall query : string,
    Forall (fun w => isTypo w = false) (wordsOf (normalizeQuery query)) /\
    fixTypos (normalizeQuery query) = normalizeQuery query.
Proof.
  intros query. pose proof (normalizeQuery_words query) as H.
  split; [exact H|]. apply fixTypos_fixed. intros w Hw.
  rewrite Forall_forall in H. specialize (H w Hw).
  unfold isTypo in H. apply JSMapFacts.has_false_notin in H. exact H.
Qed.

(** X20. The normaliser returns the empty string exactly for the questions
    made of nothing but white space and the characters [?], [!] and [.];
    the empty question is one of them. *)
Theorem normalizeQuery_empty_iff_blank :
  forall query : string,
    normalizeQuery query = EmptyString <-> allChars blank query = true.
Proof.
  intros query. split.
  - intros H. rewrite <- blank_normalizeQuery, H. reflexivity.
  - intros H. rewrite <- blank_normalizeQuery in H.
    assert (Hshape : allChars notPunct (normalizeQuery query) = true
                     /\ spaceNormal (normalizeQuery query) = true
                     /\ trim (normalizeQuery query) = normalizeQuery query)
      by (unfold normalizeQuery; apply cleanPunctuation_shape).
    destruct Hshape as (Hp & _ & Ht).
    rewrite <- Ht. unfold trim.
    rewrite (trimStart_all_spaces _ (blank_not_punct_space _ H Hp)).
    reflexivity.
Qed.

(** ** Which intents are detected *)

Section DetectedIntents.
Import JSMapFacts.

Lemma detectIntent_In : forall q i,
    In i (detectIntent q) <->
    In i INTENT_ORDER /\ (0 < finalScore q i)%Z.
Proof.
  intros q i.
  assert (H : In i (detectIntent q) <-> In i (JSMap.keys (intentScores q))).
  { unfold detectIntent, JSMap.keys. split; intros Hin;
      apply in_map_iff in Hin; destruct Hin as (e & <- & He); apply in_map.
    - exact (Permutation_in _ (stableSort_perm _ higherScore (intentScores q)) He).
    - exact (Permutation_in _
               (Permutation_sym (stableSort_perm _ higherScore (intentScores q))) He). }
  rewrite H, keys_intentScores, filter_In, Z.ltb_lt. reflexivity.
Qed.

Lemma sum_points_positive : forall ql l,
    (0 < fold_right Z.add 0 (List.map (matchedKeywordPoints ql) l))%Z ->
    exists k, In k l.
Proof.
  intros ql [|k l] H; [simpl in H; lia|]. exists k. now left.
Qed.

Lemma taxonomyScore_positive_keyword : forall ql i,
    (0 < taxonomyScore ql i)%Z ->
    exists keywords kw,
      JSMap.get i SEMANTIC_KEYWORDS = Some keywords /\
      In kw keywords /\ includes kw ql = true.
Proof.
  intros ql i H. unfold taxonomyScore in H.
  destruct (JSMap.get i SEMANTIC_KEYWORDS) as [kws|]; [|lia].
  apply sum_points_positive in H. destruct H as [kw Hkw].
  apply filter_In in Hkw. now exists kws, kw.
Qed.

Lemma get_Some_key : forall (V : Type) (i : string) (m : JSMap.t V) (v : V),
    JSMap.get i m = Some v -> In i (JSMap.keys m).
Proof.
  intros V i m v H. apply has_In. unfold JSMap.has. now rewrite H.
Qed.

Lemma pattern_intent_scored : forall q p,
    In p PATTERN_INTENTS -> test_i (fst p) q = true ->
    In (fst (snd p)) INTENT_ORDER /\ (0 < finalScore q (fst (snd p)))%Z.
Proof.
  intros q p Hin Ht. unfold PATTERN_INTENTS in Hin.
  repeat (destruct Hin as [<-|Hin];
          [cbn [fst snd] in Ht |- *; split;
           [unfold INTENT_ORDER; simpl; tauto
           |unfold finalScore, patternScore;
            cbn [PATTERN_INTENTS find fst snd String.eqb Ascii.eqb Bool.eqb andb];
            rewrite Ht; reflexivity]|]).
  destruct Hin.
Qed.

End DetectedIntents.

(** X21. Which intents are detected: an intent is in the list that
    [detectIntent] returns exactly when it is an intent of the taxonomy one
    of whose keywords occurs in the query in lower case, or the intent of a
    pattern of the battery that matches the query; in particular a query
    with no keyword and no such pattern has no intent. *)
Theorem detected_intents_are_the_matched_ones :
  forall (query intent : string),
    In intent (detectIntent query) <->
    (exists keywords keyword,
        JSMap.get intent SEMANTIC_KEYWORDS = Some keywords /\
        In keyword keywords /\ includes keyword (toLowerCase query) = true) \/
    (exists p,
        In p PATTERN_INTENTS /\ fst (snd p) = intent /\ test_i (fst p) query = true).
Proof.
  intros query intent. rewrite detectIntent_In. split.
  - intros [Hin Hpos]. unfold finalScore in Hpos.
    destruct (patternScore query intent) as [s|] eqn:Hp.
    + right. unfold patternScore in Hp.
      destruct (find (fun p => String.eqb intent (fst (snd p))) PATTERN_INTENTS)
        as [p|] eqn:Hf; [|discriminate].
      apply find_some in Hf. destruct Hf as [Hpin Heq].
      apply String.eqb_eq in Heq.
      destruct (test_i (fst p) query) eqn:Ht; [|discriminate].
      now exists p.
    + left. now apply taxonomyScore_positive_keyword.
  - intros [(keywords & keyword & Hget & Hin & Hinc)|(p & Hin & <- & Ht)].
    + assert (Hk : In intent (List.map fst SEMANTIC_KEYWORDS))
        by exact (get_Some_key _ intent SEMANTIC_KEYWORDS keywords Hget).
      split; [unfold INTENT_ORDER; apply in_or_app; now left|].
      apply Z.ltb_lt. rewrite (finalScore_taxonomy_positive query intent Hk).
      apply Z.ltb_lt.
      exact (taxonomyScore_pos (toLowerCase query) intent keywords keyword Hget Hin Hinc).
    + now apply pattern_intent_scored.
Qed.

(** ** A stale entry and the call that finds it *)

(** X22. A call that finds, in a cache of at most 50 entries, an entry for
    its question that is as old as the time to live, or older, does not
    serve it: the response is computed afresh, and after the call the cache
    holds under that key either nothing or the response just returned,
    stamped with the time of the call. *)
Theorem stale_answer_is_recomputed :
  forall (host : string -> string -> option nat) (env : Env) (question : string)
         (st : State) (e : CacheEntry),
    JSMap.size (responseCache st) <= 50 ->
    JSMap.get (cacheKeyOf question) (responseCache st) = Some e ->
    (CACHE_TTL <= now env - timestamp e)%Z ->
    servedFromCache env question st = None /\
    exists r st',
      generateRAGResponse host env question st = (Resolved r, st') /\
      (JSMap.get (cacheKeyOf question) (responseCache st') = None \/
       JSMap.get (cacheKeyOf question) (responseCache st')
       = Some {| response := r; timestamp := now env |}).
Proof.
  intros host env question st e Hsz Hget Hold.
  assert (Hc0 : getCachedResponse (now env) question (responseCache st)
                = (None, JSMap.delete (cacheKeyOf question) (responseCache st))).
  { unfold getCachedResponse. rewrite Hget.
    destruct (Z.ltb_spec (now env - timestamp e) CACHE_TTL); [lia | reflexivity]. }
  assert (Hs : servedFromCache env question st = None)
    by (unfold servedFromCache; now rewrite Hc0).
  split; [exact Hs|].
  pose proof (generateRAGResponse_frame host env question st) as Hf.
  cbv zeta in Hf. rewrite Hs, Hc0 in Hf. cbn [snd] in Hf.
  destruct Hf as (_ & r & Hr & _ & Hcache).
  exists r, (snd (generateRAGResponse host env question st)). split.
  - rewrite <- Hr. apply surjective_pairing.
  - destruct Hcache as [E|E]; rewrite E.
    + left. apply JSMapFacts.get_delete_same.
    + right. apply get_cacheResponse_same.
      pose proof (delete_size_le CacheEntry (cacheKeyOf question) (responseCache st)).
      lia.
Qed.

(** Two entries written at 0; "why ou?" asked again five minutes later. *)
Lemma stale_answer_is_recomputed_witness :
  servedFromCache (envAt 300000 0.5) "why ou?" (withCache twoEntries initialState)
  = None /\
  exists r st',
    generateRAGResponse rejectingHost (envAt 300000 0.5) "why ou?"
                        (withCache twoEntries initialState)
    = (Resolved r, st') /\
    (JSMap.get (cacheKeyOf "why ou?") (responseCache st') = None \/
     JSMap.get (cacheKeyOf "why ou?") (responseCache st')
     = Some {| response := r; timestamp := now (envAt 300000 0.5) |}).
Proof.
  apply (stale_answer_is_recomputed rejectingHost (envAt 300000 0.5) "why ou?"
           (withCache twoEntries initialState)
           {| response := "answer"; timestamp := 0 |}).
  - vm_compute. lia.
  - reflexivity.
  - vm_compute. discriminate.
Defined.

(** ** The profile and the responses *)


Section ProfileFacts.
Variable host : string -> string -> option nat.









End ProfileFacts.



(** ** The normaliser, word by word *)

Section WordsOfNormal.

(** The corrections in the order of the table come to one look-up. *)
Lemma fold_subst_absent : forall table w,
    ~ In w (List.map fst table) ->
    fold_left (fun w tc => substWord (fst tc) (snd tc) w) table w = w.
Proof.
  induction table as [|[t c] table IH]; intros w H; [reflexivity|].
  cbn [fold_left fst snd]. unfold substWord.
  destruct (String.eqb_spec w t) as [->|Hne]; [exfalso; apply H; now left|].
  apply IH. intros Hin. apply H. now right.
Qed.

Lemma fold_subst_get : forall table w,
    (forall tc, In tc table -> ~ In (snd tc) (List.map fst table)) ->
    fold_left (fun w tc => substWord (fst tc) (snd tc) w) table w
    = match JSMap.get w table with
      | Some correction => correction
      | None => w
      end.
Proof.
  induction table as [|[t c] table IH]; intros w H; [reflexivity|].
  cbn [fold_left fst snd JSMap.get]. unfold substWord.
  destruct (String.eqb_spec w t) as [->|Hne].
  - apply fold_subst_absent. intros Hin.
    apply (H (t, c)); [now left | now right].
  - apply IH. intros tc Htc Hin. apply (H tc); [now right | now right].
Qed.

Lemma fixWord_correctWord : forall w, fixWord w = correctWord w.
Proof.
  intros w. unfold fixWord, correctWord. apply fold_subst_get.
  intros tc Htc Hin.
  pose proof corrections_not_typos as H. rewrite forallb_forall in H.
  specialize (H tc Htc). apply negb_true_iff in H.
  assert (Hex : existsb (String.eqb (snd tc)) (List.map fst TYPO_CORRECTIONS) = true).
  { apply existsb_exists. exists (snd tc). split; [exact Hin | apply String.eqb_refl]. }
  congruence.
Qed.

(** *** Substrings on both sides of a separator *)

Lemma startsWith_app_sep : forall w s c t,
    allChars (fun a => negb (Ascii.eqb a c)) w = true ->
    w <> EmptyString ->
    startsWith w (s ++ String c t) = startsWith w s.
Proof.
  induction w as [|a w IH]; intros s c t Hw Hne; [congruence|].
  cbn [allChars] in Hw. apply andb_true_iff in Hw. destruct Hw as [Ha Hw].
  apply negb_true_iff in Ha.
  destruct s as [|d s].
  - cbn [append startsWith]. now rewrite Ha.
  - change (String d s ++ String c t) with (String d (s ++ String c t)).
    cbn [startsWith]. destruct (Ascii.eqb a d); [|reflexivity]. cbn [andb].
    destruct w as [|a' w']; [reflexivity|].
    apply IH; [exact Hw | discriminate].
Qed.

Lemma includes_app_sep : forall w s c t,
    allChars (fun a => negb (Ascii.eqb a c)) w = true ->
    w <> EmptyString ->
    includes w (s ++ String c t) = includes w s || includes w t.
Proof.
  intros w s c t Hw Hne. induction s as [|d s IH].
  - change (EmptyString ++ String c t) with (String c t). cbn [includes].
    rewrite orb_false_r.
    rewrite <- (startsWith_app_sep w EmptyString c t Hw Hne).
    change (EmptyString ++ String c t) with (String c t).
    pose proof (startsWith_app_sep w EmptyString c t Hw Hne) as H.
    change (EmptyString ++ String c t) with (String c t) in H. rewrite H.
    destruct w; [congruence | reflexivity].
  - change (String d s ++ String c t) with (String d (s ++ String c t)).
    cbn [includes]. rewrite IH.
    pose proof (startsWith_app_sep w (String d s) c t Hw Hne) as H.
    change (String d s ++ String c t) with (String d (s ++ String c t)) in H.
    rewrite H. now rewrite orb_assoc.
Qed.

Lemma solid_no_space : forall w,
    allChars solid w = true ->
    allChars (fun a => negb (Ascii.eqb a " ")) w = true.
Proof.
  induction w as [|a w IH]; [reflexivity|]. cbn [allChars].
  intros H. apply andb_true_iff in H. destruct H as [Ha Hw].
  rewrite (IH Hw), andb_true_r. unfold solid in Ha.
  apply andb_true_iff in Ha. destruct Ha as [Ha _].
  destruct (Ascii.eqb_spec a " ") as [->|]; [discriminate | reflexivity].
Qed.

Lemma flat_map_ext_In : forall (A B : Type) (f g : A -> list B) (l : list A),
    (forall a, In a l -> f a = g a) -> flat_map f l = flat_map g l.
Proof.
  intros A B f g l. induction l as [|a l IH]; intros H; [reflexivity|].
  cbn [flat_map]. rewrite (H a (or_introl eq_refl)), IH; [reflexivity|].
  intros b Hb. apply H. now right.
Qed.

(** The expansion appends, for each root word that occurs in the text, the
    words of its synonyms. *)
Lemma fold_synonyms_wordsOf : forall table s,
    rootsApart table = true ->
    forallb (fun ws : string * list string =>
               negb (String.eqb (fst ws) EmptyString) && allChars solid (fst ws))
            table = true ->
    wordsOf (fold_left (fun normalized ws =>
                          if includes (fst ws) normalized
                          then normalized ++ " " ++ join " " (snd ws)
                          else normalized) table s)
    = (wordsOf s
       ++ flat_map (fun ws : string * list string =>
                      if includes (fst ws) s
                      then wordsOf (join " " (snd ws)) else []) table)%list.
Proof.
  induction table as [|ws table IH]; intros s Hap Hso.
  - cbn [fold_left flat_map]. now rewrite app_nil_r.
  - cbn [rootsApart] in Hap. apply andb_true_iff in Hap. destruct Hap as [Hhead Hap].
    cbn [forallb] in Hso. apply andb_true_iff in Hso. destruct Hso as [_ Hso].
    cbn [fold_left flat_map]. rewrite (IH _ Hap Hso).
    destruct (includes (fst ws) s) eqn:Hi.
    + change (s ++ " " ++ join " " (snd ws))
        with (s ++ String " " (join " " (snd ws))).
      rewrite wordsOf_app_sep by reflexivity. rewrite <- app_assoc. f_equal. f_equal.
      apply flat_map_ext_In. intros ws' Hin.
      rewrite forallb_forall in Hhead, Hso.
      specialize (Hhead ws' Hin). apply negb_true_iff in Hhead.
      specialize (Hso ws' Hin). apply andb_true_iff in Hso. destruct Hso as [Hne Hsolid].
      rewrite includes_app_sep;
        [now rewrite Hhead, orb_false_r
        |now apply solid_no_space
        |intros E; rewrite E in Hne; discriminate].
    + reflexivity.
Qed.

Lemma synonyms_rootsApart : rootsApart SYNONYMS = true.
Proof. vm_compute. reflexivity. Qed.

End WordsOfNormal.

(** X24. The normaliser word by word: the words of what it returns are the
    words of the question in lower case, in their order, each replaced by
    its correction when it is one of the listed misspellings and kept
    otherwise, followed, for every root word of the synonym table that
    occurs in the corrected text, by the words of its synonyms, in the
    order of the table. *)
Theorem normalizeQuery_word_by_word :
  forall query : string,
    wordsOf (normalizeQuery query)
    = (List.map correctWord (wordsOf (toLowerCase query))
       ++ flat_map (fun ws : string * list string =>
                      if includes (fst ws) (fixTypos (trim (toLowerCase query)))
                      then wordsOf (join " " (snd ws)) else [])
                   SYNONYMS)%list.
Proof.
  intros query. unfold normalizeQuery.
  rewrite wordsOf_cleanPunctuation. unfold expandSynonyms.
  rewrite (fold_synonyms_wordsOf SYNONYMS _ synonyms_rootsApart synonym_roots_solid).
  f_equal. rewrite wordsOf_fixTypos. unfold trim.
  rewrite (proj1 (wordsOf_trimEnd _)), wordsOf_trimStart.
  apply map_ext. apply fixWord_correctWord.
Qed.
